(** * PlvVideoUpload: the bounded upload pool and its orchestrator

    A shallow embedding of [src/src/pool.js] (class [Pool]) and of
    [src/src/index.js] (class [PlvVideoUpload]).

    JavaScript objects that are shared by reference (the [UploadManager]
    instances) live in an explicit heap and are passed around as references;
    promises live in an explicit promise store, and the callbacks registered
    on them run as jobs of a FIFO job queue, in the order in which the
    ECMAScript promise-job rules enqueue them. *)

From Stdlib Require Import QArith Qround Lqa.
From stdpp Require Import base list strings numbers gmap.

Set Default Proof Using "Type".
Local Open Scope Z_scope.

(** ** JavaScript values that cross the modelled code *)

(** A reference to the JavaScript objects one [addFile] call creates: the
    [fileData] object and the [UploadManager] built from it. [addr] is the
    object identity; [ref_id] is the [id] field both objects carry (the
    fingerprint), which nothing in the modelled code assigns to. *)
Record Ref := mkRef { addr : nat; ref_id : string }.

#[global] Instance Ref_eq_dec : EqDecision Ref.
Proof. solve_decision. Defined.

(** What [res.json()] returns: [data.id] and [data.uploader] (which
    [_handleUploadStatusChange] tests for presence on some paths). *)
Record ResData := mkResData { data_id : string; data_uploader : option Ref }.

(** A settlement value [res]: [res_status res] is [res.status] and
    [res_json res] is [res.json()]. *)
Record Res := mkRes { res_status : Z; res_json : ResData }.

(** The value a pool promise is fulfilled with. [None] stands for a falsy
    value ([undefined], [null]); a [res] whose [status] is [0] is the other
    case the guard [!res || !res.status] catches. *)
Definition Value : Type := option Res.

(** The reason a promise is rejected with. *)
Definition Reason : Type := string.

(** The argument of [this.trigger('Error', err)]. *)
Inductive ErrorArg :=
| ErrObject (code : Z) (message : string) (data : string)
| ErrRes (res : Res)
| ErrReason (e : Reason).

(** Calls that leave the modelled code, in the order they happen. *)
Inductive Effect :=
| Trigger_Error (err : ErrorArg)
| Trigger_UploadComplete
| Call_start (u : Ref)
| Call_stop (u : Ref)
| UnhandledRejection (e : Reason).

#[global] Instance ResData_eq_dec : EqDecision ResData.
Proof. solve_decision. Defined.
#[global] Instance Res_eq_dec : EqDecision Res.
Proof. solve_decision. Defined.
#[global] Instance ErrorArg_eq_dec : EqDecision ErrorArg.
Proof. solve_decision. Defined.
#[global] Instance Effect_eq_dec : EqDecision Effect.
Proof. solve_decision. Defined.

(** ** Promises and the job queue *)

Inductive Settled :=
| Fulfilled (v : Value)
| Rejected (e : Reason).

(** What [_onPromiseEnd] registers on a pool promise: the element reaction
    of [Promise.all] for the aggregate [w], and the per-promise chain
    [.then(res => ...).catch(err => ...)]. *)
Inductive Reaction :=
| RAll (w : nat)
| RItem.

Inductive PromiseState :=
| Pending (rs : list Reaction)
| Done (o : Settled).

(** The state of one [Promise.all(...)] aggregate: the promises it was
    given, how many of them have not been counted as fulfilled yet, and
    whether the aggregate itself is settled. *)
Inductive AllState := AllPending | AllFulfilled | AllRejected.

Record Watch := mkWatch { elements : list nat; remaining : nat; all_state : AllState }.

(** An element of [Pool._waitingList] / [Pool._processingList]:
    [{id, task, resolve, reject}]. [resolve] and [reject] are the two
    settling functions of one promise, [deferred] is its address. *)
Record Item := mkItem { item_id : string; task : Ref; deferred : nat }.

#[global] Instance Item_eq_dec : EqDecision Item.
Proof. solve_decision. Defined.

(** The promise jobs of the modelled code. [JPass j] is a reaction without a
    handler for the outcome at hand (a [.catch] on a fulfilled promise, a
    [.then(f)] on a rejected one): it only passes the outcome on, which
    enqueues the next reaction [j]. *)
Inductive Job :=
| JAllResolveElement (w : nat)
| JAllReject (w : nat) (e : Reason)
| JAllThen (w : nat)
| JAllUnhandled (e : Reason)
| JItemThen (v : Value)
| JItemCatch (e : Reason)
| JRunThen (item : Item) (data : Value)
| JRunCatch (item : Item) (err : Reason)
| JRunFinally
| JPass (next : Job).

Record Runtime := mkRuntime {
  promises : list PromiseState;
  watches : list Watch;
  jobs : list Job;
  running : list Item;
  trace : list Effect
}.

Definition Runtime_init : Runtime := mkRuntime [] [] [] [] [].

Definition set_promises (f : list PromiseState → list PromiseState) (rt : Runtime) :=
  mkRuntime (f (promises rt)) (watches rt) (jobs rt) (running rt) (trace rt).
Definition set_watches (f : list Watch → list Watch) (rt : Runtime) :=
  mkRuntime (promises rt) (f (watches rt)) (jobs rt) (running rt) (trace rt).
Definition set_jobs (f : list Job → list Job) (rt : Runtime) :=
  mkRuntime (promises rt) (watches rt) (f (jobs rt)) (running rt) (trace rt).
Definition set_running (f : list Item → list Item) (rt : Runtime) :=
  mkRuntime (promises rt) (watches rt) (jobs rt) (f (running rt)) (trace rt).

Definition emit (e : Effect) (rt : Runtime) : Runtime :=
  mkRuntime (promises rt) (watches rt) (jobs rt) (running rt) (trace rt ++ [e]).

Definition queue_job (j : Job) (rt : Runtime) : Runtime :=
  set_jobs (λ js, js ++ [j]) rt.

(** The job a reaction becomes once its promise has the outcome [o]. *)
Definition reaction_job (o : Settled) (r : Reaction) : Job :=
  match r, o with
  | RAll w, Fulfilled _ => JAllResolveElement w
  | RAll w, Rejected e => JAllReject w e
  | RItem, Fulfilled v => JItemThen v
  | RItem, Rejected e => JPass (JItemCatch e)
  end.

(** [new Promise(...)]: a fresh pending promise. *)
Definition new_promise (rt : Runtime) : nat * Runtime :=
  (length (promises rt), set_promises (λ ps, ps ++ [Pending []]) rt).

(** [resolve(v)] / [reject(e)] of the promise [d]: the first call settles it
    and enqueues its reactions in registration order; later calls do
    nothing. What the host reports for a rejection that no reaction handles
    is modelled where the code has such a chain, the continuation of an
    aggregate ([JAllUnhandled]), and not for a promise that is
    rejected while it holds no reaction at all. *)
Definition settle (d : nat) (o : Settled) (rt : Runtime) : Runtime :=
  match promises rt !! d with
  | Some (Pending rs) =>
      set_jobs (λ js, js ++ map (reaction_job o) rs)
        (set_promises (λ ps, <[d := Done o]> ps) rt)
  | _ => rt
  end.

(** [p.then(...)]: on a pending promise the reaction is stored, on a settled
    one its job is enqueued at once. *)
Definition register (d : nat) (r : Reaction) (rt : Runtime) : Runtime :=
  match promises rt !! d with
  | Some (Pending rs) => set_promises (λ ps, <[d := Pending (rs ++ [r])]> ps) rt
  | Some (Done o) => queue_job (reaction_job o r) rt
  | None => rt
  end.

(** ** Array helpers *)

(** [ToIntegerOrInfinity] on a finite number: truncation towards zero. *)
Definition ToIntegerOrInfinity (q : Q) : Z :=
  if Qle_bool 0 q then Qfloor q else Qceiling q.

(** [list.slice(0, end)]: a negative [end] counts from the back. *)
Definition slice0 {A} (end_ : Q) (l : list A) : list A :=
  let len := Z.of_nat (length l) in
  let relativeEnd := ToIntegerOrInfinity end_ in
  let final :=
    if relativeEnd <? 0 then Z.max (len + relativeEnd) 0 else Z.min relativeEnd len in
  take (Z.to_nat final) l.

(** ** Queue *)

Module Queue.

(** Modelled from the spec: [./queue] (class [Queue]) is imported by
    [index.js] but is not among the sources. The spec (section 4.1)
    describes it as an ordered, id-addressable registry: [enqueue] appends,
    [find] and [remove] scan linearly for the first item with the id,
    [dequeue] takes the front item and fails on an empty queue, [unshift]
    prepends, [clear] empties. *)
Definition t : Type := list Ref.

Definition empty : t := [].
Definition size (q : t) : nat := length q.
Definition list (q : t) : list Ref := q.
Definition enqueue (x : Ref) (q : t) : t := q ++ [x].
Definition unshift (x : Ref) (q : t) : t := x :: q.
Definition clear (q : t) : t := [].

Fixpoint find (id : string) (q : t) : option Ref :=
  match q with
  | [] => None
  | x :: q' => if bool_decide (ref_id x = id) then Some x else find id q'
  end.

Fixpoint remove (id : string) (q : t) : option Ref * t :=
  match q with
  | [] => (None, [])
  | x :: q' =>
      if bool_decide (ref_id x = id) then (Some x, q')
      else let '(r, q'') := remove id q' in (r, x :: q'')
  end.

Definition dequeue (q : t) : option (Ref * t) :=
  match q with
  | [] => None
  | x :: q' => Some (x, q')
  end.

End Queue.

(** ** Pool ([src/src/pool.js]) *)

Module Pool.

Inductive LIST_TYPE := WAITING_LIST | PROCESSING_LIST.

(** The fields of a [Pool]. [_runTask] is not a field here: running a task
    is the effect [Call_start], and the promise it returns is settled by the
    environment (see [Input] below). *)
Record t := mk {
  _limit : Q;
  _waitingList : list Item;
  _processingList : list Item
}.

Definition new (limit : Q) : t := mk limit [] [].

Definition size (p : t) : nat :=
  (length (_waitingList p) + length (_processingList p))%nat.

(** The scan of [_removeItem]: the first index whose item has the id. *)
Fixpoint chosenIndex (id : string) (l : list Item) : option nat :=
  match l with
  | [] => None
  | x :: l' =>
      if bool_decide (id = item_id x) then Some 0%nat
      else S <$> chosenIndex id l'
  end.

(** [list.splice(chosenIndex, 1)[0]] after the scan: the chosen item and the
    list without it. *)
Definition splice_chosen (id : string) (l : list Item) : option Item * list Item :=
  match chosenIndex id l with
  | Some i => (l !! i, delete i l)
  | None => (None, l)
  end.

(** [_waitingListRemove(id)]: [_removeItem(id, 'waitingList')], which never
    reaches [_check]. *)
Definition _waitingListRemove (id : string) (p : t) : option Item * t :=
  let '(chosenItem, l) := splice_chosen id (_waitingList p) in
  (chosenItem, mk (_limit p) l (_processingList p)).

(** [_run(item)]: the task is started; the callbacks chained on the promise
    it returns are [run_then], [run_catch] and [run_finally] below. *)
Definition _run (item : Item) (rt : Runtime) : Runtime :=
  set_running (λ l, l ++ [item]) (emit (Call_start (task item)) rt).

(** The body of the [forEach] in [_check]. *)
Definition check_body (s : t * Runtime) (item : Item) : t * Runtime :=
  let '(p, rt) := s in
  let p := (_waitingListRemove (item_id item) p).2 in
  let p := mk (_limit p) (_waitingList p) (_processingList p ++ [item]) in
  (p, _run item rt).

Definition _check (p : t) (rt : Runtime) : t * Runtime :=
  let processingNum := length (_processingList p) in
  let availableNum := (_limit p - inject_Z (Z.of_nat processingNum))%Q in
  foldl check_body (p, rt) (slice0 availableNum (_waitingList p)).

Definition _removeItem (id : string) (listType : LIST_TYPE) (p : t) (rt : Runtime)
  : option Item * t * Runtime :=
  match listType with
  | PROCESSING_LIST =>
      let '(chosenItem, l) := splice_chosen id (_processingList p) in
      let p := mk (_limit p) (_waitingList p) l in
      match chosenItem with
      | Some _ => let '(p, rt) := _check p rt in (chosenItem, p, rt)
      | None => (chosenItem, p, rt)
      end
  | WAITING_LIST =>
      let '(chosenItem, p) := _waitingListRemove id p in (chosenItem, p, rt)
  end.

Definition _processingListRemove (id : string) (p : t) (rt : Runtime)
  : option Item * t * Runtime :=
  _removeItem id PROCESSING_LIST p rt.

(** [enqueue(task)]: returns the address of the new promise. The two
    listeners registered on the task are its settling functions; the task
    calling one of them is the input [TaskSettles]. *)
Definition enqueue (task : Ref) (p : t) (rt : Runtime) : nat * t * Runtime :=
  let '(d, rt) := new_promise rt in
  let p := mk (_limit p) (_waitingList p ++ [mkItem (ref_id task) task d]) (_processingList p) in
  let '(p, rt) := _check p rt in
  (d, p, rt).

(** [dequeue()]: [None] when both lists are empty, where [shift()] returns
    [undefined] and reading [.task] throws. *)
Definition dequeue (p : t) : option (Ref * t) :=
  match _processingList p with
  | x :: l => Some (task x, mk (_limit p) (_waitingList p) l)
  | [] =>
      match _waitingList p with
      | x :: l => Some (task x, mk (_limit p) l (_processingList p))
      | [] => None
      end
  end.

Definition remove (id : string) (p : t) (rt : Runtime) : option Ref * t * Runtime :=
  let '(chosenItem, p, rt) := _processingListRemove id p rt in
  match chosenItem with
  | Some x => (Some (task x), p, rt)
  | None =>
      let '(chosenItem, p, rt) := _removeItem id WAITING_LIST p rt in
      (task <$> chosenItem, p, rt)
  end.

(** The callbacks of [_run]: [.then((data) => ...)], [.catch((err) => ...)]
    and [.finally(() => ...)]. Each enqueues the reaction that follows it in
    the chain. *)
Definition run_then (item : Item) (data : Value) (p : t) (rt : Runtime) : t * Runtime :=
  let '(_, p, rt) := _processingListRemove (item_id item) p rt in
  let rt := settle (deferred item) (Fulfilled data) rt in
  (p, queue_job (JPass JRunFinally) rt).

Definition run_catch (item : Item) (err : Reason) (p : t) (rt : Runtime) : t * Runtime :=
  let rt := settle (deferred item) (Rejected err) rt in
  (p, queue_job JRunFinally rt).

Definition run_finally (p : t) (rt : Runtime) : t * Runtime := _check p rt.

(** The operations a pool goes through: the three public methods and the
    three callbacks of [_run], the latter for whatever item their closure
    holds. *)
Inductive Op :=
| Enqueue (task : Ref)
| Remove (id : string)
| Dequeue
| RunThen (item : Item) (data : Value)
| RunCatch (item : Item) (err : Reason)
| RunFinally.

Definition step (s : t * Runtime) (op : Op) : t * Runtime :=
  let '(p, rt) := s in
  match op with
  | Enqueue task => let '(_, p, rt) := enqueue task p rt in (p, rt)
  | Remove id => let '(_, p, rt) := remove id p rt in (p, rt)
  | Dequeue => match dequeue p with Some (_, p) => (p, rt) | None => (p, rt) end
  | RunThen item data => run_then item data p rt
  | RunCatch item err => run_catch item err p rt
  | RunFinally => run_finally p rt
  end.

(** How many items the admission check takes from the waiting list. *)
Definition admitted (p : t) : nat :=
  length (slice0 (_limit p - inject_Z (Z.of_nat (length (_processingList p))))%Q
                 (_waitingList p)).

(** The bound on the running items, and the items of the two lists told
    apart by their deferreds, each of which is a promise of the store. *)
Definition within_limit (p : t) : Prop :=
  (inject_Z (Z.of_nat (length (_processingList p))) <= _limit p)%Q.

Definition items (p : t) : list Item := _waitingList p ++ _processingList p.

Definition well_formed (p : t) (rt : Runtime) : Prop :=
  within_limit p ∧
  NoDup (deferred <$> items p) ∧
  Forall (λ x, (deferred x < length (promises rt))%nat) (items p).

End Pool.

(** ** Counting notifications against fulfilled aggregates *)

Fixpoint tally {A} (f : A → bool) (l : list A) : nat :=
  match l with
  | [] => 0
  | x :: l' => (if f x then 1 else 0) + tally f l'
  end.

Definition is_UploadComplete (e : Effect) : bool :=
  match e with Trigger_UploadComplete => true | _ => false end.
Definition is_Error (e : Effect) : bool :=
  match e with Trigger_Error _ => true | _ => false end.
Fixpoint is_JAllThen (j : Job) : bool :=
  match j with
  | JAllThen _ => true
  | JPass next => is_JAllThen next
  | _ => false
  end.
Definition is_AllFulfilled (w : Watch) : bool :=
  match all_state w with AllFulfilled => true | _ => false end.

(** Notifications fired, continuations waiting in the job queue, and
    aggregates that were fulfilled. *)
Definition fired (r : Runtime) : nat := tally is_UploadComplete (trace r).
Definition queued (r : Runtime) : nat := tally is_JAllThen (jobs r).
Definition fulfilled (r : Runtime) : nat := tally is_AllFulfilled (watches r).

(** [r'] has the same three counts as [r]. *)
Definition same (r r' : Runtime) : Prop :=
  fired r' = fired r ∧ queued r' = queued r ∧ fulfilled r' = fulfilled r.

(** From [r] to [r'] the notifications and waiting continuations grew by at
    most [k] more than the fulfilled aggregates did. *)
Definition grows (k : nat) (r r' : Runtime) : Prop :=
  (fired r' + queued r' + fulfilled r ≤ fired r + queued r + fulfilled r' + k)%nat.

(** From [r] to [r'] as many continuations were put in the job queue as
    aggregates were fulfilled. *)
Definition paired (r r' : Runtime) : Prop :=
  (queued r' + fulfilled r = queued r + fulfilled r')%nat.

(** ** Aggregates against the promises they were given *)

(** How the promise at an address stands. *)
Inductive Standing := NoPromise | IsPending | IsFulfilled | IsRejected.

#[global] Instance Standing_eq_dec : EqDecision Standing.
Proof. solve_decision. Defined.

Definition standing_of (o : option PromiseState) : Standing :=
  match o with
  | None => NoPromise
  | Some (Pending _) => IsPending
  | Some (Done (Fulfilled _)) => IsFulfilled
  | Some (Done (Rejected _)) => IsRejected
  end.

Definition reactions_of (o : option PromiseState) : list Reaction :=
  match o with
  | Some (Pending rs) => rs
  | _ => []
  end.

Definition is_RAll (w : nat) (x : Reaction) : bool :=
  match x with
  | RAll w' => bool_decide (w' = w)
  | RItem => false
  end.

Fixpoint is_resolveElement (w : nat) (j : Job) : bool :=
  match j with
  | JAllResolveElement w' => bool_decide (w' = w)
  | JPass next => is_resolveElement w next
  | _ => false
  end.

Fixpoint is_then (w : nat) (j : Job) : bool :=
  match j with
  | JAllThen w' => bool_decide (w' = w)
  | JPass next => is_then w next
  | _ => false
  end.

(** The promises the aggregate [w] was given and its countdown; an
    aggregate that does not exist was given none and counts nothing. *)
Definition snapshot (ws : list Watch) (w : nat) : list nat :=
  from_option elements [] (ws !! w).
Definition countdown (ws : list Watch) (w : nat) : nat :=
  from_option remaining 0%nat (ws !! w).

(** How many promises of a list stand in a given way. *)
Definition standing_in (st : Standing) (ps : list PromiseState) (ds : list nat) : nat :=
  tally (λ d, bool_decide (standing_of (ps !! d) = st)) ds.

(** The promise store, the aggregates and the job queue fit together:
    - an aggregate was only given promises of the store;
    - a pending promise holds the element reaction of an aggregate as often
      as the aggregate was given the promise;
    - the countdown of an aggregate is the number of its promises that are
      pending or rejected, plus the element reactions of fulfilled ones
      that wait in the job queue;
    - a fulfilled aggregate has counted down to zero;
    - a continuation waits in the job queue only for a fulfilled
      aggregate. *)
Record consistent_at (ps : list PromiseState) (ws : list Watch) (js : list Job) : Prop := {
  snapshot_bound : ∀ w d, d ∈ snapshot ws w → (d < length ps)%nat;
  reactions_match : ∀ d w,
    standing_of (ps !! d) = IsPending →
    tally (is_RAll w) (reactions_of (ps !! d)) =
    tally (λ d', bool_decide (d' = d)) (snapshot ws w);
  countdown_eq : ∀ w,
    countdown ws w =
    (standing_in IsPending ps (snapshot ws w) + standing_in IsRejected ps (snapshot ws w) +
     tally (is_resolveElement w) js)%nat;
  fulfilled_zero : ∀ w x,
    ws !! w = Some x → all_state x = AllFulfilled → remaining x = 0%nat;
  then_fulfilled : ∀ w,
    tally (is_then w) js ≠ 0%nat →
    ∃ x, ws !! w = Some x ∧ all_state x = AllFulfilled
}.

Definition consistent (r : Runtime) : Prop :=
  consistent_at (promises r) (watches r) (jobs r).

(** From [r] to [r'] consistency is kept and no promise is lost. *)
Definition evolves (r r' : Runtime) : Prop :=
  (consistent r → consistent r') ∧ (length (promises r) ≤ length (promises r'))%nat.

(** Jobs that are neither an element reaction nor a continuation, however
    often they are passed on. *)
Definition neutral (j : Job) : Prop :=
  ∀ w, is_resolveElement w j = false ∧ is_then w j = false.

(** ** Aggregates that are still pending, and rejected ones *)

Fixpoint is_reject (w : nat) (j : Job) : bool :=
  match j with
  | JAllReject w' _ => bool_decide (w' = w)
  | JPass next => is_reject w next
  | _ => false
  end.

(** One of the promises [ds] is rejected. *)
Definition holds_rejected (ps : list PromiseState) (ds : list nat) : Prop :=
  ∃ d, d ∈ ds ∧ standing_of (ps !! d) = IsRejected.

(** The state of every aggregate is accounted for:
    - a pending aggregate has not counted down to zero;
    - a rejected aggregate was given a promise that is rejected;
    - the rejecting reaction of an aggregate waits in the job queue only
      if the aggregate was given a promise that is rejected. *)
Record decided_at (ps : list PromiseState) (ws : list Watch) (js : list Job) : Prop := {
  pending_counts : ∀ w x, ws !! w = Some x → all_state x = AllPending → remaining x ≠ 0%nat;
  rejected_by : ∀ w x,
    ws !! w = Some x → all_state x = AllRejected → holds_rejected ps (elements x);
  reject_waits : ∀ w, tally (is_reject w) js ≠ 0%nat → holds_rejected ps (snapshot ws w)
}.

Definition decided (r : Runtime) : Prop :=
  decided_at (promises r) (watches r) (jobs r).

(** From [r] to [r'] the aggregates stay accounted for. *)
Definition lasting (r r' : Runtime) : Prop := decided r → decided r'.

(** ** The collaborators that are not among the sources *)

(** [userData]: a plain object of credential fields. *)
Definition UserData : Type := gmap string string.

(** A JavaScript value as far as [typeof] tells values apart. *)
Inductive JsValue (O : Type) :=
| JsUndefined
| JsBoolean (b : bool)
| JsNumber (n : Q)
| JsString (s : string)
| JsNull
| JsObject (o : O).
Arguments JsUndefined {O}.
Arguments JsBoolean {O} b.
Arguments JsNumber {O} n.
Arguments JsString {O} s.
Arguments JsNull {O}.
Arguments JsObject {O} o.

Definition typeof {O} (v : JsValue O) : string :=
  match v with
  | JsUndefined => "undefined"
  | JsBoolean _ => "boolean"
  | JsNumber _ => "number"
  | JsString _ => "string"
  | JsNull => "object"
  | JsObject _ => "object"
  end.

(** What [index.js] imports from [./utils] and [./upload], neither of which
    is among the sources. They are taken as parameters: the orchestrator is
    modelled for every choice of them.
    - [generateFileData] and [isContainFileMimeType] are the two functions
      of [./utils];
    - [fileData_id] and [fileData_title] read [fileData.id] and
      [fileData.title];
    - [initialStatusCode] is [statusCode] of a fresh [UploadManager];
    - [UploadManager_updateFileData] is what [uploader.updateFileData(v)]
      does to the task's file data, [UploadManager_stop] what
      [uploader._stop()] does to the task's [statusCode] before it
      returns. *)
Class Collaborators := {
  File : Type;
  FileSetting : Type;
  AcceptedMimeType : Type;
  FileData : Type;
  PartialFileData : Type;
  generateFileData : File → FileSetting → UserData → FileData;
  isContainFileMimeType : File → AcceptedMimeType → bool;
  fileData_id : FileData → string;
  fileData_title : FileData → string;
  initialStatusCode : Z;
  UploadManager_updateFileData : JsValue PartialFileData → FileData → FileData;
  UploadManager_stop : Z → Z
}.

(** ** The orchestrator ([src/src/index.js]) *)

Inductive STATUS := NOT_STARTED | UPLOADING.

#[global] Instance STATUS_eq_dec : EqDecision STATUS.
Proof. solve_decision. Defined.

Inductive Exn :=
| Error (message : string)
| TypeError (message : string).

Section Orchestrator.
Context `{C : Collaborators}.

(** The mutable fields of an [UploadManager] that [index.js] reads or
    writes. [isDeleted] is absent on a fresh object, which reads as falsy. *)
Record UploadManager := mkUploadManager {
  statusCode : Z;
  isDeleted : bool;
  fileData : FileData
}.

Record Config := mkConfig {
  parallelFileLimit : option Q;
  acceptedMimeType : AcceptedMimeType
}.

Record PlvVideoUpload := mkPlv {
  config : Config;
  fileQueue : Queue.t;
  waitQueue : Queue.t;
  uploadPool : Pool.t;
  userData : UserData;
  newUploadPromiseList : list nat;
  status : STATUS;
  heap : list UploadManager;
  rt : Runtime
}.

Definition set_fileQueue (f : Queue.t → Queue.t) (s : PlvVideoUpload) :=
  mkPlv (config s) (f (fileQueue s)) (waitQueue s) (uploadPool s) (userData s)
    (newUploadPromiseList s) (status s) (heap s) (rt s).
Definition set_waitQueue (f : Queue.t → Queue.t) (s : PlvVideoUpload) :=
  mkPlv (config s) (fileQueue s) (f (waitQueue s)) (uploadPool s) (userData s)
    (newUploadPromiseList s) (status s) (heap s) (rt s).
Definition set_pool (pr : Pool.t * Runtime) (s : PlvVideoUpload) :=
  mkPlv (config s) (fileQueue s) (waitQueue s) pr.1 (userData s)
    (newUploadPromiseList s) (status s) (heap s) pr.2.
Definition set_userData (f : UserData → UserData) (s : PlvVideoUpload) :=
  mkPlv (config s) (fileQueue s) (waitQueue s) (uploadPool s) (f (userData s))
    (newUploadPromiseList s) (status s) (heap s) (rt s).
Definition set_newUploadPromiseList (f : list nat → list nat) (s : PlvVideoUpload) :=
  mkPlv (config s) (fileQueue s) (waitQueue s) (uploadPool s) (userData s)
    (f (newUploadPromiseList s)) (status s) (heap s) (rt s).
Definition set_status (st : STATUS) (s : PlvVideoUpload) :=
  mkPlv (config s) (fileQueue s) (waitQueue s) (uploadPool s) (userData s)
    (newUploadPromiseList s) st (heap s) (rt s).
Definition set_heap (f : list UploadManager → list UploadManager) (s : PlvVideoUpload) :=
  mkPlv (config s) (fileQueue s) (waitQueue s) (uploadPool s) (userData s)
    (newUploadPromiseList s) (status s) (f (heap s)) (rt s).
Definition set_rt (f : Runtime → Runtime) (s : PlvVideoUpload) :=
  mkPlv (config s) (fileQueue s) (waitQueue s) (uploadPool s) (userData s)
    (newUploadPromiseList s) (status s) (heap s) (f (rt s)).

(** [uploader.statusCode] and [uploader.isDeleted]. *)
Definition get_statusCode (s : PlvVideoUpload) (u : Ref) : option Z :=
  statusCode <$> heap s !! addr u.
Definition get_isDeleted (s : PlvVideoUpload) (u : Ref) : bool :=
  from_option isDeleted false (heap s !! addr u).

(** [this.trigger(...)] of the [PubSub] base class. *)
Definition trigger (e : Effect) (s : PlvVideoUpload) : PlvVideoUpload :=
  set_rt (emit e) s.

Definition _emitError (err : ErrorArg) (s : PlvVideoUpload) : PlvVideoUpload :=
  trigger (Trigger_Error err) s.

(** The clamping of [config.parallelFileLimit] in the constructor. *)
Definition constructor_parallelFileLimit (configured : option Q) : Q :=
  let parallelFileLimit :=
    match configured with
    | Some q => if Qeq_bool q 0 then 5%Q else q
    | None => 5%Q
    end in
  if negb (Qle_bool 0 parallelFileLimit) || negb (Qle_bool parallelFileLimit 5)
  then 5%Q else parallelFileLimit.

Definition constructor (cfg : Config) : PlvVideoUpload :=
  mkPlv cfg Queue.empty Queue.empty
    (Pool.new (constructor_parallelFileLimit (parallelFileLimit cfg)))
    ∅ [] NOT_STARTED [] Runtime_init.

(** [for (const key in userData) this.userData[key] = userData[key]]. *)
Definition updateUserData (new : UserData) (s : PlvVideoUpload) : PlvVideoUpload :=
  set_userData (λ old, new ∪ old) s.

Definition updateFileData (uploaderid : string) (v : JsValue PartialFileData)
    (s : PlvVideoUpload) : PlvVideoUpload :=
  if negb (bool_decide (typeof v = "object")) then s
  else
    match Queue.find uploaderid (waitQueue s) with
    | Some uploader =>
        if bool_decide (get_statusCode s uploader = Some 1) then
          set_heap (alter (λ o, mkUploadManager (statusCode o) (isDeleted o)
                                  (UploadManager_updateFileData v (fileData o)))
                          (addr uploader)) s
        else _emitError (ErrObject 112 "文件已经开始上传或已上传完毕，禁止修改文件信息" uploaderid) s
    | None => _emitError (ErrObject 112 "文件已经开始上传或已上传完毕，禁止修改文件信息" uploaderid) s
    end.

(** [this.newUploadPromiseList.push(this.uploadPool.enqueue(uploader))]. *)
Definition submit (uploader : Ref) (s : PlvVideoUpload) : PlvVideoUpload :=
  let '(d, p, r) := Pool.enqueue uploader (uploadPool s) (rt s) in
  set_newUploadPromiseList (λ l, l ++ [d]) (set_pool (p, r) s).

(** [addFile] either returns the new uploader or throws. *)
Definition addFile (file : File) (fileSetting : FileSetting) (s : PlvVideoUpload)
  : (Exn + Ref) * PlvVideoUpload :=
  let fd := generateFileData file fileSetting (userData s) in
  if bool_decide (is_Some (Queue.find (fileData_id fd) (fileQueue s))) then
    (inl (Error "Uploading duplicate file"),
     _emitError (ErrObject 110 "文件重复" (fileData_title fd)) s)
  else if negb (isContainFileMimeType file (acceptedMimeType (config s))) then
    (inl (TypeError "Unacceptable file type"),
     _emitError (ErrObject 111 "文件类型错误" (fileData_title fd)) s)
  else
    let uploader := mkRef (length (heap s)) (fileData_id fd) in
    let s := set_fileQueue (Queue.enqueue uploader) s in
    let s := set_heap (λ h, h ++ [mkUploadManager initialStatusCode false fd]) s in
    let s :=
      match status s with
      | NOT_STARTED => set_waitQueue (Queue.enqueue uploader) s
      | UPLOADING => submit uploader s
      end in
    (inr uploader, s).

(** [uploader.isDeleted = true]. *)
Definition mark_deleted (u : Ref) (s : PlvVideoUpload) : PlvVideoUpload :=
  set_heap (alter (λ o, mkUploadManager (statusCode o) true (fileData o)) (addr u)) s.

(** [uploader._stop()]. *)
Definition _stop (u : Ref) (s : PlvVideoUpload) : PlvVideoUpload :=
  trigger (Call_stop u)
    (set_heap (alter (λ o, mkUploadManager (UploadManager_stop (statusCode o))
                             (isDeleted o) (fileData o)) (addr u)) s).

Definition removeFile (id : string) (s : PlvVideoUpload) : PlvVideoUpload :=
  let '(uploader, p, r) := Pool.remove id (uploadPool s) (rt s) in
  let s := set_pool (p, r) s in
  let s :=
    match uploader with
    | Some uploader => _stop uploader (mark_deleted uploader s)
    | None => set_waitQueue (λ q, (Queue.remove id q).2) s
    end in
  set_fileQueue (λ q, (Queue.remove id q).2) s.

(** [_onPromiseEnd]: the buffer is copied and emptied; [Promise.all]
    registers its element reaction on every promise of the copy, the
    continuation is chained on the aggregate (which is already fulfilled
    when the copy is empty), and the loop chains the per-promise handlers. *)
Definition _onPromiseEnd (s : PlvVideoUpload) : PlvVideoUpload :=
  let uploadPromiseList := newUploadPromiseList s in
  let s := set_newUploadPromiseList (λ _, []) s in
  let w := length (watches (rt s)) in
  let aggregate :=
    mkWatch uploadPromiseList (length uploadPromiseList)
      (match uploadPromiseList with [] => AllFulfilled | _ => AllPending end) in
  let s := set_rt (set_watches (λ ws, ws ++ [aggregate])) s in
  let s := set_rt (λ r, foldl (λ r d, register d (RAll w) r) r uploadPromiseList) s in
  let s :=
    match uploadPromiseList with
    | [] => set_rt (queue_job (JAllThen w)) s
    | _ => s
    end in
  set_rt (λ r, foldl (λ r d, register d RItem r) r uploadPromiseList) s.

Definition resumeFile (id : string) (s : PlvVideoUpload) : PlvVideoUpload :=
  let '(uploader, q) := Queue.remove id (waitQueue s) in
  let s := set_waitQueue (λ _, q) s in
  match uploader with
  | None => s
  | Some uploader =>
      let s := submit uploader s in
      match status s with
      | NOT_STARTED => _onPromiseEnd s
      | UPLOADING => s
      end
  end.

Definition stopFile (id : string) (s : PlvVideoUpload) : PlvVideoUpload :=
  let '(uploader, p, r) := Pool.remove id (uploadPool s) (rt s) in
  let s := set_pool (p, r) s in
  match uploader with
  | Some uploader => set_waitQueue (Queue.enqueue uploader) (_stop uploader s)
  | None => s
  end.

(** One turn of the [while] loop of [_stopAll]; [None] when the loop
    condition fails. *)
Definition _stopAll_body (isDeleted : bool) (s : PlvVideoUpload) : option PlvVideoUpload :=
  if bool_decide (0 < Pool.size (uploadPool s))%nat then
    match Pool.dequeue (uploadPool s) with
    | Some (uploader, p) =>
        let s := set_pool (p, rt s) s in
        let s := if isDeleted then mark_deleted uploader s else s in
        let s := _stop uploader s in
        Some (if bool_decide (get_statusCode s uploader = Some 1)
              then set_waitQueue (Queue.enqueue uploader) s else s)
    | None => None
    end
  else None.

(** A [while] loop whose body reports when its condition fails. *)
Fixpoint while {S} (fuel : nat) (body : S → option S) (s : S) : S :=
  match fuel with
  | O => s
  | S fuel' =>
      match body s with
      | Some s' => while fuel' body s'
      | None => s
      end
  end.

(** Every turn takes one item out of the pool, so [uploadPool.size] turns
    are all the loop can make. *)
Definition _stopAll (isDeleted : bool) (s : PlvVideoUpload) : PlvVideoUpload :=
  let s := while (Pool.size (uploadPool s)) (_stopAll_body isDeleted) s in
  set_status NOT_STARTED s.

Definition stopAll (s : PlvVideoUpload) : PlvVideoUpload := _stopAll false s.

Definition clearAll (s : PlvVideoUpload) : PlvVideoUpload :=
  let s := _stopAll true s in
  let s := set_waitQueue Queue.clear s in
  set_fileQueue Queue.clear s.

(** One turn of the [while] loop of [startAll]. *)
Definition startAll_body (s : PlvVideoUpload) : option PlvVideoUpload :=
  if bool_decide (0 < Queue.size (waitQueue s))%nat then
    match Queue.dequeue (waitQueue s) with
    | Some (uploader, q) =>
        let s := set_waitQueue (λ _, q) s in
        Some (if bool_decide (get_statusCode s uploader = Some (-1))
              then s else submit uploader s)
    | None => None
    end
  else None.

Definition startAll (s : PlvVideoUpload) : PlvVideoUpload :=
  let s := while (Queue.size (waitQueue s)) startAll_body s in
  let s := set_status UPLOADING s in
  _onPromiseEnd s.

(** [this.uploadPool.enqueue(data.uploader)] where [data.uploader] may be
    missing: the executor of the new promise then throws on [task.id], so
    the promise is born rejected and no item is queued. *)
Definition enqueue_value (uploader : option Ref) (s : PlvVideoUpload) : nat * PlvVideoUpload :=
  match uploader with
  | Some u =>
      let '(d, p, r) := Pool.enqueue u (uploadPool s) (rt s) in (d, set_pool (p, r) s)
  | None =>
      (length (promises (rt s)),
       set_rt (set_promises (λ ps, ps ++ [Done (Rejected "TypeError")])) s)
  end.

(** [_handleUploadStatusChange(res)]. The result is [None] on the one path
    the model cannot follow: status 102 with no [data.uploader] puts
    [undefined] into [waitQueue], and what [Queue] then does is not in the
    sources. *)
Definition _handleUploadStatusChange (res : Res) (s : PlvVideoUpload) : option PlvVideoUpload :=
  let data := res_json res in
  match res_status res with
  | 100 => Some (set_waitQueue (λ q, (Queue.remove (data_id data) q).2) s)
  | 102 =>
      match data_uploader data with
      | Some uploader =>
          Some (_emitError (ErrRes res) (set_waitQueue (Queue.unshift uploader) s))
      | None => None
      end
  | 101 | 104 | 105 =>
      match data_uploader data with
      | Some uploader =>
          Some (if negb (get_isDeleted s uploader)
                then set_waitQueue (Queue.unshift uploader) s else s)
      | None => Some s
      end
  | 106 | 107 =>
      let '(d, s) := enqueue_value (data_uploader data) s in
      let s := set_newUploadPromiseList (λ l, l ++ [d]) s in
      Some (match status s with
            | NOT_STARTED => _onPromiseEnd s
            | UPLOADING => s
            end)
  | _ => Some s
  end.

(** The callbacks [_onPromiseEnd] registers. *)

(** [Promise.all(...).then(() => {...})]. *)
Definition onPromiseEnd_all_then (s : PlvVideoUpload) : PlvVideoUpload :=
  if bool_decide (0 < length (newUploadPromiseList s))%nat then _onPromiseEnd s
  else if bool_decide (Pool.size (uploadPool s) = 0%nat) then
    let s := set_status NOT_STARTED s in
    if bool_decide (Queue.size (waitQueue s) = 0%nat)
       && negb (bool_decide (Queue.size (fileQueue s) = 0%nat))
    then trigger Trigger_UploadComplete s
    else s
  else s.

(** [uploadPromiseList[i].then(res => {...})]. *)
Definition onPromiseEnd_item_then (res : Value) (s : PlvVideoUpload) : option PlvVideoUpload :=
  match res with
  | None => Some s
  | Some res =>
      if bool_decide (res_status res = 0) then Some s
      else _handleUploadStatusChange res s
  end.

(** [.catch(err => {...})] of the same chain. *)
Definition onPromiseEnd_item_catch (err : Reason) (s : PlvVideoUpload) : PlvVideoUpload :=
  _emitError (ErrReason err) s.

(** The two reactions [Promise.all] registers on each of its elements. A
    fulfilled element counts the aggregate down and fulfils it at zero; a
    rejected element rejects it. Either does nothing to an aggregate that
    is already settled. The continuation has no rejection handler, so a
    rejected aggregate only produces an unhandled rejection. *)
Definition all_resolveElement (w : nat) (r : Runtime) : Runtime :=
  match watches r !! w with
  | Some (mkWatch ds n st) =>
      let n' := pred n in
      match n', st with
      | O, AllPending =>
          queue_job (JAllThen w)
            (set_watches (λ ws, <[w := mkWatch ds n' AllFulfilled]> ws) r)
      | _, _ => set_watches (λ ws, <[w := mkWatch ds n' st]> ws) r
      end
  | None => r
  end.

Definition all_reject (w : nat) (e : Reason) (r : Runtime) : Runtime :=
  match watches r !! w with
  | Some (mkWatch ds n AllPending) =>
      queue_job (JAllUnhandled e)
        (set_watches (λ ws, <[w := mkWatch ds n AllRejected]> ws) r)
  | _ => r
  end.

(** Running one job. *)
Definition step_job (j : Job) (s : PlvVideoUpload) : option PlvVideoUpload :=
  match j with
  | JAllResolveElement w => Some (set_rt (all_resolveElement w) s)
  | JAllReject w e => Some (set_rt (all_reject w e) s)
  | JAllThen w => Some (onPromiseEnd_all_then s)
  | JAllUnhandled e => Some (trigger (UnhandledRejection e) s)
  | JItemThen v => onPromiseEnd_item_then v s
  | JItemCatch e => Some (onPromiseEnd_item_catch e s)
  | JRunThen item data => Some (set_pool (Pool.run_then item data (uploadPool s) (rt s)) s)
  | JRunCatch item err => Some (set_pool (Pool.run_catch item err (uploadPool s) (rt s)) s)
  | JRunFinally => Some (set_pool (Pool.run_finally (uploadPool s) (rt s)) s)
  | JPass next => Some (set_rt (queue_job next) s)
  end.

(** The job at the front of the queue is taken out and run. [None]: the
    queue is empty, or the job took the path the model cannot follow. *)
Definition next_job (s : PlvVideoUpload) : option PlvVideoUpload :=
  match jobs (rt s) with
  | [] => None
  | j :: js => step_job j (set_rt (set_jobs (λ _, js)) s)
  end.

(** Running the job queue until it is empty. [None]: a job took the path
    the model cannot follow, or the fuel ran out. *)
Fixpoint drain (fuel : nat) (s : PlvVideoUpload) : option PlvVideoUpload :=
  match jobs (rt s) with
  | [] => Some s
  | _ :: _ =>
      match fuel with
      | O => None
      | S fuel' =>
          match next_job s with
          | Some s' => drain fuel' s'
          | None => None
          end
      end
  end.


(** ** Whole runs *)

(** What can happen between two turns of the event loop: a call of the
    public interface, the promise returned by [_start()] for a running item
    settling, a task calling one of the two listeners [Pool.enqueue]
    registered on it, or a task changing its own [statusCode]. *)
Inductive Input :=
| AddFile (file : File) (fileSetting : FileSetting)
| RemoveFile (id : string)
| ResumeFile (id : string)
| StopFile (id : string)
| ClearAll
| StartAll
| StopAll
| UpdateFileData (uploaderid : string) (v : JsValue PartialFileData)
| UpdateUserData (u : UserData)
| RunSettles (d : nat) (o : Settled)
| TaskSettles (d : nat) (o : Settled)
| SetStatusCode (a : nat) (code : Z).

(** The promise of the run of the item whose deferred is [d] settles: the
    first reaction of the chain of [_run] is enqueued. *)
Definition run_settles (d : nat) (o : Settled) (r : Runtime) : Runtime :=
  match List.find (λ it, bool_decide (deferred it = d)) (running r) with
  | Some item =>
      let r := set_running (List.filter (λ it, negb (bool_decide (deferred it = d)))) r in
      match o with
      | Fulfilled data => queue_job (JRunThen item data) r
      | Rejected err => queue_job (JPass (JRunCatch item err)) r
      end
  | None => r
  end.

Definition react (i : Input) (s : PlvVideoUpload) : PlvVideoUpload :=
  match i with
  | AddFile file fileSetting => (addFile file fileSetting s).2
  | RemoveFile id => removeFile id s
  | ResumeFile id => resumeFile id s
  | StopFile id => stopFile id s
  | ClearAll => clearAll s
  | StartAll => startAll s
  | StopAll => stopAll s
  | UpdateFileData uploaderid v => updateFileData uploaderid v s
  | UpdateUserData u => updateUserData u s
  | RunSettles d o => set_rt (run_settles d o) s
  | TaskSettles d o => set_rt (settle d o) s
  | SetStatusCode a code =>
      set_heap (alter (λ o, mkUploadManager code (isDeleted o) (fileData o)) a) s
  end.

(** One turn: the input, then every job it made runnable. *)
Definition turn (fuel : nat) (s : PlvVideoUpload) (i : Input) : option PlvVideoUpload :=
  drain fuel (react i s).

Fixpoint run (fuel : nat) (inputs : list Input) (s : PlvVideoUpload) : option PlvVideoUpload :=
  match inputs with
  | [] => Some s
  | i :: inputs' =>
      match turn fuel s i with
      | Some s' => run fuel inputs' s'
      | None => None
      end
  end.

(** The states the orchestrator can be in: the one the constructor makes,
    and from there any input at any time and any job at the front of the
    queue. *)
Inductive reachable : PlvVideoUpload → Prop :=
| reachable_constructor cfg : reachable (constructor cfg)
| reachable_react i s : reachable s → reachable (react i s)
| reachable_job s s' : reachable s → next_job s = Some s' → reachable s'.

(** ** Predicates the claims are stated with *)

(** The runtime is consistent, and the buffer of promises not yet watched
    only holds promises of the store. *)
Definition coherent (s : PlvVideoUpload) : Prop :=
  consistent (rt s) ∧
  Forall (λ d, (d < length (promises (rt s)))%nat) (newUploadPromiseList s).

(** The task [uploaderid] can be edited: it is in [waitQueue] and its
    status marker is 1, not yet started. *)
Definition editable (uploaderid : string) (s : PlvVideoUpload) (u : Ref) : Prop :=
  Queue.find uploaderid (waitQueue s) = Some u ∧ get_statusCode s u = Some 1.

(** The test the continuation makes before it notifies: nothing new was
    submitted, the pool is empty, [waitQueue] is empty and [fileQueue] is
    not. *)
Definition complete (s : PlvVideoUpload) : bool :=
  bool_decide (newUploadPromiseList s = []) &&
  bool_decide (Pool.size (uploadPool s) = 0%nat) &&
  bool_decide (Queue.size (waitQueue s) = 0%nat) &&
  negb (bool_decide (Queue.size (fileQueue s) = 0%nat)).

End Orchestrator.

(** ** Further notions the properties below are stated with *)

(** No task waits while a whole slot is free. *)
Definition saturated (p : Pool.t) : Prop :=
  Pool._waitingList p = [] ∨
  (Pool._limit p - inject_Z (Z.of_nat (length (Pool._processingList p))) < 1)%Q.

Definition is_Dequeue (op : Pool.Op) : bool :=
  match op with Pool.Dequeue => true | _ => false end.

(** The items an operation brought into [_processingList]. *)
Definition newly_admitted (p p' : Pool.t) : list Item :=
  filter (λ x, x ∉ Pool._processingList p) (Pool._processingList p').
(** The tasks of a pool in the order [dequeue] hands them out. *)
Definition pool_tasks (p : Pool.t) : list Ref :=
  task <$> (Pool._processingList p ++ Pool._waitingList p).
(** The tasks a trace starts, and the tasks a sequence of operations
    enqueues, in their order. *)
Definition started (t : list Effect) : list Ref :=
  omap (λ e, match e with Call_start u => Some u | _ => None end) t.

Definition enqueued (ops : list Pool.Op) : list Ref :=
  omap (λ op, match op with Pool.Enqueue u => Some u | _ => None end) ops.

Section MoreDefinitions.
Context `{C : Collaborators}.

(** The pool of [s] is well formed and leaves no whole slot free while a
    task waits. *)
Definition pool_sound (s : PlvVideoUpload) : Prop :=
  Pool.well_formed (uploadPool s) (rt s) ∧ saturated (uploadPool s).

(** From [s] to [s'] the pool stays sound and keeps its limit, and the
    configuration is not touched. *)
Definition pool_keeps (s s' : PlvVideoUpload) : Prop :=
  (pool_sound s → pool_sound s') ∧
  Pool._limit (uploadPool s') = Pool._limit (uploadPool s) ∧
  config s' = config s.

End MoreDefinitions.

(** ** The helpers of [src/src/node.ts] that work on strings *)

Module Node.

(** A JavaScript string is its sequence of UTF-16 code units. The regular
    expression below has no [u] flag, so it works on code units too. *)
Definition JsString : Type := list N.

(** ECMAScript's LineTerminator and WhiteSpace code points (all of them in
    the basic plane): what [.] refuses and what [trim] strips. *)
Definition isLineTerminator (c : N) : bool :=
  bool_decide (c ∈ [0x000A; 0x000D; 0x2028; 0x2029]%N).

Definition isWhiteSpace (c : N) : bool :=
  bool_decide (c ∈ [0x0009; 0x000B; 0x000C; 0x0020; 0x00A0; 0x1680;
                    0x202F; 0x205F; 0x3000; 0xFEFF]%N)
  || ((0x2000 <=? c) && (c <=? 0x200A))%N.

Fixpoint trimStart (s : JsString) : JsString :=
  match s with
  | [] => []
  | c :: s' => if isWhiteSpace c || isLineTerminator c then trimStart s' else s
  end.

(** [x.trim()]. *)
Definition trim (s : JsString) : JsString :=
  reverse (trimStart (reverse (trimStart s))).

Definition LESS_THAN : N := 0x3C.
Definition GREATER_THAN : N := 0x3E.
Definition FULL_STOP : N := 0x2E.

(** The rest of [/<.+?>/] once [<] and the first character of [.+?] are
    consumed: the lazy quantifier takes one more character at a time, none
    of them a line terminator, until [>] follows. The result is the number
    of code units consumed, [>] included. *)
Fixpoint lazy_close (s : JsString) : option nat :=
  match s with
  | [] => None
  | c :: s' =>
      if bool_decide (c = GREATER_THAN) then Some 1%nat
      else if isLineTerminator c then None
      else S <$> lazy_close s'
  end.

(** [/<.+?>/] tried at the start of [s]: the length of the match. *)
Definition match_tag (s : JsString) : option nat :=
  match s with
  | c :: d :: s' =>
      if bool_decide (c = LESS_THAN) && negb (isLineTerminator d)
      then (λ n, S (S n)) <$> lazy_close s'
      else None
  | _ => None
  end.

(** [s.replace(/<.+?>/g, "")]: the scan goes from left to right; where the
    expression matches, the match is left out and the scan goes on behind
    it ([skip] counts the code units of a match that are still to be left
    out); elsewhere the code unit is kept. *)
Fixpoint replace_tags (skip : nat) (s : JsString) : JsString :=
  match s with
  | [] => []
  | c :: s' =>
      match skip with
      | S k => replace_tags k s'
      | O =>
          match match_tag (c :: s') with
          | Some n => replace_tags (pred n) s'
          | None => c :: replace_tags 0 s'
          end
      end
  end.

(** [const cleanupFileName = (x) => x.trim().replace(/<.+?>/g, "")]. *)
Definition cleanupFileName (x : JsString) : JsString := replace_tags 0 (trim x).

(** A string holds a tag: [<], at least one code unit and none of them a
    line terminator, [>]. *)
Definition has_tag (s : JsString) : Prop :=
  ∃ pre mid post,
    s = pre ++ [LESS_THAN] ++ mid ++ [GREATER_THAN] ++ post ∧ mid ≠ [] ∧
    Forall (λ c, isLineTerminator c = false) mid.

(** [s.lastIndexOf(c)] for a search string of one code unit. *)
Fixpoint lastIndexOf (c : N) (s : JsString) : Z :=
  match s with
  | [] => -1
  | x :: s' =>
      let i := lastIndexOf c s' in
      if 0 <=? i then i + 1 else if bool_decide (x = c) then 0 else -1
  end.

(** [s.substring(start)]: [start] is clamped to the string. *)
Definition substring (start : Z) (s : JsString) : JsString :=
  drop (Z.to_nat (Z.min (Z.max start 0) (Z.of_nat (length s)))) s.

(** The name [upload] gives the file on the OSS:
    [data.dir + data.vid + filename.substring(filename.lastIndexOf("."))]. *)
Definition filenameOss (dir vid filename : JsString) : JsString :=
  dir ++ vid ++ substring (lastIndexOf FULL_STOP filename) filename.

End Node.

(** ** A concrete choice of collaborators, for running the model *)

Module Sample.

(** A file is its name and its MIME type; the fingerprint is the name. A
    fresh task has status marker 1, and stopping it leaves the marker. *)
#[export] Instance collaborators : Collaborators := {|
  File := string * string;
  FileSetting := unit;
  AcceptedMimeType := list string;
  FileData := string * string;
  PartialFileData := string;
  generateFileData file _ _ := file;
  isContainFileMimeType file accepted := bool_decide (file.2 ∈ accepted);
  fileData_id fd := fd.1;
  fileData_title fd := fd.1;
  initialStatusCode := 1;
  UploadManager_updateFileData v fd :=
    match v with JsObject title => (title, fd.2) | _ => fd end;
  UploadManager_stop code := code
|}.

Definition video (name : string) : File := (name, "video/mp4").
Definition notes : File := ("notes", "text/plain").
Definition retitle (title : string) : JsValue PartialFileData := JsObject title.

Definition plv (limit : option Q) : PlvVideoUpload :=
  constructor (mkConfig limit ["video/mp4"]).

(** The two tasks of the examples and what they settle with. *)
Definition A : Ref := mkRef 0 "A".
Definition B : Ref := mkRef 1 "B".
Definition res (code : Z) (u : Ref) : Res := mkRes code (mkResData (ref_id u) (Some u)).

(** Section 8 of the spec: limit 1, two files added before the start, then
    [startAll]; A settles with status 100, then B does. *)
Definition two_files : list Input :=
  [AddFile (video "A") (); AddFile (video "B") (); StartAll].
Definition A_done : list Input :=
  two_files ++ [RunSettles 0 (Fulfilled (Some (res 100 A)))].
Definition both_done : list Input :=
  A_done ++ [RunSettles 1 (Fulfilled (Some (res 100 B)))].



(** The run of A fails and A is then removed; B succeeds. *)
Definition A_fails_B_done : list Input :=
  two_files ++ [RunSettles 0 (Rejected "network"); RemoveFile "A";
                RunSettles 1 (Fulfilled (Some (res 100 B)))].

(** A is removed while it is running, and its task then concludes on its
    own with the given status. *)
Definition removed_then_settles (code : Z) : list Input :=
  [AddFile (video "A") (); StartAll; RemoveFile "A";
   TaskSettles 0 (Fulfilled (Some (res code A)))].




End Sample.

Module MoreSample.
Import Sample.

(** The state after A and B are both done (the run of section 8 of the
    spec). *)
Definition state_all_done : PlvVideoUpload :=
  Eval vm_compute in default (plv None) (run 20 both_done (plv (Some 1%Q))).

(** Two files are added and started on a pool of limit 1. *)
Definition state_started : PlvVideoUpload :=
  react StartAll (react (AddFile (video "B") ()) (react (AddFile (video "A") ()) (plv (Some 1%Q)))).

End MoreSample.

(** * Properties *)

(** ** Runtime *)

Lemma settle_promises_length d o rt :
  length (promises (settle d o rt)) = length (promises rt).
Proof.
  unfold settle. destruct (promises rt !! d) as [[rs|]|]; simpl; auto.
  by rewrite length_insert.
Qed.


Lemma settle_done d o o' rt :
  promises rt !! d = Some (Done o') → settle d o rt = rt.
Proof. intros H. unfold settle. by rewrite H. Qed.


(** ** Pool *)

Module PoolFacts.
Import Pool.

Lemma splice_chosen_cons id x l :
  splice_chosen id (x :: l) =
  if bool_decide (id = item_id x) then (Some x, l)
  else ((splice_chosen id l).1, x :: (splice_chosen id l).2).
Proof.
  unfold splice_chosen. simpl. case_bool_decide; [done|].
  destruct (chosenIndex id l); done.
Qed.

Lemma splice_chosen_Some id l y l' :
  splice_chosen id l = (Some y, l') →
  ∃ l1 l2, l = l1 ++ y :: l2 ∧ l' = l1 ++ l2 ∧ item_id y = id ∧
           Forall (λ x, item_id x ≠ id) l1.
Proof.
  revert l'. induction l as [|x l IH]; intros l'.
  - by unfold splice_chosen.
  - rewrite splice_chosen_cons. case_bool_decide as Hx.
    + intros [= <- <-]. exists [], l. by repeat split.
    + destruct (splice_chosen id l) as [r l''] eqn:E. simpl. intros [= -> <-].
      destruct (IH _ eq_refl) as (l1 & l2 & -> & -> & Hid & Hall).
      exists (x :: l1), l2. repeat split; auto.
Qed.

Lemma splice_chosen_None id l l' :
  splice_chosen id l = (None, l') →
  l' = l ∧ Forall (λ x, item_id x ≠ id) l.
Proof.
  revert l'. induction l as [|x l IH]; intros l'.
  - unfold splice_chosen. by intros [= <-].
  - rewrite splice_chosen_cons. case_bool_decide as Hx; [done|].
    destruct (splice_chosen id l) as [r l''] eqn:E. simpl. intros [= -> <-].
    destruct (IH _ eq_refl) as [-> Hall]. split; [done|]. constructor; auto.
Qed.

(** With ids that are unique in the list, the scan finds the very item. *)
Lemma splice_chosen_item x l :
  x ∈ l → NoDup (item_id <$> l) →
  ∃ l1 l2, l = l1 ++ x :: l2 ∧ splice_chosen (item_id x) l = (Some x, l1 ++ l2).
Proof.
  intros Hin Hnd. destruct (splice_chosen (item_id x) l) as [[y|] l'] eqn:E.
  - destruct (splice_chosen_Some _ _ _ _ E) as (l1 & l2 & -> & -> & Hid & Hall).
    assert (y = x) as ->; [|by eauto].
    rewrite fmap_app, fmap_cons in Hnd.
    apply NoDup_app in Hnd as (_ & Hdis & Hnd2).
    apply NoDup_cons in Hnd2 as [Hy _].
    apply elem_of_app in Hin as [Hin|Hin].
    + exfalso. eapply (Hdis (item_id x)).
      * apply list_elem_of_fmap. eauto.
      * rewrite <- Hid. left.
    + apply elem_of_cons in Hin as [->|Hin]; [done|].
      exfalso. apply Hy. rewrite Hid. apply list_elem_of_fmap. eauto.
  - destruct (splice_chosen_None _ _ _ E) as [_ Hall].
    rewrite Forall_forall in Hall. by destruct (Hall x Hin).
Qed.

Lemma splice_chosen_absent id l :
  Forall (λ x, item_id x ≠ id) l → splice_chosen id l = (None, l).
Proof.
  induction 1 as [|x l Hx _ IH]; [done|].
  rewrite splice_chosen_cons, bool_decide_eq_false_2 by done. by rewrite IH.
Qed.

(** An id no item of the pool has: [remove] finds nothing and changes
    nothing. *)
Lemma remove_absent id p rt :
  Forall (λ x, item_id x ≠ id) (items p) → remove id p rt = (None, p, rt).
Proof.
  intros [Hw Hp]%Forall_app.
  unfold remove, _processingListRemove, _removeItem, _waitingListRemove.
  rewrite (splice_chosen_absent _ _ Hp). simpl.
  rewrite (splice_chosen_absent _ _ Hw). simpl. by destruct p.
Qed.

(** The loop of the admission check moves the items it iterates over, which
    are a prefix of the waiting list, to the back of the processing list and
    starts them in order. *)
Lemma check_loop xs : ∀ limit rest proc rt,
  foldl check_body (mk limit (xs ++ rest) proc, rt) xs =
  (mk limit rest (proc ++ xs), foldl (λ r x, _run x r) rt xs).
Proof.
  induction xs as [|x xs IH]; intros limit rest proc rt; simpl.
  - by rewrite app_nil_r.
  - unfold _waitingListRemove. simpl. rewrite splice_chosen_cons.
    rewrite bool_decide_eq_true_2 by done. simpl.
    rewrite IH. by rewrite <- app_assoc.
Qed.

Lemma slice0_take {A} q (l : list A) : slice0 q l = take (length (slice0 q l)) l.
Proof.
  unfold slice0. rewrite length_take.
  set (n := Z.to_nat _). destruct (decide (n ≤ length l)%nat).
  - by rewrite Nat.min_l.
  - rewrite Nat.min_r by lia. rewrite !take_ge; auto with lia.
Qed.

Lemma check_spec p rt :
  _check p rt =
  (mk (_limit p) (drop (admitted p) (_waitingList p))
      (_processingList p ++ take (admitted p) (_waitingList p)),
   foldl (λ r x, _run x r) rt (take (admitted p) (_waitingList p))).
Proof.
  unfold _check, admitted.
  set (q := (_ - _)%Q). rewrite (slice0_take q) at 1.
  set (k := length (slice0 q _)).
  destruct p as [limit w proc]. simpl.
  rewrite <- (take_drop k w) at 1. apply check_loop.
Qed.

Lemma run_all_promises xs rt :
  promises (foldl (λ r x, _run x r) rt xs) = promises rt ∧
  jobs (foldl (λ r x, _run x r) rt xs) = jobs rt.
Proof.
  revert rt. induction xs as [|x xs IH]; intros rt; simpl; [done|].
  by destruct (IH (_run x rt)) as [-> ->].
Qed.

End PoolFacts.

Module PoolInvariant.
Import Pool PoolFacts.

Lemma NoDup_submseteq_inv {A} (l1 l2 : list A) : l1 ⊆+ l2 → NoDup l2 → NoDup l1.
Proof.
  intros Hsub Hnd. destruct (submseteq_Permutation _ _ Hsub) as [k Hk].
  rewrite Hk in Hnd. by apply NoDup_app in Hnd as [? _].
Qed.

Lemma Forall_submseteq_inv {A} (P : A → Prop) (l1 l2 : list A) :
  l1 ⊆+ l2 → Forall P l2 → Forall P l1.
Proof.
  intros Hsub Hall. destruct (submseteq_Permutation _ _ Hsub) as [k Hk].
  rewrite Hk in Hall. by apply Forall_app in Hall as [? _].
Qed.

(** Taking items away, in any order, keeps a pool well formed as long as
    the bound holds afterwards and no promise disappears. *)
Lemma well_formed_shrink p p' rt rt' :
  items p' ⊆+ items p → within_limit p' →
  (length (promises rt) ≤ length (promises rt'))%nat →
  well_formed p rt → well_formed p' rt'.
Proof.
  intros Hsub Hlim Hlen (_ & Hnd & Hall). split; [done|]. split.
  - eapply NoDup_submseteq_inv; [|done]. by apply fmap_submseteq.
  - eapply Forall_submseteq_inv; [done|].
    eapply Forall_impl; [done|]. simpl. lia.
Qed.

Lemma slice0_length_le {A} q (l : list A) :
  (0 <= q)%Q → (inject_Z (Z.of_nat (length (slice0 q l))) <= q)%Q.
Proof.
  intros Hq. unfold slice0, ToIntegerOrInfinity.
  rewrite (proj2 (Qle_bool_iff 0 q) Hq).
  assert (0 ≤ Qfloor q)%Z as Hfloor by apply (Qfloor_resp_le 0 q Hq).
  rewrite (proj2 (Z.ltb_ge _ _) Hfloor), length_take.
  eapply Qle_trans; [|apply Qfloor_le].
  rewrite <- Zle_Qle. lia.
Qed.

(** The admission check re-establishes the bound whenever it held before,
    and only reorders the items. *)
Lemma check_within_limit p rt :
  within_limit p → within_limit (_check p rt).1.
Proof.
  unfold within_limit. intros Hlim. rewrite check_spec. simpl.
  rewrite length_app, length_take.
  assert (0 <= _limit p - inject_Z (Z.of_nat (length (_processingList p))))%Q as Hq by lra.
  pose proof (slice0_length_le _ (_waitingList p) Hq) as Hk. fold (admitted p) in Hk.
  assert (inject_Z (Z.of_nat (length (_processingList p) +
                              admitted p `min` length (_waitingList p))) <=
          inject_Z (Z.of_nat (length (_processingList p))) +
          inject_Z (Z.of_nat (admitted p)))%Q as Hsum.
  { rewrite <- inject_Z_plus, <- Zle_Qle. lia. }
  lra.
Qed.

Lemma check_items p rt : items (_check p rt).1 ≡ₚ items p.
Proof.
  rewrite check_spec. unfold items. simpl.
  transitivity ((take (admitted p) (_waitingList p) ++
                 drop (admitted p) (_waitingList p)) ++ _processingList p).
  - solve_Permutation.
  - by rewrite take_drop.
Qed.

Lemma check_promises p rt :
  promises (_check p rt).2 = promises rt ∧ jobs (_check p rt).2 = jobs rt.
Proof. rewrite check_spec. apply run_all_promises. Qed.

Lemma check_well_formed p rt :
  well_formed p rt → well_formed (_check p rt).1 (_check p rt).2.
Proof.
  intros Hwf. apply (well_formed_shrink p _ rt _); [| | |done].
  - by rewrite check_items.
  - apply check_within_limit, Hwf.
  - by rewrite (proj1 (check_promises p rt)).
Qed.

Lemma splice_chosen_sublist id l : (splice_chosen id l).2 `sublist_of` l.
Proof.
  unfold splice_chosen. destruct (chosenIndex id l); simpl; [apply sublist_delete|done].
Qed.

Lemma within_limit_sublist limit w w' proc proc' :
  proc' `sublist_of` proc →
  within_limit (mk limit w proc) → within_limit (mk limit w' proc').
Proof.
  unfold within_limit. simpl. intros Hsub Hlim. apply sublist_length in Hsub.
  eapply Qle_trans; [|done]. rewrite <- Zle_Qle. lia.
Qed.

Lemma waitingListRemove_well_formed id p rt :
  well_formed p rt → well_formed (_waitingListRemove id p).2 rt.
Proof.
  intros Hwf. unfold _waitingListRemove.
  pose proof (splice_chosen_sublist id (_waitingList p)) as Hsub.
  destruct (splice_chosen id (_waitingList p)) as [c l]. simpl in *.
  apply (well_formed_shrink p _ rt _); [| |done|done].
  - unfold items. simpl. by apply submseteq_skips_r, sublist_submseteq.
  - destruct p. eapply within_limit_sublist; [done|apply Hwf].
Qed.

Lemma processingListRemove_well_formed id p rt :
  well_formed p rt →
  well_formed (_processingListRemove id p rt).1.2 (_processingListRemove id p rt).2.
Proof.
  intros Hwf. unfold _processingListRemove, _removeItem.
  pose proof (splice_chosen_sublist id (_processingList p)) as Hsub.
  destruct (splice_chosen id (_processingList p)) as [c l]. simpl in Hsub.
  assert (well_formed (mk (_limit p) (_waitingList p) l) rt) as Hwf1.
  { apply (well_formed_shrink p _ rt _); [| |done|done].
    - unfold items. simpl. by apply submseteq_skips_l, sublist_submseteq.
    - destruct p. eapply within_limit_sublist; [done|apply Hwf]. }
  destruct c; [|done].
  pose proof (check_well_formed _ _ Hwf1) as Hwf2.
  by destruct (_check _ rt).
Qed.

Lemma remove_well_formed id p rt :
  well_formed p rt → well_formed (remove id p rt).1.2 (remove id p rt).2.
Proof.
  intros Hwf. unfold remove.
  pose proof (processingListRemove_well_formed id p rt Hwf) as Hwf1.
  destruct (_processingListRemove id p rt) as [[c p1] rt1]. simpl in Hwf1.
  destruct c; [done|]. simpl.
  pose proof (waitingListRemove_well_formed id p1 rt1 Hwf1) as Hwf2.
  by destruct (_waitingListRemove id p1).
Qed.

Lemma dequeue_well_formed p rt u p' :
  dequeue p = Some (u, p') → well_formed p rt → well_formed p' rt.
Proof.
  unfold dequeue. intros Hdq Hwf.
  destruct p as [limit w proc]. simpl in Hdq.
  destruct proc as [|x proc]; [destruct w as [|x w]|]; simplify_eq.
  - apply (well_formed_shrink (mk limit (x :: w) []) _ rt _); [| |done|done].
    + unfold items. simpl. apply submseteq_cons, reflexivity.
    + apply Hwf.
  - apply (well_formed_shrink (mk limit w (x :: proc)) _ rt _); [| |done|done].
    + unfold items. simpl. apply submseteq_skips_l, submseteq_cons, reflexivity.
    + eapply within_limit_sublist; [|apply Hwf]. apply sublist_cons, reflexivity.
Qed.

Lemma well_formed_promises p rt rt' :
  promises rt' = promises rt → well_formed p rt → well_formed p rt'.
Proof. intros Heq (? & ? & ?). repeat split; auto. by rewrite Heq. Qed.

Lemma well_formed_settle p rt d o :
  well_formed p rt → well_formed p (settle d o rt).
Proof.
  intros (? & ? & ?). repeat split; auto. by rewrite settle_promises_length.
Qed.

Lemma enqueue_well_formed u p rt :
  well_formed p rt → well_formed (enqueue u p rt).1.2 (enqueue u p rt).2.
Proof.
  intros (Hlim & Hnd & Hall). unfold enqueue, new_promise.
  set (x := mkItem (ref_id u) u (length (promises rt))).
  set (rt1 := set_promises _ rt).
  assert (well_formed (mk (_limit p) (_waitingList p ++ [x]) (_processingList p)) rt1) as Hwf1.
  { split; [done|]. unfold items in *. simpl.
    assert ((_waitingList p ++ [x]) ++ _processingList p ≡ₚ
            x :: _waitingList p ++ _processingList p) as -> by solve_Permutation.
    split.
    - rewrite fmap_cons. apply NoDup_cons. split; [|done].
      intros (y & Hy & Hin)%list_elem_of_fmap.
      rewrite Forall_forall in Hall. specialize (Hall y Hin). simpl in Hy. lia.
    - rewrite length_app. simpl. constructor; [simpl; lia|].
      eapply Forall_impl; [done|]. simpl. lia. }
  pose proof (check_well_formed _ _ Hwf1) as Hwf2.
  by destruct (_check _ rt1).
Qed.

Lemma step_well_formed s op :
  well_formed s.1 s.2 → well_formed (step s op).1 (step s op).2.
Proof.
  destruct s as [p rt]. simpl. intros Hwf. destruct op as [u|id| |x data|x err|]; simpl.
  - pose proof (enqueue_well_formed u p rt Hwf). by destruct (enqueue u p rt) as [[? ?] ?].
  - pose proof (remove_well_formed id p rt Hwf). by destruct (remove id p rt) as [[? ?] ?].
  - destruct (dequeue p) as [[u p']|] eqn:E; [|done]. by eapply dequeue_well_formed.
  - unfold run_then.
    pose proof (processingListRemove_well_formed (item_id x) p rt Hwf) as Hwf1.
    destruct (_processingListRemove (item_id x) p rt) as [[c p1] rt1]. simpl in *.
    eapply well_formed_promises, well_formed_settle, Hwf1. done.
  - unfold run_catch. simpl.
    eapply well_formed_promises, well_formed_settle, Hwf. done.
  - apply check_well_formed, Hwf.
Qed.

Lemma new_well_formed limit rt : (0 <= limit)%Q → well_formed (new limit) rt.
Proof. intros Hlim. repeat split; simpl; [done|constructor|constructor]. Qed.

Lemma run_well_formed ops : ∀ s,
  well_formed s.1 s.2 → well_formed (foldl step s ops).1 (foldl step s ops).2.
Proof.
  induction ops as [|op ops IH]; intros s Hwf; simpl; [done|].
  by apply IH, step_well_formed.
Qed.

End PoolInvariant.

Module PoolClaims.
Import Pool PoolFacts PoolInvariant.

Lemma step_limit s op : _limit (step s op).1 = _limit s.1.
Proof.
  destruct s as [p rt]. destruct op as [u|id| |x data|x err|]; simpl.
  - unfold enqueue, new_promise. rewrite check_spec. done.
  - unfold remove, _processingListRemove, _removeItem, _waitingListRemove.
    destruct (splice_chosen id (_processingList p)) as [[c|] l]; simpl.
    + rewrite check_spec. done.
    + by destruct (splice_chosen id (_waitingList p)).
  - unfold dequeue. destruct p as [limit [|? ?] [|? ?]]; done.
  - unfold run_then, _processingListRemove, _removeItem.
    destruct (splice_chosen (item_id x) (_processingList p)) as [[c|] l]; simpl; [|done].
    rewrite check_spec. done.
  - done.
  - unfold run_finally. rewrite check_spec. done.
Qed.

Lemma run_limit ops : ∀ s, _limit (foldl step s ops).1 = _limit s.1.
Proof.
  induction ops as [|op ops IH]; intros s; simpl; [done|].
  by rewrite IH, step_limit.
Qed.

Lemma well_formed_disjoint p rt x :
  well_formed p rt → x ∈ _waitingList p → x ∉ _processingList p.
Proof.
  intros (_ & Hnd & _) Hw Hp. apply NoDup_fmap_1 in Hnd.
  apply NoDup_app in Hnd as (_ & Hdis & _). by apply (Hdis x).
Qed.

(** C3. Whatever sequence of operations a pool created with a limit that is
    not negative goes through ([enqueue], [remove], [dequeue] and the
    callbacks of the runs), the state the sequence leaves (which is the state
    the last admission check in it left) has at most [limit] items in
    [_processingList] and no item in both lists; and an admission check made
    in that state takes its items from the front of [_waitingList], appends
    them to [_processingList] in the same order, and leaves the bound and
    the disjointness in place. *)
Theorem C3_admission_invariant (limit : Q) (rt0 : Runtime) (ops : list Op) :
  (0 <= limit)%Q →
  let s := foldl step (new limit, rt0) ops in
  let s' := _check s.1 s.2 in
  _limit s.1 = limit ∧
  (inject_Z (Z.of_nat (length (_processingList s.1))) <= limit)%Q ∧
  (∀ x, x ∈ _waitingList s.1 → x ∉ _processingList s.1) ∧
  _processingList s'.1 = _processingList s.1 ++ take (admitted s.1) (_waitingList s.1) ∧
  _waitingList s'.1 = drop (admitted s.1) (_waitingList s.1) ∧
  (inject_Z (Z.of_nat (length (_processingList s'.1))) <= limit)%Q ∧
  (∀ x, x ∈ _waitingList s'.1 → x ∉ _processingList s'.1).
Proof.
  intros Hlim s s'.
  assert (well_formed s.1 s.2) as Hwf.
  { apply run_well_formed. simpl. by apply new_well_formed. }
  assert (_limit s.1 = limit) as Hl by apply run_limit.
  assert (well_formed s'.1 s'.2) as Hwf' by apply check_well_formed, Hwf.
  assert (_limit s'.1 = limit) as Hl'.
  { unfold s'. rewrite check_spec. done. }
  split; [done|]. split; [rewrite <- Hl; apply Hwf|].
  split; [intros x; by apply (well_formed_disjoint _ s.2)|].
  unfold s' in *. rewrite check_spec in *. simpl in *.
  split; [done|]. split; [done|].
  split; [rewrite <- Hl; apply Hwf'|].
  intros x; by apply (well_formed_disjoint _ _ x Hwf').
Qed.

End PoolClaims.

Section RunContract.
Context `{C : Collaborators}.
Import Pool PoolFacts PoolInvariant.


End RunContract.

(** ** The two [while] loops end by their own condition *)

(** A loop whose body lowers a measure makes at most that many turns. *)
Lemma while_ends {S} (m : S → nat) (body : S → option S) :
  (∀ s s', body s = Some s' → (m s' < m s)%nat) →
  ∀ fuel s, (m s ≤ fuel)%nat → body (while fuel body s) = None.
Proof.
  intros Hdec. induction fuel as [|fuel IH]; intros s Hm; simpl.
  - destruct (body s) as [s'|] eqn:E; [|done]. apply Hdec in E. lia.
  - destruct (body s) as [s'|] eqn:E; [|done]. apply IH. apply Hdec in E. lia.
Qed.

Section Loops.
Context `{C : Collaborators}.

Lemma stopAll_body_size b (s s' : PlvVideoUpload) :
  _stopAll_body b s = Some s' →
  (Pool.size (uploadPool s') < Pool.size (uploadPool s))%nat.
Proof.
  unfold _stopAll_body. case_bool_decide; [|done].
  destruct (Pool.dequeue (uploadPool s)) as [[u p]|] eqn:E; [|done].
  intros [= <-].
  assert (S (Pool.size p) = Pool.size (uploadPool s)) as <-.
  { unfold Pool.dequeue in E. unfold Pool.size.
    destruct (Pool._processingList (uploadPool s)) as [|x l];
      [destruct (Pool._waitingList (uploadPool s)) as [|x l]; [done|]|];
      injection E as <- <-; simpl; lia. }
  case_bool_decide; destruct b; simpl; lia.
Qed.

Lemma startAll_body_size (s s' : PlvVideoUpload) :
  startAll_body s = Some s' →
  (Queue.size (waitQueue s') < Queue.size (waitQueue s))%nat.
Proof.
  unfold startAll_body. case_bool_decide; [|done].
  destruct (waitQueue s) as [|u q] eqn:E; [done|]. simpl.
  intros [= <-]. case_bool_decide; simpl; [lia|].
  unfold submit. destruct (Pool.enqueue _ _ _) as [[d p] r]. simpl. lia.
Qed.

(** The loop of [_stopAll] ends by its own condition, with an empty pool. *)
Lemma stopAll_loop_ends b (s : PlvVideoUpload) :
  let s' := while (Pool.size (uploadPool s)) (_stopAll_body b) s in
  _stopAll_body b s' = None ∧ Pool.size (uploadPool (_stopAll b s)) = 0%nat.
Proof.
  intros s'.
  assert (_stopAll_body b s' = None) as Hend.
  { apply (while_ends (λ s, Pool.size (uploadPool s))); [apply stopAll_body_size|done]. }
  split; [done|]. unfold _stopAll. fold s'. simpl.
  unfold _stopAll_body in Hend. case_bool_decide as Hsz; [|lia].
  destruct (Pool.dequeue (uploadPool s')) as [[u p]|] eqn:E; [done|].
  unfold Pool.dequeue in E. unfold Pool.size in *.
  destruct (Pool._processingList (uploadPool s')); [|done].
  destruct (Pool._waitingList (uploadPool s')); [simpl in Hsz; lia|done].
Qed.

(** The loop of [startAll] ends by its own condition, with an empty
    [waitQueue]. *)
Lemma startAll_loop_ends (s : PlvVideoUpload) :
  let s' := while (Queue.size (waitQueue s)) startAll_body s in
  startAll_body s' = None ∧ waitQueue s' = [] ∧ status (startAll s) = UPLOADING.
Proof.
  intros s'.
  assert (startAll_body s' = None) as Hend.
  { apply (while_ends (λ s, Queue.size (waitQueue s))); [apply startAll_body_size|done]. }
  split; [done|]. split.
  2:{ unfold startAll, _onPromiseEnd. fold s'. simpl.
      by destruct (newUploadPromiseList s'). }
  unfold startAll_body in Hend. destruct (waitQueue s') as [|u q]; [done|].
  rewrite bool_decide_eq_true_2 in Hend by (simpl; lia). done.
Qed.
End Loops.

Section OrchestratorClaims.
Context `{C : Collaborators}.
Import PoolFacts.

(** C5, as amended. The limit the constructor gives the pool is greater
    than 0 and at most 5. It is 5 when the configured value is absent, zero,
    negative or greater than 5, and the configured value itself otherwise;
    so it is at least 1 unless the configured value lies strictly between 0
    and 1, which is kept as it is. *)
Theorem C5_parallelFileLimit_clamped (cfg : Config) :
  let limit := Pool._limit (uploadPool (constructor cfg)) in
  (0 < limit ∧ limit <= 5)%Q ∧
  match parallelFileLimit cfg with
  | None => limit = 5%Q
  | Some q =>
      (if Qle_bool q 0 || negb (Qle_bool q 5) then limit = 5%Q else limit = q) ∧
      (¬ (0 < q ∧ q < 1)%Q → (1 <= limit ∧ limit <= 5)%Q)
  end.
Proof.
  simpl. unfold constructor_parallelFileLimit.
  destruct (parallelFileLimit cfg) as [q|]; simpl; [|by split; [split|]].
  destruct (Qeq_bool q 0) eqn:E0.
  - apply Qeq_bool_eq in E0. simpl.
    assert (Qle_bool q 0 = true) as -> by (apply Qle_bool_iff; lra).
    simpl. repeat split; auto; lra.
  - apply Qeq_bool_neq in E0.
    destruct (Qle_bool 0 q) eqn:E1; simpl.
    + apply Qle_bool_iff in E1.
      assert (Qle_bool q 0 = false) as ->.
      { apply not_true_iff_false. rewrite Qle_bool_iff. lra. }
      simpl. destruct (Qle_bool q 5) eqn:E2; simpl.
      * apply Qle_bool_iff in E2. repeat split; auto; try lra.
        all: intros Hn; destruct (Qlt_le_dec q 1); [exfalso; apply Hn; lra|lra].
      * repeat split; auto; lra.
    + assert (¬ (0 <= q)%Q) as Hneg by (rewrite <- Qle_bool_iff; congruence).
      assert (Qle_bool q 0 = true) as -> by (apply Qle_bool_iff; lra).
      simpl. repeat split; auto; lra.
Qed.

(** C6. [addFile] with a file whose id [fileQueue] already holds emits one
    Error event with code 110, throws, and changes nothing else: the three
    containers, the heap and the mode stay as they are. With a file whose id
    is new but which fails the type predicate it does the same with code
    111. *)
Theorem C6_addFile_rejects (file : File) (fileSetting : FileSetting) (s : PlvVideoUpload) :
  let fd := generateFileData file fileSetting (userData s) in
  let r := addFile file fileSetting s in
  (is_Some (Queue.find (fileData_id fd) (fileQueue s)) →
   r.1 = inl (Error "Uploading duplicate file") ∧
   r.2 = _emitError (ErrObject 110 "文件重复" (fileData_title fd)) s) ∧
  (Queue.find (fileData_id fd) (fileQueue s) = None →
   isContainFileMimeType file (acceptedMimeType (config s)) = false →
   r.1 = inl (TypeError "Unacceptable file type") ∧
   r.2 = _emitError (ErrObject 111 "文件类型错误" (fileData_title fd)) s) ∧
  (∀ err,
   let s' := _emitError err s in
   fileQueue s' = fileQueue s ∧ Queue.size (fileQueue s') = Queue.size (fileQueue s) ∧
   waitQueue s' = waitQueue s ∧ uploadPool s' = uploadPool s ∧
   heap s' = heap s ∧ status s' = status s ∧
   newUploadPromiseList s' = newUploadPromiseList s ∧
   promises (rt s') = promises (rt s) ∧ jobs (rt s') = jobs (rt s) ∧
   trace (rt s') = trace (rt s) ++ [Trigger_Error err]).
Proof.
  simpl. unfold addFile. split; [|split].
  - intros Hdup. by rewrite bool_decide_eq_true_2.
  - intros Hnew Htype. rewrite bool_decide_eq_false_2, Htype; [done|].
    rewrite Hnew. by intros [? ?].
  - done.
Qed.

(** C8, as amended. With a value whose [typeof] is ["object"],
    [updateFileData] hands the value to the task's own [updateFileData]
    exactly when the task is in [waitQueue] with status marker 1, and emits
    one Error event with code 112 and changes no file data in every other
    case. With any other value it does nothing at all: no change and no
    event. *)
Theorem C8_updateFileData (uploaderid : string) (v : JsValue PartialFileData)
    (s : PlvVideoUpload) :
  let s' := updateFileData uploaderid v s in
  (typeof v = "object" → ∀ u, editable uploaderid s u →
   heap s' = alter (λ o, mkUploadManager (statusCode o) (isDeleted o)
                            (UploadManager_updateFileData v (fileData o)))
                   (addr u) (heap s) ∧
   rt s' = rt s) ∧
  (typeof v = "object" → (∀ u, ¬ editable uploaderid s u) →
   heap s' = heap s ∧
   trace (rt s') = trace (rt s) ++
     [Trigger_Error (ErrObject 112 "文件已经开始上传或已上传完毕，禁止修改文件信息" uploaderid)]) ∧
  (typeof v ≠ "object" → s' = s).
Proof.
  simpl. unfold updateFileData, editable. split; [|split].
  - intros -> u [-> Hst]. simpl. by rewrite bool_decide_eq_true_2.
  - intros -> Hno. simpl. destruct (Queue.find uploaderid (waitQueue s)) as [u|]; [|done].
    rewrite bool_decide_eq_false_2; [done|]. intros Hst. by apply (Hno u).
  - intros Hty. by rewrite bool_decide_eq_false_2.
Qed.


(** C10. When no item of the pool has the id, [removeFile] marks nothing as
    deleted and stops nothing: heap, pool and trace stay as they are, and
    the task is only taken out of [waitQueue] and [fileQueue]. When the pool
    has an item with the id, that item's task is the one marked deleted and
    stopped. *)
Theorem C10_removeFile_outside_pool (id : string) (s : PlvVideoUpload) :
  let s' := removeFile id s in
  (Forall (λ x, item_id x ≠ id) (Pool.items (uploadPool s)) →
   heap s' = heap s ∧ rt s' = rt s ∧ uploadPool s' = uploadPool s ∧
   waitQueue s' = (Queue.remove id (waitQueue s)).2 ∧
   fileQueue s' = (Queue.remove id (fileQueue s)).2 ∧
   status s' = status s ∧ newUploadPromiseList s' = newUploadPromiseList s) ∧
  (∀ u, (Pool.remove id (uploadPool s) (rt s)).1.1 = Some u →
   heap s' = alter (λ o, mkUploadManager (UploadManager_stop (statusCode o)) true (fileData o))
                   (addr u) (heap s) ∧
   Call_stop u ∈ trace (rt s') ∧
   waitQueue s' = waitQueue s).
Proof.
  simpl. unfold removeFile. split.
  - intros Habs. rewrite (remove_absent _ _ _ Habs). simpl.
    by destruct s.
  - intros u. destruct (Pool.remove id (uploadPool s) (rt s)) as [[o p] r]. simpl.
    intros ->. simpl. split; [|split; [|done]].
    + unfold mark_deleted, set_heap. simpl. by rewrite list_alter_alter_eq.
    + apply elem_of_app. right. left.
Qed.

End OrchestratorClaims.

(** ** Notifications never outnumber fulfilled aggregates *)

Module Counting.

Lemma tally_app {A} (f : A → bool) l k : tally f (l ++ k) = (tally f l + tally f k)%nat.
Proof. induction l as [|x l IH]; simpl; [done|]. rewrite IH. lia. Qed.

Lemma tally_insert {A} (f : A → bool) l i x y :
  l !! i = Some x →
  (tally f (<[i:=y]> l) + (if f x then 1 else 0) =
   tally f l + (if f y then 1 else 0))%nat.
Proof.
  revert i. induction l as [|z l IH]; intros [|i] H; simplify_eq/=; [lia|].
  specialize (IH _ H). lia.
Qed.

Lemma tally_reactions o rs : tally is_JAllThen (reaction_job o <$> rs) = 0%nat.
Proof. induction rs as [|[w|] rs IH]; simpl; [done|by destruct o..]. Qed.

#[export] Instance same_refl : Reflexive same.
Proof. by intros r. Qed.

#[export] Instance same_trans : Transitive same.
Proof. intros r1 r2 r3 (? & ? & ?) (? & ? & ?). repeat split; congruence. Qed.

Lemma same_grows r r' : same r r' → grows 0 r r'.
Proof. intros (? & ? & ?). unfold grows. lia. Qed.

Lemma grows_trans k1 k2 r1 r2 r3 :
  grows k1 r1 r2 → grows k2 r2 r3 → grows (k1 + k2) r1 r3.
Proof. unfold grows. lia. Qed.

Lemma grows_same_l k r1 r2 r3 : same r1 r2 → grows k r2 r3 → grows k r1 r3.
Proof. intros (? & ? & ?). unfold grows. lia. Qed.

Lemma grows_same_r k r1 r2 r3 : grows k r1 r2 → same r2 r3 → grows k r1 r3.
Proof. intros ? (? & ? & ?). unfold grows in *. lia. Qed.

Lemma same_emit e r : is_UploadComplete e = false → same r (emit e r).
Proof.
  intros He. unfold same, fired, emit. simpl. rewrite tally_app. simpl.
  rewrite He. repeat split; lia.
Qed.

Lemma same_queue_job j r : is_JAllThen j = false → same r (queue_job j r).
Proof.
  intros Hj. unfold same, queued, queue_job. simpl. rewrite tally_app. simpl.
  rewrite Hj. repeat split; lia.
Qed.

Lemma same_set_running f r : same r (set_running f r).
Proof. done. Qed.

Lemma same_set_promises f r : same r (set_promises f r).
Proof. done. Qed.

Lemma same_settle d o r : same r (settle d o r).
Proof.
  unfold settle. destruct (promises r !! d) as [[rs|]|]; [|done..].
  unfold same, queued. simpl. rewrite tally_app, tally_reactions. repeat split; lia.
Qed.

Lemma same_register d x r : same r (register d x r).
Proof.
  unfold register. destruct (promises r !! d) as [[rs|o]|]; [done| |done].
  apply same_queue_job. by destruct x, o.
Qed.

Lemma same_registers x ds : ∀ r, same r (foldl (λ r d, register d x r) r ds).
Proof.
  induction ds as [|d ds IH]; intros r; simpl; [done|].
  etrans; [apply (same_register d x)|apply IH].
Qed.

Lemma same_run x r : same r (Pool._run x r).
Proof.
  unfold Pool._run.
  etrans; [by apply (same_emit (Call_start (task x)))|apply same_set_running].
Qed.

Lemma same_runs xs : ∀ r, same r (foldl (λ r x, Pool._run x r) r xs).
Proof.
  induction xs as [|x xs IH]; intros r; simpl; [done|].
  etrans; [apply same_run|apply IH].
Qed.

Lemma same_check p r : same r (Pool._check p r).2.
Proof. rewrite PoolFacts.check_spec. apply same_runs. Qed.

Lemma same_processingListRemove id p r : same r (Pool._processingListRemove id p r).2.
Proof.
  unfold Pool._processingListRemove, Pool._removeItem.
  destruct (Pool.splice_chosen id (Pool._processingList p)) as [[c|] l]; [|done].
  pose proof (same_check (Pool.mk (Pool._limit p) (Pool._waitingList p) l) r).
  by destruct (Pool._check _ r).
Qed.

Lemma same_remove id p r : same r (Pool.remove id p r).2.
Proof.
  unfold Pool.remove. pose proof (same_processingListRemove id p r) as H.
  destruct (Pool._processingListRemove id p r) as [[[c|] p1] r1]; [done|]. simpl in *.
  by destruct (Pool._waitingListRemove id p1).
Qed.

Lemma same_enqueue u p r : same r (Pool.enqueue u p r).2.
Proof.
  unfold Pool.enqueue, new_promise.
  set (p1 := Pool.mk _ _ _). set (r1 := set_promises _ r).
  pose proof (same_check p1 r1). by destruct (Pool._check p1 r1).
Qed.

Lemma same_run_then x data p r : same r (Pool.run_then x data p r).2.
Proof.
  unfold Pool.run_then. pose proof (same_processingListRemove (item_id x) p r) as H.
  destruct (Pool._processingListRemove (item_id x) p r) as [[c p1] r1]. simpl in *.
  etrans; [done|]. etrans; [apply same_settle|by apply same_queue_job].
Qed.

Lemma same_run_catch x err p r : same r (Pool.run_catch x err p r).2.
Proof.
  unfold Pool.run_catch. simpl. etrans; [apply same_settle|by apply same_queue_job].
Qed.

Lemma same_run_settles d o r : same r (run_settles d o r).
Proof.
  unfold run_settles. destruct (List.find _ _); [|done].
  destruct o; apply (same_queue_job _ (set_running _ r)); done.
Qed.

(** A fulfilled element: the aggregate is counted as fulfilled exactly when
    its continuation is put in the job queue. *)
Lemma grows_all_resolveElement w r : grows 0 r (all_resolveElement w r).
Proof.
  unfold all_resolveElement. destruct (watches r !! w) as [[ds n st]|] eqn:E;
    [|by apply same_grows].
  assert (∀ st', (is_AllFulfilled (mkWatch ds (pred n) st') = is_AllFulfilled (mkWatch ds n st')))
    as Hn by done.
  destruct (pred n) as [|m] eqn:En, st; unfold grows, fired, queued, fulfilled;
    simpl; rewrite ?tally_app; simpl;
    match goal with
    | |- context [tally is_AllFulfilled (<[w:=?y]> _)] =>
        pose proof (tally_insert is_AllFulfilled _ _ _ y E) as Ht
    end; cbn in Ht; lia.
Qed.

Lemma same_all_reject w e r : same r (all_reject w e r).
Proof.
  unfold all_reject. destruct (watches r !! w) as [[ds n []]|] eqn:E; [|done..].
  pose proof (tally_insert is_AllFulfilled _ _ _ (mkWatch ds n AllRejected) E) as Ht.
  cbn in Ht.
  unfold same, fired, queued, fulfilled. simpl. rewrite tally_app. simpl.
  repeat split; lia.
Qed.

End Counting.

Section CountingOrchestrator.
Context `{C : Collaborators}.
Import Counting.

Lemma while_same (body : PlvVideoUpload → option PlvVideoUpload) :
  (∀ s s', body s = Some s' → same (rt s) (rt s')) →
  ∀ fuel s, same (rt s) (rt (while fuel body s)).
Proof.
  intros Hbody. induction fuel as [|fuel IH]; intros s; simpl; [done|].
  destruct (body s) as [s'|] eqn:E; [|done].
  etrans; [by apply Hbody|apply IH].
Qed.

Lemma same_submit u s : same (rt s) (rt (submit u s)).
Proof.
  unfold submit. pose proof (same_enqueue u (uploadPool s) (rt s)) as H.
  by destruct (Pool.enqueue u (uploadPool s) (rt s)) as [[d p] r].
Qed.

Lemma same_emitError err s : same (rt s) (rt (_emitError err s)).
Proof. by apply (same_emit (Trigger_Error err)). Qed.

Lemma same_stop u s : same (rt s) (rt (_stop u s)).
Proof. by apply (same_emit (Call_stop u)). Qed.

Lemma same_addFile file fileSetting s : same (rt s) (rt (addFile file fileSetting s).2).
Proof.
  unfold addFile. repeat case_match; simpl; try apply same_emitError; try done.
  apply (same_submit _ (set_heap _ (set_fileQueue _ s))).
Qed.

Lemma same_removeFile id s : same (rt s) (rt (removeFile id s)).
Proof.
  unfold removeFile. pose proof (same_remove id (uploadPool s) (rt s)) as H.
  destruct (Pool.remove id (uploadPool s) (rt s)) as [[[u|] p] r]; simpl in *; [|done].
  etrans; [done|]. by apply (same_emit (Call_stop u)).
Qed.

Lemma same_stopFile id s : same (rt s) (rt (stopFile id s)).
Proof.
  unfold stopFile. pose proof (same_remove id (uploadPool s) (rt s)) as H.
  destruct (Pool.remove id (uploadPool s) (rt s)) as [[[u|] p] r]; simpl in *; [|done].
  etrans; [done|]. by apply (same_emit (Call_stop u)).
Qed.

Lemma same_updateFileData id v s : same (rt s) (rt (updateFileData id v s)).
Proof.
  unfold updateFileData. repeat case_match; simpl; try done; apply same_emitError.
Qed.

Lemma same_stopAll isDel s : same (rt s) (rt (_stopAll isDel s)).
Proof.
  unfold _stopAll. simpl. apply while_same. clear s. intros s s'.
  unfold _stopAll_body. repeat case_match; intros; simplify_eq; simpl;
    by apply (same_emit (Call_stop _)).
Qed.

Lemma same_startAll_loop s :
  same (rt s) (rt (while (Queue.size (waitQueue s)) startAll_body s)).
Proof.
  apply while_same. clear s. intros s s'.
  unfold startAll_body. repeat case_match; intros; simplify_eq; simpl; [done|].
  apply (same_submit _ (set_waitQueue _ s)).
Qed.

(** Starting a watch: its aggregate is born fulfilled exactly when its
    continuation is put in the job queue at once. *)
Lemma grows_onPromiseEnd s : grows 0 (rt s) (rt (_onPromiseEnd s)).
Proof.
  unfold _onPromiseEnd. destruct (newUploadPromiseList s) as [|d ds]; simpl.
  - unfold grows, fired, queued, fulfilled. simpl. rewrite !tally_app. simpl. lia.
  - apply same_grows.
    set (w := length (watches (rt s))).
    set (r1 := set_watches (λ ws, ws ++ [mkWatch (d :: ds) (S (length ds)) AllPending]) (rt s)).
    assert (same (rt s) r1) as H1.
    { unfold same, fired, queued, fulfilled. simpl. rewrite tally_app. simpl.
      repeat split; lia. }
    etrans; [apply H1|].
    etrans; [apply (same_registers (RAll w) (d :: ds))|].
    apply (same_registers RItem (d :: ds)).
Qed.

Lemma grows_resumeFile id s : grows 0 (rt s) (rt (resumeFile id s)).
Proof.
  unfold resumeFile. destruct (Queue.remove id (waitQueue s)) as [[u|] q];
    [|by apply same_grows].
  set (s1 := set_waitQueue _ s).
  pose proof (same_submit u s1) as H.
  destruct (status (submit u s1)); [|by apply same_grows].
  eapply grows_same_l; [apply H|apply grows_onPromiseEnd].
Qed.

Lemma grows_startAll s : grows 0 (rt s) (rt (startAll s)).
Proof.
  unfold startAll. eapply grows_same_l; [apply same_startAll_loop|].
  apply (grows_onPromiseEnd (set_status _ _)).
Qed.

Lemma same_enqueue_value o s : same (rt s) (rt (enqueue_value o s).2).
Proof.
  unfold enqueue_value. destruct o as [u|]; [|done].
  pose proof (same_enqueue u (uploadPool s) (rt s)) as H.
  by destruct (Pool.enqueue u (uploadPool s) (rt s)) as [[d p] r].
Qed.

Lemma grows_handleUploadStatusChange res s s' :
  _handleUploadStatusChange res s = Some s' → grows 0 (rt s) (rt s').
Proof.
  unfold _handleUploadStatusChange.
  pose proof (same_enqueue_value (data_uploader (res_json res)) s) as He.
  destruct (enqueue_value (data_uploader (res_json res)) s) as [d s1]. simpl in He.
  assert (grows 0 (rt s)
            (rt (match status (set_newUploadPromiseList (λ l, l ++ [d]) s1) with
                 | NOT_STARTED => _onPromiseEnd (set_newUploadPromiseList (λ l, l ++ [d]) s1)
                 | UPLOADING => set_newUploadPromiseList (λ l, l ++ [d]) s1
                 end))) as Hre.
  { destruct (status _); [|by apply same_grows].
    eapply grows_same_l; [apply He|].
    apply (grows_onPromiseEnd (set_newUploadPromiseList _ s1)). }
  repeat case_match; intros; simplify_eq; simpl; try (by apply same_grows); try apply Hre.
  all: apply same_grows, (same_emit (Trigger_Error _)); done.
Qed.

(** The continuation fires at most one notification, or starts a watch. *)
Lemma grows_all_then s : grows 1 (rt s) (rt (onPromiseEnd_all_then s)).
Proof.
  unfold onPromiseEnd_all_then. repeat case_match.
  - pose proof (grows_onPromiseEnd s). unfold grows in *. lia.
  - unfold grows, fired, queued, fulfilled. simpl. rewrite tally_app. simpl. lia.
  - unfold grows. simpl. lia.
  - unfold grows. lia.
Qed.

Lemma grows_step_job j s s' :
  step_job j s = Some s' →
  grows (if is_JAllThen j then 1 else 0) (rt s) (rt s').
Proof.
  destruct j; simpl; intros; simplify_eq.
  - apply grows_all_resolveElement.
  - apply same_grows, same_all_reject.
  - apply grows_all_then.
  - by apply same_grows, (same_emit (UnhandledRejection _)).
  - unfold onPromiseEnd_item_then in *. repeat case_match; simplify_eq;
      try (by apply same_grows). by eapply grows_handleUploadStatusChange.
  - apply same_grows, same_emitError.
  - apply same_grows, (same_run_then item data (uploadPool s) (rt s)).
  - apply same_grows, (same_run_catch item err (uploadPool s) (rt s)).
  - apply same_grows, (same_check (uploadPool s) (rt s)).
  - unfold grows, fired, queued, fulfilled. simpl. rewrite tally_app. simpl.
    destruct (is_JAllThen j); lia.
Qed.

Lemma grows_next_job s s' : next_job s = Some s' → grows 0 (rt s) (rt s').
Proof.
  unfold next_job. destruct (jobs (rt s)) as [|j js] eqn:Ej; [done|].
  intros E1. apply grows_step_job in E1. simpl in E1.
  unfold grows, fired, queued, fulfilled in *. simpl in *. rewrite Ej. simpl.
  destruct (is_JAllThen j); lia.
Qed.

Lemma grows_drain fuel : ∀ s s', drain fuel s = Some s' → grows 0 (rt s) (rt s').
Proof.
  induction fuel as [|fuel IH]; intros s s'; simpl.
  - destruct (jobs (rt s)); intros; simplify_eq. by apply same_grows.
  - destruct (jobs (rt s)) as [|j js] eqn:Ej; [intros; simplify_eq; by apply same_grows|].
    destruct (next_job s) as [s1|] eqn:E1; [|done]. intros Hd.
    apply grows_next_job in E1. apply IH in Hd. unfold grows in *. lia.
Qed.

Lemma grows_react i s : grows 0 (rt s) (rt (react i s)).
Proof.
  destruct i; simpl; try (by apply same_grows).
  - apply same_grows, same_addFile.
  - apply same_grows, same_removeFile.
  - apply grows_resumeFile.
  - apply same_grows, same_stopFile.
  - apply same_grows. unfold clearAll. simpl. apply same_stopAll.
  - apply grows_startAll.
  - apply same_grows, same_stopAll.
  - apply same_grows, same_updateFileData.
  - apply same_grows, same_run_settles.
  - apply same_grows, same_settle.
Qed.

Lemma grows_run fuel inputs : ∀ s s',
  run fuel inputs s = Some s' → grows 0 (rt s) (rt s').
Proof.
  induction inputs as [|i inputs IH]; intros s s'; simpl.
  - intros; simplify_eq. by apply same_grows.
  - unfold turn. destruct (drain fuel (react i s)) as [s1|] eqn:E; [|done].
    intros Hr. apply IH in Hr. apply grows_drain in E.
    pose proof (grows_react i s). unfold grows in *. lia.
Qed.





End CountingOrchestrator.

(** ** Every fulfilled aggregate gets one continuation *)

Module Pairing.
Import Counting.

#[export] Instance paired_refl : Reflexive paired.
Proof. by intros r. Qed.

#[export] Instance paired_trans : Transitive paired.
Proof. unfold paired. intros r1 r2 r3 ? ?. lia. Qed.



End Pairing.

Section PairingOrchestrator.
Context `{C : Collaborators}.
Import Counting Pairing.








End PairingOrchestrator.


(** ** A fulfilled aggregate was given fulfilled promises only *)

Module Settling.
Import Counting.

Lemma tally_ext {A} (f g : A → bool) l :
  (∀ x, x ∈ l → f x = g x) → tally f l = tally g l.
Proof.
  induction l as [|x l IH]; intros H; simpl; [done|].
  rewrite (H x), IH; [done| |left]. intros y Hy. apply H. by right.
Qed.

Lemma tally_none {A} (f : A → bool) l :
  (∀ x, x ∈ l → f x = false) → tally f l = 0%nat.
Proof.
  induction l as [|x l IH]; intros H; simpl; [done|].
  rewrite (H x), IH; [done| |left]. intros y Hy. apply H. by right.
Qed.

Lemma tally_fmap {A B} (f : B → bool) (g : A → B) l :
  tally f (g <$> l) = tally (λ x, f (g x)) l.
Proof. induction l as [|x l IH]; [done|]. rewrite fmap_cons. simpl. by rewrite IH. Qed.

(** Changing a predicate at one point [d] changes its tally by the number
    of times [d] occurs. *)
Lemma tally_change (f g : nat → bool) (d : nat) l :
  (∀ x, x ≠ d → g x = f x) →
  (tally g l + (if f d then tally (λ x, bool_decide (x = d)) l else 0) =
   tally f l + (if g d then tally (λ x, bool_decide (x = d)) l else 0))%nat.
Proof.
  intros H. induction l as [|x l IH]; simpl; [by destruct (f d), (g d)|].
  case_bool_decide as Hx.
  - subst x. destruct (f d), (g d); lia.
  - rewrite (H x Hx). destruct (f d), (g d), (f x); lia.
Qed.

Lemma is_then_reaction w o x : is_then w (reaction_job o x) = false.
Proof. by destruct x, o. Qed.

Lemma is_resolveElement_reaction w o x :
  is_resolveElement w (reaction_job o x) =
  match o with Fulfilled _ => is_RAll w x | Rejected _ => false end.
Proof. by destruct x, o. Qed.

Lemma standing_insert_ne (ps : list PromiseState) (d d' : nat) x :
  d' ≠ d → standing_of (<[d:=x]> ps !! d') = standing_of (ps !! d').
Proof. intros. by rewrite list_lookup_insert_ne. Qed.

(** Settling a pending promise. *)
Lemma consistent_settle d o ps ws js rs :
  ps !! d = Some (Pending rs) →
  consistent_at ps ws js →
  consistent_at (<[d := Done o]> ps) ws (js ++ (reaction_job o <$> rs)).
Proof.
  intros Hd [Hb Hr Hc Hz Ht].
  assert (d < length ps)%nat as Hlt by by eapply lookup_lt_Some.
  assert (∀ d', d' ≠ d → standing_of (<[d:=Done o]> ps !! d') = standing_of (ps !! d'))
    as Hne by (intros; by apply standing_insert_ne).
  assert (standing_of (<[d:=Done o]> ps !! d) =
          match o with Fulfilled _ => IsFulfilled | Rejected _ => IsRejected end) as Heq.
  { rewrite list_lookup_insert_eq by done. by destruct o. }
  split.
  - intros w d' Hin. rewrite length_insert. by eapply Hb.
  - intros d' w Hp. destruct (decide (d' = d)) as [->|Hd'].
    + rewrite Heq in Hp. by destruct o.
    + rewrite list_lookup_insert_ne by done. apply Hr. by rewrite <- Hne.
  - intros w. rewrite (Hc w), tally_app, tally_fmap.
    specialize (Hr d w). rewrite Hd in Hr. simpl in Hr. specialize (Hr eq_refl).
    unfold standing_in.
    assert (∀ st x, x ≠ d →
              bool_decide (standing_of (<[d:=Done o]> ps !! x) = st) =
              bool_decide (standing_of (ps !! x) = st)) as Hside
      by (intros; by rewrite Hne).
    pose proof (tally_change _ _ d (snapshot ws w) (Hside IsPending)) as HP.
    pose proof (tally_change _ _ d (snapshot ws w) (Hside IsRejected)) as HR.
    simpl in HP, HR. rewrite Heq, Hd in HP, HR. simpl in HP, HR.
    destruct o as [v|e]; simpl in *.
    + rewrite (tally_ext _ (is_RAll w)) by (intros; apply is_resolveElement_reaction).
      lia.
    + rewrite (tally_none (λ x, is_resolveElement w (reaction_job (Rejected e) x)))
        by (intros; apply is_resolveElement_reaction).
      lia.
  - done.
  - intros w. rewrite tally_app, tally_fmap.
    rewrite (tally_none (λ x, is_then w (reaction_job o x)))
      by (intros; apply is_then_reaction).
    rewrite Nat.add_0_r. apply Ht.
Qed.


Lemma standing_in_ext st ps ps' ds :
  (∀ d, d ∈ ds → standing_of (ps' !! d) = standing_of (ps !! d)) →
  standing_in st ps' ds = standing_in st ps ds.
Proof. intros H. apply tally_ext. intros d Hin. by rewrite H. Qed.

(** A new promise that holds no reaction. *)
Lemma consistent_alloc x ps ws js :
  reactions_of (Some x) = [] →
  consistent_at ps ws js → consistent_at (ps ++ [x]) ws js.
Proof.
  intros Hx [Hb Hr Hc Hz Ht].
  assert (∀ w d, d ∈ snapshot ws w →
            standing_of ((ps ++ [x]) !! d) = standing_of (ps !! d)) as Hlook.
  { intros w d Hin. rewrite lookup_app_l; [done|]. by eapply Hb. }
  split.
  - intros w d Hin. rewrite length_app. simpl. specialize (Hb w d Hin). lia.
  - intros d w Hp. destruct (decide (d < length ps)%nat) as [Hlt|Hge].
    + rewrite lookup_app_l in Hp |- * by done. by apply Hr.
    + destruct (decide (d = length ps)) as [->|Hd].
      * rewrite list_lookup_middle by done. rewrite Hx. simpl. symmetry.
        apply tally_none. intros d' Hin. specialize (Hb w d' Hin).
        apply bool_decide_eq_false_2. lia.
      * rewrite lookup_ge_None_2 in Hp; [done|]. rewrite length_app. simpl. lia.
  - intros w. rewrite (Hc w).
    rewrite (standing_in_ext IsPending ps (ps ++ [x])) by apply (Hlook w).
    by rewrite (standing_in_ext IsRejected ps (ps ++ [x])) by apply (Hlook w).
  - done.
  - done.
Qed.


Lemma consistent_queue j ps ws js :
  neutral j → consistent_at ps ws js → consistent_at ps ws (js ++ [j]).
Proof.
  intros Hj [Hb Hr Hc Hz Ht]. split; try done.
  - intros w. rewrite tally_app. simpl. rewrite (proj1 (Hj w)). rewrite (Hc w). lia.
  - intros w. rewrite tally_app. simpl. rewrite (proj2 (Hj w)).
    rewrite !Nat.add_0_r. apply Ht.
Qed.

Lemma consistent_queues ps ws js js' :
  Forall neutral js' → consistent_at ps ws js → consistent_at ps ws (js ++ js').
Proof.
  intros Hall. revert js. induction Hall as [|j js' Hj _ IH]; intros js Hcon.
  - by rewrite app_nil_r.
  - replace (js ++ j :: js') with ((js ++ [j]) ++ js') by (by rewrite <- app_assoc).
    by apply IH, consistent_queue.
Qed.

Lemma consistent_pop j ps ws js :
  (∀ w, is_resolveElement w j = false) →
  consistent_at ps ws (j :: js) → consistent_at ps ws js.
Proof.
  intros Hj [Hb Hr Hc Hz Ht]. split; try done.
  - intros w. rewrite (Hc w). simpl. by rewrite Hj.
  - intros w Hw. apply Ht. simpl. lia.
Qed.

Lemma consistent_pass j ps ws js :
  consistent_at ps ws (JPass j :: js) → consistent_at ps ws (js ++ [j]).
Proof.
  intros [Hb Hr Hc Hz Ht]. split; try done.
  - intros w. rewrite (Hc w), tally_app. simpl. lia.
  - intros w. rewrite tally_app. simpl. intros Hw. apply Ht. simpl. lia.
Qed.


Lemma snapshot_insert ws w w' x y :
  ws !! w = Some x → elements y = elements x →
  snapshot (<[w:=y]> ws) w' = snapshot ws w'.
Proof.
  intros Hw He. unfold snapshot. destruct (decide (w' = w)) as [->|Hne].
  - rewrite list_lookup_insert_eq by by eapply lookup_lt_Some. by rewrite Hw.
  - by rewrite list_lookup_insert_ne.
Qed.

Lemma countdown_insert ws w w' x y :
  ws !! w = Some x →
  countdown (<[w:=y]> ws) w' = if decide (w' = w) then remaining y else countdown ws w'.
Proof.
  intros Hw. unfold countdown. case_decide as Hne.
  - subst. by rewrite list_lookup_insert_eq by by eapply lookup_lt_Some.
  - by rewrite list_lookup_insert_ne.
Qed.

(** The element reaction of a fulfilled promise runs. *)
Lemma consistent_resolveElement w r js :
  jobs r = JAllResolveElement w :: js →
  consistent r → consistent (all_resolveElement w (set_jobs (λ _, js) r)).
Proof.
  unfold consistent. intros Hjobs [Hb Hr Hc Hz Ht]. rewrite Hjobs in *.
  unfold all_resolveElement. simpl.
  pose proof (Hc w) as Hcw. simpl in Hcw. rewrite bool_decide_eq_true_2 in Hcw by done.
  destruct (watches r !! w) as [[ds n st]|] eqn:Ew;
    [|unfold countdown in Hcw; rewrite Ew in Hcw; simpl in Hcw; lia].
  assert (n ≠ 0)%nat as Hn.
  { unfold countdown in Hcw. rewrite Ew in Hcw. simpl in Hcw. lia. }
  assert (st ≠ AllFulfilled) as Hst.
  { intros ->. by apply Hn, (Hz w _ Ew). }
  assert (∀ y w', elements y = ds → snapshot (<[w:=y]> (watches r)) w' = snapshot (watches r) w')
    as Hsnap by (intros; by eapply snapshot_insert).
  assert (∀ y js',
    elements y = ds → remaining y = pred n →
    (all_state y = AllFulfilled → pred n = 0%nat) →
    (∀ w', tally (is_resolveElement w') js' = tally (is_resolveElement w') js) →
    (∀ w', tally (is_then w') js' ≠ 0%nat →
           tally (is_then w') js ≠ 0%nat ∨ (w' = w ∧ all_state y = AllFulfilled)) →
    consistent_at (promises r) (<[w:=y]> (watches r)) js') as Hgen.
  { intros y js' Hy1 Hy2 Hy3 Hj1 Hj2. split.
    - intros w' d. rewrite Hsnap by done. apply Hb.
    - intros d w' Hp. rewrite Hsnap by done. by apply Hr.
    - intros w'. rewrite Hsnap, Hj1 by done. rewrite (countdown_insert _ _ _ _ _ Ew).
      case_decide as Hw'.
      + subst w'. unfold countdown in Hcw. rewrite Ew in Hcw. simpl in Hcw. lia.
      + rewrite (Hc w'). simpl. by rewrite bool_decide_eq_false_2.
    - intros w' x. destruct (decide (w' = w)) as [->|Hw'].
      + rewrite list_lookup_insert_eq by by eapply lookup_lt_Some.
        intros [= <-] Hf. rewrite Hy2. by apply Hy3.
      + rewrite list_lookup_insert_ne by done. apply Hz.
    - intros w' Hw'. destruct (Hj2 w' Hw') as [Hold|[-> Hf]].
      + assert (tally (is_then w') (JAllResolveElement w :: js) ≠ 0%nat) as Hold'
          by (simpl; lia).
        destruct (Ht w' Hold') as (x & Hx & Hxf).
        destruct (decide (w' = w)) as [->|Hne].
        * rewrite Ew in Hx. by simplify_eq.
        * exists x. by rewrite list_lookup_insert_ne.
      + exists y. by rewrite list_lookup_insert_eq by by eapply lookup_lt_Some. }
  destruct (pred n) as [|m] eqn:En; [destruct st|]; simpl.
  - apply Hgen; simpl; try done.
    + intros w'. rewrite tally_app. simpl. lia.
    + intros w'. rewrite tally_app. simpl. case_bool_decide; [|lia].
      intros _. right. by subst.
  - done.
  - apply Hgen; simpl; try done. intros; by left.
  - apply Hgen; simpl; try done. intros; by left.
Qed.

(** The element reaction of a rejected promise runs. *)
Lemma consistent_reject w e r js :
  jobs r = JAllReject w e :: js →
  consistent r → consistent (all_reject w e (set_jobs (λ _, js) r)).
Proof.
  unfold consistent. intros Hjobs Hcon. rewrite Hjobs in Hcon.
  apply consistent_pop in Hcon; [|done].
  unfold all_reject. simpl.
  destruct (watches r !! w) as [[ds n []]|] eqn:Ew; simpl; try done.
  apply consistent_queue; [done|].
  destruct Hcon as [Hb Hr Hc Hz Ht].
  assert (∀ w', snapshot (<[w:=mkWatch ds n AllRejected]> (watches r)) w' =
                snapshot (watches r) w') as Hsnap by (intros; by eapply snapshot_insert).
  split.
  - intros w' d. rewrite Hsnap. apply Hb.
  - intros d w' Hp. rewrite Hsnap. by apply Hr.
  - intros w'. rewrite Hsnap, (countdown_insert _ _ _ _ _ Ew). case_decide as Hw'.
    + subst w'. rewrite <- (Hc w). unfold countdown. by rewrite Ew.
    + apply Hc.
  - intros w' x. destruct (decide (w' = w)) as [->|Hw'].
    + rewrite list_lookup_insert_eq by by eapply lookup_lt_Some. by intros [= <-].
    + rewrite list_lookup_insert_ne by done. apply Hz.
  - intros w' Hw'. destruct (Ht w' Hw') as (x & Hx & Hxf).
    destruct (decide (w' = w)) as [->|Hne].
    + rewrite Ew in Hx. by simplify_eq.
    + exists x. by rewrite list_lookup_insert_ne.
Qed.


Lemma snapshot_app ws x w :
  snapshot (ws ++ [x]) w = if decide (w = length ws) then elements x else snapshot ws w.
Proof.
  unfold snapshot. case_decide as Hw.
  - subst. by rewrite list_lookup_middle.
  - destruct (decide (w < length ws)%nat).
    + by rewrite lookup_app_l.
    + rewrite !lookup_ge_None_2; [done|lia|rewrite length_app; simpl; lia].
Qed.

Lemma countdown_app ws x w :
  countdown (ws ++ [x]) w = if decide (w = length ws) then remaining x else countdown ws w.
Proof.
  unfold countdown. case_decide as Hw.
  - subst. by rewrite list_lookup_middle.
  - destruct (decide (w < length ws)%nat).
    + by rewrite lookup_app_l.
    + rewrite !lookup_ge_None_2; [done|lia|rewrite length_app; simpl; lia].
Qed.

Lemma snapshot_beyond ws w : (length ws ≤ w)%nat → snapshot ws w = [].
Proof. intros. unfold snapshot. by rewrite lookup_ge_None_2. Qed.

Lemma countdown_beyond ws w : (length ws ≤ w)%nat → countdown ws w = 0%nat.
Proof. intros. unfold countdown. by rewrite lookup_ge_None_2. Qed.

(** A new aggregate that was given nothing yet. *)
Lemma consistent_new_watch ps ws js st :
  consistent_at ps ws js → consistent_at ps (ws ++ [mkWatch [] 0 st]) js.
Proof.
  intros [Hb Hr Hc Hz Ht]. split.
  - intros w d. rewrite snapshot_app. case_decide; [by intros ?%elem_of_nil|apply Hb].
  - intros d w Hp. rewrite snapshot_app. case_decide as Hw; [|by apply Hr].
    subst. rewrite (Hr d _ Hp), snapshot_beyond; done.
  - intros w. rewrite snapshot_app, countdown_app. case_decide as Hw; [|apply Hc].
    subst. pose proof (Hc (length ws)) as H.
    rewrite countdown_beyond, snapshot_beyond in H by done. done.
  - intros w x [Hx|[_ Hx]]%lookup_app_Some; [by eapply Hz|].
    destruct (w - length ws)%nat; simplify_eq/=. done.
  - intros w Hw. destruct (Ht w Hw) as (x & Hx & Hf). exists x.
    split; [|done]. by apply lookup_app_l_Some.
Qed.

Lemma standing_register d x r d' :
  standing_of (promises (register d x r) !! d') = standing_of (promises r !! d').
Proof.
  unfold register. destruct (promises r !! d) as [[rs|o]|] eqn:E; simpl; try done.
  destruct (decide (d' = d)) as [->|Hne].
  - rewrite list_lookup_insert_eq by by eapply lookup_lt_Some. by rewrite E.
  - by rewrite list_lookup_insert_ne.
Qed.

Lemma length_register d x r : length (promises (register d x r)) = length (promises r).
Proof.
  unfold register. destruct (promises r !! d) as [[rs|o]|]; simpl; try done.
  by rewrite length_insert.
Qed.

Lemma watches_register d x r : watches (register d x r) = watches r.
Proof. unfold register. by destruct (promises r !! d) as [[rs|o]|]. Qed.

(** What registering a reaction on [d] adds: to the reactions a pending
    promise holds, and to the job queue. *)
Lemma reactions_register f d x r d' :
  standing_of (promises r !! d') = IsPending →
  tally f (reactions_of (promises (register d x r) !! d')) =
  (tally f (reactions_of (promises r !! d')) +
   (if bool_decide (d' = d) then if f x then 1 else 0 else 0))%nat.
Proof.
  intros Hp. unfold register. destruct (promises r !! d) as [[rs|o]|] eqn:E; simpl.
  - case_bool_decide as Hd.
    + subst. rewrite list_lookup_insert_eq by by eapply lookup_lt_Some.
      rewrite E. simpl. rewrite tally_app. simpl. lia.
    + rewrite list_lookup_insert_ne by done. lia.
  - case_bool_decide as Hd; [|lia]. subst. rewrite E in Hp. by destruct o.
  - case_bool_decide as Hd; [|lia]. subst. by rewrite E in Hp.
Qed.

Lemma jobs_register (f : Job → bool) d x r :
  tally f (jobs (register d x r)) =
  (tally f (jobs r) +
   match promises r !! d with
   | Some (Done o) => if f (reaction_job o x) then 1 else 0
   | _ => 0
   end)%nat.
Proof.
  unfold register. destruct (promises r !! d) as [[rs|o]|]; simpl; try lia.
  rewrite tally_app. simpl. lia.
Qed.


(** Chaining the per-promise handlers changes nothing that is counted. *)
Lemma consistent_register_item d r : consistent r → consistent (register d RItem r).
Proof.
  unfold consistent. intros [Hb Hr Hc Hz Ht]. split.
  - intros w d'. rewrite length_register, watches_register. apply Hb.
  - intros d' w Hp. rewrite standing_register in Hp.
    rewrite reactions_register, watches_register by done. simpl.
    rewrite (Hr d' w Hp). case_bool_decide; lia.
  - intros w. rewrite watches_register, jobs_register, (Hc w).
    rewrite !(standing_in_ext _ (promises r) (promises (register d RItem r)))
      by (intros; apply standing_register).
    destruct (promises r !! d) as [[rs|[v|e]]|]; simpl; lia.
  - rewrite watches_register. apply Hz.
  - intros w. rewrite watches_register, jobs_register.
    destruct (promises r !! d) as [[rs|[v|e]]|]; simpl; rewrite ?Nat.add_0_r; apply Ht.
Qed.

Lemma consistent_register_items ds : ∀ r,
  consistent r → consistent (foldl (λ r d, register d RItem r) r ds).
Proof.
  induction ds as [|d ds IH]; intros r Hcon; simpl; [done|].
  by apply IH, consistent_register_item.
Qed.

(** [Promise.all] taking one more promise: the aggregate under
    construction has been given [ds1] so far. *)
Lemma consistent_register_all r ws ds1 d :
  consistent_at (promises r) (ws ++ [mkWatch ds1 (length ds1) AllPending]) (jobs r) →
  (d < length (promises r))%nat →
  consistent_at (promises (register d (RAll (length ws)) r))
    (ws ++ [mkWatch (ds1 ++ [d]) (length (ds1 ++ [d])) AllPending])
    (jobs (register d (RAll (length ws)) r)).
Proof.
  intros [Hb Hr Hc Hz Ht] Hlt. set (w := length ws) in *.
  set (r' := register d (RAll w) r).
  assert (∀ st ds, standing_in st (promises r') ds = standing_in st (promises r) ds) as Hst.
  { intros. apply standing_in_ext. intros. apply standing_register. }
  assert (∀ st, standing_in st (promises r) (ds1 ++ [d]) =
                (standing_in st (promises r) ds1 +
                 if bool_decide (standing_of (promises r !! d) = st) then 1 else 0)%nat)
    as Hsnoc.
  { intros. unfold standing_in. rewrite tally_app. simpl. lia. }
  split.
  - intros w' d'. unfold r'. rewrite length_register, snapshot_app. simpl.
    specialize (Hb w' d'). rewrite snapshot_app in Hb. simpl in Hb.
    case_decide; [|done]. intros [Hin|Hin]%elem_of_app; [by apply Hb|].
    apply list_elem_of_singleton in Hin. by subst.
  - intros d' w' Hp. unfold r' in *. rewrite standing_register in Hp.
    rewrite reactions_register by done. specialize (Hr d' w' Hp).
    rewrite snapshot_app in Hr |- *. simpl in *. rewrite Hr.
    case_decide as Hw'.
    + subst w'. rewrite tally_app. simpl. unfold w.
      repeat case_bool_decide; subst; try lia; congruence.
    + unfold w. repeat case_bool_decide; subst; try lia; congruence.
  - intros w'. rewrite !Hst. unfold r'. rewrite jobs_register.
    specialize (Hc w'). rewrite snapshot_app, countdown_app in Hc |- *. simpl in *.
    case_decide as Hw'.
    + subst w'. rewrite !Hsnoc, length_app. simpl.
      destruct (promises r !! d) as [[rs|[v|e]]|] eqn:E; simpl.
      * lia.
      * rewrite bool_decide_eq_true_2 by done. lia.
      * lia.
      * apply lookup_ge_None_1 in E. lia.
    + rewrite Hc. destruct (promises r !! d) as [[rs|[v|e]]|]; simpl; try lia.
      rewrite bool_decide_eq_false_2 by done. lia.
  - intros w' x [Hx|[_ Hx]]%lookup_app_Some.
    + eapply Hz. by apply lookup_app_l_Some.
    + destruct (w' - length ws)%nat; by simplify_eq/=.
  - intros w'. unfold r'. rewrite jobs_register.
    assert (∀ o, is_then w' (reaction_job o (RAll w)) = false) as Hno
      by (intros; apply is_then_reaction).
    intros Hw'. destruct (Ht w') as (x & Hx & Hf).
    { destruct (promises r !! d) as [[rs|o]|]; rewrite ?Hno in Hw'; simpl in *; lia. }
    apply lookup_app_Some in Hx as [Hx|[_ Hx]].
    + exists x. split; [by apply lookup_app_l_Some|done].
    + destruct (w' - length ws)%nat; by simplify_eq/=.
Qed.

Lemma consistent_register_alls ds2 : ∀ r ws ds1,
  consistent_at (promises r) (ws ++ [mkWatch ds1 (length ds1) AllPending]) (jobs r) →
  Forall (λ d, d < length (promises r))%nat ds2 →
  let r' := foldl (λ r d, register d (RAll (length ws)) r) r ds2 in
  consistent_at (promises r')
    (ws ++ [mkWatch (ds1 ++ ds2) (length (ds1 ++ ds2)) AllPending]) (jobs r').
Proof.
  induction ds2 as [|d ds2 IH]; intros r ws ds1 Hcon Hall; simpl.
  - by rewrite app_nil_r.
  - apply Forall_cons in Hall as [Hd Hall].
    replace (ds1 ++ d :: ds2) with ((ds1 ++ [d]) ++ ds2) by (by rewrite <- app_assoc).
    apply IH; [by apply consistent_register_all|].
    eapply Forall_impl; [done|]. simpl. intros. by rewrite length_register.
Qed.


Lemma length_resolveElement w r :
  length (promises (all_resolveElement w r)) = length (promises r).
Proof.
  unfold all_resolveElement. destruct (watches r !! w) as [[ds n st]|]; [|done].
  by destruct (pred n), st.
Qed.

Lemma length_reject w e r :
  length (promises (all_reject w e r)) = length (promises r).
Proof. unfold all_reject. by destruct (watches r !! w) as [[ds n []]|]. Qed.

(** *** Runtime operations keep consistency *)

#[export] Instance evolves_refl : Reflexive evolves.
Proof. by intros r. Qed.

#[export] Instance evolves_trans : Transitive evolves.
Proof. intros r1 r2 r3 [H1 L1] [H2 L2]. split; [auto|lia]. Qed.

Lemma evolves_fields r r' :
  promises r' = promises r → watches r' = watches r → jobs r' = jobs r → evolves r r'.
Proof. unfold evolves, consistent. by intros -> -> ->. Qed.

Lemma evolves_queue_job j r : neutral j → evolves r (queue_job j r).
Proof. intros Hj. split; [|done]. by apply consistent_queue. Qed.

Lemma neutral_reaction o x : (∀ w, x ≠ RAll w) → neutral (reaction_job o x).
Proof. intros Hx w. destruct x as [w'|], o; try done; by destruct (Hx w'). Qed.

Lemma evolves_settle d o r : evolves r (settle d o r).
Proof.
  split; [|by rewrite settle_promises_length].
  unfold settle. destruct (promises r !! d) as [[rs|]|] eqn:E; try done.
  by apply consistent_settle.
Qed.

Lemma evolves_new_promise r : evolves r (new_promise r).2.
Proof.
  split; [by apply consistent_alloc|]. simpl. rewrite length_app. simpl. lia.
Qed.

Lemma evolves_run x r : evolves r (Pool._run x r).
Proof. by apply evolves_fields. Qed.

Lemma evolves_check p r : evolves r (Pool._check p r).2.
Proof.
  rewrite PoolFacts.check_spec. simpl.
  destruct (PoolFacts.run_all_promises
              (take (Pool.admitted p) (Pool._waitingList p)) r) as [Hp Hj].
  apply evolves_fields; try done.
  generalize (take (Pool.admitted p) (Pool._waitingList p)). intros xs. clear.
  revert r. induction xs as [|x xs IH]; intros r; simpl; [done|]. by rewrite IH.
Qed.

Lemma evolves_processingListRemove id p r :
  evolves r (Pool._processingListRemove id p r).2.
Proof.
  unfold Pool._processingListRemove, Pool._removeItem.
  destruct (Pool.splice_chosen id (Pool._processingList p)) as [[c|] l]; [|done].
  pose proof (evolves_check (Pool.mk (Pool._limit p) (Pool._waitingList p) l) r).
  by destruct (Pool._check _ r).
Qed.

Lemma evolves_remove id p r : evolves r (Pool.remove id p r).2.
Proof.
  unfold Pool.remove. pose proof (evolves_processingListRemove id p r) as H.
  destruct (Pool._processingListRemove id p r) as [[[c|] p1] r1]; [done|]. simpl in *.
  by destruct (Pool._waitingListRemove id p1).
Qed.

(** [enqueue] returns the address of a promise that the store did not hold
    before and holds afterwards. *)
Lemma evolves_enqueue u p r :
  evolves r (Pool.enqueue u p r).2 ∧
  (Pool.enqueue u p r).1.1 = length (promises r) ∧
  (length (promises r) < length (promises (Pool.enqueue u p r).2))%nat.
Proof.
  unfold Pool.enqueue.
  pose proof (evolves_new_promise r) as H1. unfold new_promise in *. simpl in H1.
  set (p1 := Pool.mk _ _ _). set (r1 := set_promises _ r) in *.
  pose proof (evolves_check p1 r1) as [H2 L2].
  destruct (Pool._check p1 r1) as [p2 r2]. simpl in *.
  split; [|split; [done|]].
  - etrans; [apply H1|]. by split.
  - unfold r1 in L2. simpl in L2. rewrite length_app in L2. simpl in L2. lia.
Qed.

Lemma evolves_run_then x data p r : evolves r (Pool.run_then x data p r).2.
Proof.
  unfold Pool.run_then. pose proof (evolves_processingListRemove (item_id x) p r) as H.
  destruct (Pool._processingListRemove (item_id x) p r) as [[c p1] r1]. simpl in *.
  etrans; [done|]. etrans; [apply evolves_settle|by apply evolves_queue_job].
Qed.

Lemma evolves_run_catch x err p r : evolves r (Pool.run_catch x err p r).2.
Proof.
  unfold Pool.run_catch. simpl.
  etrans; [apply evolves_settle|by apply evolves_queue_job].
Qed.

Lemma evolves_run_settles d o r : evolves r (run_settles d o r).
Proof.
  unfold run_settles. destruct (List.find _ _); [|done].
  destruct o; (etrans; [|by apply evolves_queue_job]); by apply evolves_fields.
Qed.

End Settling.

Section SettlingOrchestrator.
Context `{C : Collaborators}.
Import Counting Settling.

Lemma coherent_evolves s s' :
  newUploadPromiseList s' = newUploadPromiseList s →
  evolves (rt s) (rt s') → coherent s → coherent s'.
Proof.
  intros Hn [Hc Hl] [Hcon Hall]. split; [auto|]. rewrite Hn.
  eapply Forall_impl; [done|]. simpl. lia.
Qed.

Lemma coherent_onPromiseEnd s : coherent s → coherent (_onPromiseEnd s).
Proof.
  intros [Hcon Hall]. unfold _onPromiseEnd.
  destruct (newUploadPromiseList s) as [|d ds] eqn:E.
  - split; [|done]. simpl. unfold consistent in *. simpl.
    apply (consistent_new_watch _ _ _ AllFulfilled) in Hcon.
    destruct Hcon as [Hb Hr Hc Hz Ht]. split; try done.
    + intros w. rewrite tally_app. simpl. rewrite (Hc w). lia.
    + intros w. rewrite tally_app. simpl. case_bool_decide as Hw.
      * intros _. subst w. eexists. by rewrite list_lookup_middle.
      * rewrite !Nat.add_0_r. apply Ht.
  - split; [|done].
    cbn [rt set_rt set_newUploadPromiseList].
    apply consistent_register_items. unfold consistent.
    set (r1 := set_watches _ (rt s)).
    assert (watches (foldl (λ r d0, register d0 (RAll (length (watches (rt s)))) r) r1 (d :: ds))
            = watches r1) as ->.
    { generalize (d :: ds). intros l. generalize r1. clear.
      induction l as [|x l IH]; intros r; simpl; [done|].
      by rewrite IH, watches_register. }
    apply (consistent_register_alls (d :: ds) r1 (watches (rt s)) []).
    + by apply consistent_new_watch.
    + done.
Qed.

Lemma coherent_submit u s : coherent s → coherent (submit u s).
Proof.
  intros [Hcon Hall]. unfold submit.
  destruct (evolves_enqueue u (uploadPool s) (rt s)) as ([Hc Hl] & Hd & Hlt).
  destruct (Pool.enqueue u (uploadPool s) (rt s)) as [[d p] r]. simpl in *.
  split; [auto|]. simpl. apply Forall_app. split.
  - eapply Forall_impl; [done|]. simpl. lia.
  - constructor; [lia|done].
Qed.

Lemma coherent_emit e s : coherent s → coherent (trigger e s).
Proof. by apply coherent_evolves; [|apply evolves_fields]. Qed.

Lemma coherent_addFile file fileSetting s :
  coherent s → coherent (addFile file fileSetting s).2.
Proof.
  intros Hs. unfold addFile. repeat case_match; simpl; try by apply coherent_emit.
  - by apply (coherent_evolves s); [|apply evolves_fields|].
  - apply coherent_submit. by apply (coherent_evolves s); [|apply evolves_fields|].
Qed.

Lemma coherent_removeFile id s : coherent s → coherent (removeFile id s).
Proof.
  apply coherent_evolves.
  - unfold removeFile. by destruct (Pool.remove _ _ _) as [[[u|] p] r].
  - unfold removeFile. pose proof (evolves_remove id (uploadPool s) (rt s)) as H.
    destruct (Pool.remove id (uploadPool s) (rt s)) as [[[u|] p] r]; simpl in *; [|done].
    etrans; [done|]. by apply evolves_fields.
Qed.

Lemma coherent_stopFile id s : coherent s → coherent (stopFile id s).
Proof.
  apply coherent_evolves.
  - unfold stopFile. by destruct (Pool.remove _ _ _) as [[[u|] p] r].
  - unfold stopFile. pose proof (evolves_remove id (uploadPool s) (rt s)) as H.
    destruct (Pool.remove id (uploadPool s) (rt s)) as [[[u|] p] r]; simpl in *; [|done].
    etrans; [done|]. by apply evolves_fields.
Qed.

Lemma coherent_updateFileData id v s : coherent s → coherent (updateFileData id v s).
Proof.
  intros Hs. unfold updateFileData. repeat case_match; try done;
    by apply coherent_emit.
Qed.

Lemma while_coherent (body : PlvVideoUpload → option PlvVideoUpload) :
  (∀ s s', body s = Some s' → coherent s → coherent s') →
  ∀ fuel s, coherent s → coherent (while fuel body s).
Proof.
  intros Hbody. induction fuel as [|fuel IH]; intros s Hs; simpl; [done|].
  destruct (body s) as [s'|] eqn:E; [|done]. eapply IH, Hbody; done.
Qed.

Lemma coherent_stopAll isDel s : coherent s → coherent (_stopAll isDel s).
Proof.
  intros Hs. unfold _stopAll.
  apply (coherent_evolves (while (Pool.size (uploadPool s)) (_stopAll_body isDel) s));
    [done|by apply evolves_fields|].
  apply while_coherent; [|done]. clear. intros s s'.
  unfold _stopAll_body. repeat case_match; intros; simplify_eq;
    by apply (coherent_evolves s); [|apply evolves_fields|].
Qed.

Lemma coherent_startAll s : coherent s → coherent (startAll s).
Proof.
  intros Hs. unfold startAll. apply coherent_onPromiseEnd.
  apply (coherent_evolves (while (Queue.size (waitQueue s)) startAll_body s));
    [done|by apply evolves_fields|].
  apply while_coherent; [|done]. clear. intros s s'.
  unfold startAll_body. repeat case_match; intros; simplify_eq.
  - by apply (coherent_evolves s); [|apply evolves_fields|].
  - apply coherent_submit. by apply (coherent_evolves s); [|apply evolves_fields|].
Qed.

Lemma coherent_resumeFile id s : coherent s → coherent (resumeFile id s).
Proof.
  intros Hs. unfold resumeFile. destruct (Queue.remove id (waitQueue s)) as [[u|] q].
  - assert (coherent (submit u (set_waitQueue (λ _, q) s))) as H.
    { apply coherent_submit. by apply (coherent_evolves s); [|apply evolves_fields|]. }
    case_match; [by apply coherent_onPromiseEnd|done].
  - by apply (coherent_evolves s); [|apply evolves_fields|].
Qed.

Lemma coherent_enqueue_value o s :
  coherent s →
  coherent (set_newUploadPromiseList (λ l, l ++ [(enqueue_value o s).1]) (enqueue_value o s).2).
Proof.
  intros [Hcon Hall]. unfold enqueue_value. destruct o as [u|].
  - pose proof (coherent_submit u s (conj Hcon Hall)) as H. unfold submit in H.
    by destruct (Pool.enqueue u (uploadPool s) (rt s)) as [[d p] r].
  - split; simpl.
    + by apply consistent_alloc.
    + rewrite length_app. simpl. apply Forall_app. split.
      * eapply Forall_impl; [done|]. simpl. lia.
      * constructor; [lia|done].
Qed.

Lemma coherent_handleUploadStatusChange res s s' :
  _handleUploadStatusChange res s = Some s' → coherent s → coherent s'.
Proof.
  intros Hh Hs. unfold _handleUploadStatusChange in Hh.
  pose proof (coherent_enqueue_value (data_uploader (res_json res)) s Hs) as He.
  destruct (enqueue_value (data_uploader (res_json res)) s) as [d s1]. simpl in He.
  assert (coherent
            (match status (set_newUploadPromiseList (λ l, l ++ [d]) s1) with
             | NOT_STARTED => _onPromiseEnd (set_newUploadPromiseList (λ l, l ++ [d]) s1)
             | UPLOADING => set_newUploadPromiseList (λ l, l ++ [d]) s1
             end)) as Hre.
  { destruct (status _); [by apply coherent_onPromiseEnd|done]. }
  repeat case_match; simplify_eq; try done; try apply Hre;
    try (by apply (coherent_evolves s); [|apply evolves_fields|]).
Qed.

Lemma coherent_all_then s : coherent s → coherent (onPromiseEnd_all_then s).
Proof.
  intros Hs. unfold onPromiseEnd_all_then. repeat case_match.
  - by apply coherent_onPromiseEnd.
  - by apply (coherent_evolves s); [|apply evolves_fields|].
  - by apply (coherent_evolves s); [|apply evolves_fields|].
  - done.
Qed.

(** One job: it is taken from the front of the queue and run. *)
Lemma coherent_step_job j js s s' :
  jobs (rt s) = j :: js →
  step_job j (set_rt (set_jobs (λ _, js)) s) = Some s' →
  coherent s → coherent s'.
Proof.
  intros Hj Hstep [Hcon Hall].
  set (s0 := set_rt (set_jobs (λ _, js)) s) in *.
  assert ((∀ w, is_resolveElement w j = false) → coherent s0) as Hpop.
  { intros Hn. split; [|done]. unfold consistent in *. simpl.
    rewrite Hj in Hcon. by eapply consistent_pop. }
  destruct j; simpl in Hstep; simplify_eq.
  - split; [|cbn [rt set_rt newUploadPromiseList]; by rewrite length_resolveElement].
    by apply (consistent_resolveElement w (rt s) js).
  - split; [|cbn [rt set_rt newUploadPromiseList]; by rewrite length_reject].
    by apply (consistent_reject w e (rt s) js).
  - by apply coherent_all_then, Hpop.
  - by apply coherent_emit, Hpop.
  - unfold onPromiseEnd_item_then in Hstep. repeat case_match; simplify_eq;
      try (by apply Hpop). eapply coherent_handleUploadStatusChange; [done|by apply Hpop].
  - by apply coherent_emit, Hpop.
  - apply (coherent_evolves s0); [done| |by apply Hpop].
    apply (evolves_run_then item data (uploadPool s0) (rt s0)).
  - apply (coherent_evolves s0); [done| |by apply Hpop].
    apply (evolves_run_catch item err (uploadPool s0) (rt s0)).
  - apply (coherent_evolves s0); [done| |by apply Hpop].
    apply (evolves_check (uploadPool s0) (rt s0)).
  - split; [|done]. unfold consistent in *. simpl. rewrite Hj in Hcon.
    by apply consistent_pass.
Qed.

Lemma coherent_next_job s s' : next_job s = Some s' → coherent s → coherent s'.
Proof.
  unfold next_job. destruct (jobs (rt s)) as [|j js] eqn:Ej; [done|].
  intros. by eapply coherent_step_job.
Qed.

Lemma coherent_react i s : coherent s → coherent (react i s).
Proof.
  intros Hs. destruct i; simpl.
  - by apply coherent_addFile.
  - by apply coherent_removeFile.
  - by apply coherent_resumeFile.
  - by apply coherent_stopFile.
  - unfold clearAll. apply (coherent_evolves (_stopAll true s));
      [done|by apply evolves_fields|by apply coherent_stopAll].
  - by apply coherent_startAll.
  - by apply coherent_stopAll.
  - by apply coherent_updateFileData.
  - by apply (coherent_evolves s); [|apply evolves_fields|].
  - apply (coherent_evolves s); [done|apply evolves_run_settles|done].
  - apply (coherent_evolves s); [done|apply evolves_settle|done].
  - by apply (coherent_evolves s); [|apply evolves_fields|].
Qed.

Lemma coherent_constructor cfg : coherent (constructor cfg).
Proof.
  split; [|done]. unfold consistent. simpl. split; try done.
  intros w d. unfold snapshot. rewrite lookup_nil. simpl. by intros ?%elem_of_nil.
Qed.

Lemma reachable_coherent s : reachable s → coherent s.
Proof.
  induction 1 as [cfg|i s _ IH|s s' _ IH Hj].
  - apply coherent_constructor.
  - by apply coherent_react.
  - by eapply coherent_next_job.
Qed.

(** In a coherent state every promise a fulfilled aggregate was given is
    fulfilled. *)
Lemma fulfilled_aggregate r w x d :
  consistent r → watches r !! w = Some x → all_state x = AllFulfilled →
  d ∈ elements x → standing_of (promises r !! d) = IsFulfilled.
Proof.
  intros [Hb Hr Hc Hz Ht] Hw Hf Hd.
  pose proof (Hc w) as Hcw. unfold countdown, snapshot in Hcw, Hb.
  specialize (Hb w d). rewrite Hw in Hcw, Hb. simpl in *.
  rewrite (Hz w x Hw Hf) in Hcw. specialize (Hb Hd).
  assert (∀ st, standing_in st (promises r) (elements x) = 0%nat →
                standing_of (promises r !! d) ≠ st) as Hnot.
  { intros st H0 Hst. unfold standing_in in H0.
    clear -H0 Hst Hd. induction (elements x) as [|d' l IH]; [by apply elem_of_nil in Hd|].
    simpl in H0. apply elem_of_cons in Hd as [->|Hd].
    - rewrite bool_decide_eq_true_2 in H0 by done. lia.
    - apply IH; [done|]. lia. }
  pose proof (Hnot IsPending). pose proof (Hnot IsRejected).
  apply lookup_lt_is_Some_2 in Hb as [[rs|[v|e]] Hp]; rewrite Hp in *; simpl in *;
    try done; exfalso; (apply H; [lia|done]) || (apply H0; [lia|done]).
Qed.

End SettlingOrchestrator.

(** ** An aggregate whose promises are all fulfilled is fulfilled *)

Module Deciding.
Import Counting Settling.

#[export] Instance lasting_refl : Reflexive lasting.
Proof. intros r H. exact H. Qed.

#[export] Instance lasting_trans : Transitive lasting.
Proof. intros r1 r2 r3 H1 H2 H. by apply H2, H1. Qed.

Lemma lasting_fields r r' :
  promises r' = promises r → watches r' = watches r → jobs r' = jobs r → lasting r r'.
Proof. unfold lasting, decided. by intros -> -> ->. Qed.














Lemma lasting_run x r : lasting r (Pool._run x r).
Proof. by apply lasting_fields. Qed.












End Deciding.

Section DecidingOrchestrator.
Context `{C : Collaborators}.
Import Counting Settling Deciding.




Lemma lasting_emit e s : lasting (rt s) (rt (trigger e s)).
Proof. by apply lasting_fields. Qed.
















End DecidingOrchestrator.

(** ** The completion notification *)

Section Completion.
Context `{C : Collaborators}.
Import Counting Settling Pairing Deciding.

Lemma registers_trace x ds : ∀ r, trace (foldl (λ r d, register d x r) r ds) = trace r.
Proof.
  induction ds as [|d ds IH]; intros r; simpl; [done|].
  rewrite IH. unfold register. by destruct (promises r !! d) as [[|]|].
Qed.

Lemma onPromiseEnd_trace s : trace (rt (_onPromiseEnd s)) = trace (rt s).
Proof.
  unfold _onPromiseEnd. destruct (newUploadPromiseList s) as [|d ds]; [done|].
  cbn [rt set_rt set_newUploadPromiseList]. by rewrite !registers_trace.
Qed.








Lemma then_waiting w js : JAllThen w ∈ js → tally (is_then w) js ≠ 0%nat.
Proof.
  induction js as [|j js IH]; [by intros ?%elem_of_nil|].
  intros [<-|Hin]%elem_of_cons; simpl.
  - rewrite bool_decide_eq_true_2 by done. lia.
  - specialize (IH Hin). lia.
Qed.

(** An aggregate that was given a promise which is rejected by now is not
    fulfilled, and its continuation is not in the job queue. *)
Lemma rejected_aggregate s w x d :
  reachable s → watches (rt s) !! w = Some x → d ∈ elements x →
  standing_of (promises (rt s) !! d) = IsRejected →
  all_state x ≠ AllFulfilled ∧ JAllThen w ∉ jobs (rt s).
Proof.
  intros [Hcon _]%reachable_coherent Hw Hd Hrej.
  assert (all_state x ≠ AllFulfilled) as Hnf.
  { intros Hf. by rewrite (fulfilled_aggregate _ _ _ _ Hcon Hw Hf Hd) in Hrej. }
  split; [done|]. intros Hin%then_waiting.
  destruct (then_fulfilled _ _ _ Hcon w Hin) as (x' & Hx' & Hf').
  rewrite Hw in Hx'. by simplify_eq.
Qed.


End Completion.

(** ** The claims on concrete runs *)

Module Runs.
Import Sample.

(** C3 at a pool of limit 2 that takes three tasks: the run of the first
    one succeeds, and the second one is removed. *)
Lemma C3_witness :
  let s := foldl Pool.step (Pool.new 2, Runtime_init)
             [Pool.Enqueue A; Pool.Enqueue B; Pool.Enqueue (mkRef 2 "C");
              Pool.RunThen (mkItem "A" A 0) None; Pool.Remove "B"] in
  Pool._processingList s.1 = [mkItem "C" (mkRef 2 "C") 2] ∧
  (inject_Z (Z.of_nat (length (Pool._processingList s.1))) <= 2)%Q.
Proof.
  intros s. split; [reflexivity|].
  apply (PoolClaims.C3_admission_invariant 2 Runtime_init
           [Pool.Enqueue A; Pool.Enqueue B; Pool.Enqueue (mkRef 2 "C");
            Pool.RunThen (mkItem "A" A 0) None; Pool.Remove "B"]).
  vm_compute. discriminate.
Defined.

(** Why C3 asks for a limit that is not negative: [slice(0, -1)] is all but
    the last item, so a pool of limit -1 runs one of two tasks. *)
Example limit_below_zero :
  let s := foldl Pool.step (Pool.new (-1), Runtime_init) [Pool.Enqueue A; Pool.Enqueue B] in
  Pool._processingList s.1 = [mkItem "A" A 0] ∧ Pool._waitingList s.1 = [mkItem "B" B 1].
Proof. by vm_compute. Qed.



(** C5: a configured limit of one half is kept. *)
Lemma C5_counterexample :
  let limit := Pool._limit (uploadPool (plv (Some (1 # 2)))) in
  ¬ (1 <= limit ∧ limit <= 5)%Q ∧ limit ≠ 5%Q.
Proof. split; [intros [H _]; vm_compute in H; by apply H|discriminate]. Qed.

(** C6 on the second [addFile] of the same file, and on a file of a type
    that is not accepted. *)
Lemma C6_witness :
  let s := (addFile (video "A") () (plv None)).2 in
  (addFile (video "A") () s).1 = inl (Error "Uploading duplicate file") ∧
  Queue.size (fileQueue (addFile (video "A") () s).2) = 1%nat ∧
  (addFile notes () s).1 = inl (TypeError "Unacceptable file type").
Proof.
  intros s.
  destruct (C6_addFile_rejects (video "A") () s) as (Hdup & _ & _).
  destruct (C6_addFile_rejects notes () s) as (_ & Htype & _).
  destruct Hdup as [-> ->]; [by eexists|].
  destruct Htype as [-> _]; [reflexivity..|]. done.
Defined.



(** C8: a value that is not an object, for a task that is not in
    [waitQueue], raises no Error event. *)
Lemma C8_counterexample :
  let s := plv None in
  ¬ ((∀ u, ¬ editable "A" s u) →
     Exists (λ e, is_Error e = true) (trace (rt (updateFileData "A" (JsString "x") s)))).
Proof.
  intros s H. assert (∀ u, ¬ editable "A" s u) as Hno by (by intros u [? _]).
  apply H in Hno. by apply Exists_nil in Hno.
Qed.

(** C8 on a waiting task: an object changes its file data, and the same
    call after the task was started is refused. *)
Lemma C8_witness :
  let s := (addFile (video "A") () (plv None)).2 in
  fileData <$> heap (updateFileData "A" (retitle "holiday") s) !! 0%nat
    = Some ("holiday", "video/mp4") ∧
  fileData <$> heap (updateFileData "A" (retitle "holiday") (startAll s)) !! 0%nat
    = Some ("A", "video/mp4") ∧
  updateFileData "A" (JsString "holiday") s = s.
Proof.
  intros s.
  destruct (C8_updateFileData "A" (retitle "holiday") s) as (Hedit & _ & _).
  destruct (C8_updateFileData "A" (retitle "holiday") (startAll s)) as (_ & Hlocked & _).
  destruct (C8_updateFileData "A" (JsString "holiday") s) as (_ & _ & Hother).
  destruct (Hedit eq_refl A) as [-> _]; [by split|].
  destruct (Hlocked eq_refl) as [-> _]; [by intros u [? _]|].
  rewrite Hother by discriminate. done.
Defined.


(** C10 on a task that waits and on a task that runs. *)
Lemma C10_witness :
  let s := (addFile (video "A") () (plv None)).2 in
  heap (removeFile "A" s) = heap s ∧ trace (rt (removeFile "A" s)) = [] ∧
  waitQueue (removeFile "A" s) = [] ∧
  isDeleted <$> heap (removeFile "A" (startAll s)) !! 0%nat = Some true.
Proof.
  intros s.
  destruct (C10_removeFile_outside_pool "A" s) as [Hout _].
  destruct (C10_removeFile_outside_pool "A" (startAll s)) as [_ Hin].
  destruct Hout as (-> & -> & _ & -> & _); [by constructor|].
  destruct (Hin A eq_refl) as (-> & _). done.
Defined.

(** C1, on the code. In every state the orchestrator can reach, an
    aggregate that was given a promise which is rejected by now is not
    fulfilled and its continuation is not in the job queue: one failure
    ends the watch of the whole batch. So when A and B are started in one
    batch, the run of A fails and A is removed, and B then succeeds:
    exactly one Error event was emitted and every promise of the batch is
    settled, but although the pool and [waitQueue] are empty and
    [fileQueue] is not, the mode is still [UPLOADING] and no completion was
    notified. The continuation, had it run, would have reset the mode and
    notified. *)
Theorem C1_rejection_ends_the_watch :
  (∀ (C : Collaborators) (s : @PlvVideoUpload C) w x d,
     reachable s → watches (rt s) !! w = Some x → d ∈ elements x →
     standing_of (promises (rt s) !! d) = IsRejected →
     all_state x ≠ AllFulfilled ∧ JAllThen w ∉ jobs (rt s)) ∧
  (∀ (C : Collaborators) (s : @PlvVideoUpload C) e,
     tally is_Error (trace (rt (onPromiseEnd_item_catch e s))) =
     S (tally is_Error (trace (rt s)))) ∧
  ∃ s, run 20 A_fails_B_done (plv (Some 5%Q)) = Some s ∧
       tally is_Error (trace (rt s)) = 1%nat ∧
       promises (rt s) = [Done (Rejected "network");
                          Done (Fulfilled (Some (res 100 B)))] ∧
       watches (rt s) = [mkWatch [0; 1]%nat 1 AllRejected] ∧ jobs (rt s) = [] ∧
       complete s = true ∧
       status s = UPLOADING ∧ fired (rt s) = 0%nat ∧
       status (onPromiseEnd_all_then s) = NOT_STARTED ∧
       fired (rt (onPromiseEnd_all_then s)) = 1%nat.
Proof.
  split; [|split].
  - intros C s w x d. apply rejected_aggregate.
  - intros C s e. simpl. rewrite Counting.tally_app. simpl. lia.
  - eexists. split; [vm_compute; reflexivity|]. by vm_compute.
Qed.

(** C2, on the code. A is removed while it runs, which marks it deleted.
    When it then settles with status 102 it is put back into [waitQueue];
    with status 106 or 107 it is submitted to the pool and started again;
    with status 101, 104 or 105 it is left out. *)
Theorem C2_deleted_task_comes_back :
  (∃ s, run 20 (removed_then_settles 102) (plv (Some 5%Q)) = Some s ∧
        get_isDeleted s A = true ∧ waitQueue s = [A]) ∧
  (∀ code, code = 106 ∨ code = 107 →
   ∃ s, run 20 (removed_then_settles code) (plv (Some 5%Q)) = Some s ∧
        get_isDeleted s A = true ∧
        task <$> Pool._processingList (uploadPool s) = [A] ∧
        tally (λ e, bool_decide (e = Call_start A)) (trace (rt s)) = 2%nat) ∧
  (∀ code, code = 101 ∨ code = 104 ∨ code = 105 →
   ∃ s, run 20 (removed_then_settles code) (plv (Some 5%Q)) = Some s ∧
        get_isDeleted s A = true ∧ waitQueue s = [] ∧
        Pool.size (uploadPool s) = 0%nat).
Proof.
  split; [|split].
  - eexists. split; [vm_compute; reflexivity|]. by vm_compute.
  - intros code [-> | ->]; eexists; (split; [vm_compute; reflexivity|]); by vm_compute.
  - intros code [-> | [-> | ->]]; eexists; (split; [vm_compute; reflexivity|]);
      by vm_compute.
Qed.

End Runs.

(** * Further properties of the code *)

(** ** Pool: removal, admission and starts *)

Module PoolMore.
Import Pool PoolFacts PoolInvariant.

Lemma admitted_spec p :
  within_limit p →
  admitted p =
  (Z.to_nat (Qfloor (_limit p - inject_Z (Z.of_nat (length (_processingList p)))))
     `min` length (_waitingList p))%nat.
Proof.
  unfold within_limit, admitted, slice0, ToIntegerOrInfinity. intros Hlim.
  set (q := (_ - _)%Q). assert (0 <= q)%Q as Hq by (unfold q; lra).
  rewrite (proj2 (Qle_bool_iff 0 q) Hq).
  assert (0 ≤ Qfloor q)%Z as Hfloor by apply (Qfloor_resp_le 0 q Hq).
  rewrite (proj2 (Z.ltb_ge _ _) Hfloor), length_take. lia.
Qed.

Lemma check_saturated p rt : within_limit p → saturated (_check p rt).1.
Proof.
  intros Hlim. rewrite check_spec. unfold saturated. simpl.
  pose proof (admitted_spec p Hlim) as Hk.
  set (q := (_limit p - inject_Z (Z.of_nat (length (_processingList p))))%Q) in *.
  assert (0 <= q)%Q as Hq by (unfold within_limit in Hlim; unfold q; lra).
  assert (0 ≤ Qfloor q)%Z as Hfloor by apply (Qfloor_resp_le 0 q Hq).
  destruct (decide (length (_waitingList p) ≤ admitted p)%nat) as [Hall|Hsome].
  - left. by apply drop_ge.
  - right. rewrite length_app, length_take.
    assert (admitted p = Z.to_nat (Qfloor q)) as Hk' by lia.
    rewrite Nat.min_l by lia.
    rewrite Nat2Z.inj_add, inject_Z_plus, Hk', Z2Nat.id by done.
    pose proof (Qlt_floor q) as Hlt. rewrite inject_Z_plus in Hlt.
    fold q. change (inject_Z 1) with 1%Q in Hlt.
    unfold q in *. lra.
Qed.

Lemma saturated_waiting_shrinks limit w w' proc :
  w' `sublist_of` w → saturated (mk limit w proc) → saturated (mk limit w' proc).
Proof.
  unfold saturated. simpl. intros Hsub [->|Hq]; [left|by right].
  by apply sublist_nil_r.
Qed.

Lemma processingListRemove_saturated id p rt :
  well_formed p rt → saturated p → saturated (_processingListRemove id p rt).1.2.
Proof.
  intros Hwf Hsat. unfold _processingListRemove, _removeItem.
  pose proof (splice_chosen_sublist id (_processingList p)) as Hsub.
  destruct (splice_chosen id (_processingList p)) as [[c|] l] eqn:E; simpl in *.
  - pose proof (check_saturated (mk (_limit p) (_waitingList p) l) rt) as Hc.
    destruct (_check _ rt). apply Hc.
    destruct p. eapply within_limit_sublist; [done|apply Hwf].
  - apply splice_chosen_None in E as [-> _]. by destruct p.
Qed.

Lemma step_saturated s op :
  is_Dequeue op = false → well_formed s.1 s.2 → saturated s.1 → saturated (step s op).1.
Proof.
  destruct s as [p rt]. simpl. intros Hop Hwf Hsat.
  destruct op as [u|id| |x data|x err|]; simpl; [| |done| | |].
  - unfold enqueue, new_promise. simpl.
    pose proof (check_saturated (mk (_limit p) (_waitingList p ++ [mkItem (ref_id u) u (length (promises rt))]) (_processingList p))
                  (set_promises (λ ps, ps ++ [Pending []]) rt)) as Hc.
    destruct (_check _ _). apply Hc, Hwf.
  - unfold remove.
    pose proof (processingListRemove_saturated id p rt Hwf Hsat) as H1.
    destruct (_processingListRemove id p rt) as [[c p1] rt1]. simpl in H1.
    destruct c; [done|]. simpl. unfold _waitingListRemove.
    pose proof (splice_chosen_sublist id (_waitingList p1)) as Hsub.
    destruct (splice_chosen id (_waitingList p1)) as [c l]. simpl in *.
    destruct p1. by eapply saturated_waiting_shrinks.
  - unfold run_then.
    pose proof (processingListRemove_saturated (item_id x) p rt Hwf Hsat) as H1.
    by destruct (_processingListRemove (item_id x) p rt) as [[c p1] rt1].
  - done.
  - apply check_saturated, Hwf.
Qed.

Lemma run_saturated ops : ∀ s,
  Forall (λ op, is_Dequeue op = false) ops →
  well_formed s.1 s.2 → saturated s.1 → saturated (foldl step s ops).1.
Proof.
  induction ops as [|op ops IH]; intros s Hops Hwf Hsat; simpl; [done|].
  apply Forall_cons in Hops as [Hop Hops].
  apply IH; [done|by apply step_well_formed|by apply step_saturated].
Qed.

(** X2. A pool with a limit that is not negative, taken through any
    sequence of [enqueue], [remove] and run callbacks (no [dequeue], which
    makes no admission check), never leaves a task waiting while a whole
    slot is free: either [_waitingList] is empty or the number of running
    tasks is above [limit - 1] (and at most [limit]). *)
Theorem pool_never_idles (limit : Q) (rt0 : Runtime) (ops : list Op) :
  (0 <= limit)%Q →
  Forall (λ op, is_Dequeue op = false) ops →
  let p := (foldl step (new limit, rt0) ops).1 in
  _waitingList p = [] ∨
  (limit - 1 < inject_Z (Z.of_nat (length (_processingList p))) ∧
   inject_Z (Z.of_nat (length (_processingList p))) <= limit)%Q.
Proof.
  intros Hlim Hops p.
  assert (well_formed (new limit) rt0) as Hwf by by apply new_well_formed.
  pose proof (run_well_formed ops (new limit, rt0) Hwf) as (Hin & _).
  pose proof (run_saturated ops (new limit, rt0) Hops Hwf (or_introl eq_refl)) as Hsat.
  pose proof (PoolClaims.run_limit ops (new limit, rt0)) as Hl. simpl in Hl.
  fold p in Hin, Hsat, Hl. unfold saturated in Hsat. unfold within_limit in Hin.
  rewrite Hl in *. destruct Hsat as [?|?]; [by left|right]. split; [lra|done].
Qed.

(** The scan stops at the first item with the id. *)
Lemma splice_chosen_first id l1 x l2 :
  Forall (λ y, item_id y ≠ id) l1 → item_id x = id →
  splice_chosen id (l1 ++ x :: l2) = (Some x, l1 ++ l2).
Proof.
  intros Hl1 Hid. induction Hl1 as [|y l1 Hy _ IH]; simpl.
  - rewrite splice_chosen_cons, bool_decide_eq_true_2; done.
  - rewrite splice_chosen_cons, bool_decide_eq_false_2, IH; done.
Qed.

Lemma size_items p : size p = length (items p).
Proof. unfold size, items. by rewrite length_app. Qed.

(** X1. [remove(id)] takes out exactly one item, the first one with the id,
    looking through [_processingList] before [_waitingList], and returns its
    task; every other item stays (the lists are only reordered by the
    admission check that follows the removal of a running item) and [size]
    drops by one. When no item has the id it returns [null] and changes
    nothing. When the item was only waiting, nothing is admitted or started
    and [_processingList] stays as it is. *)
Theorem remove_takes_first_match (id : string) (p : t) (rt : Runtime) :
  let r := remove id p rt in
  match r.1.1 with
  | None => Forall (λ x, item_id x ≠ id) (items p) ∧ r = (None, p, rt)
  | Some u =>
      ∃ x, x ∈ items p ∧ item_id x = id ∧ task x = u ∧
           items p ≡ₚ x :: items r.1.2 ∧ size p = S (size r.1.2)
  end ∧
  (∀ l1 x l2, _processingList p = l1 ++ x :: l2 → Forall (λ y, item_id y ≠ id) l1 →
              item_id x = id → r.1.1 = Some (task x)) ∧
  (Forall (λ x, item_id x ≠ id) (_processingList p) →
   _processingList r.1.2 = _processingList p ∧ r.2 = rt ∧
   (∀ l1 x l2, _waitingList p = l1 ++ x :: l2 → Forall (λ y, item_id y ≠ id) l1 →
               item_id x = id → r.1.1 = Some (task x) ∧ _waitingList r.1.2 = l1 ++ l2)).
Proof.
  intros r. unfold r, remove, _processingListRemove, _removeItem, _waitingListRemove.
  split; [|split].
  - destruct (splice_chosen id (_processingList p)) as [[c|] l] eqn:E.
    + apply splice_chosen_Some in E as (l1 & l2 & Hp & -> & Hid & _).
      pose proof (check_items (mk (_limit p) (_waitingList p) (l1 ++ l2)) rt) as Hperm.
      destruct (_check _ rt) as [p1 rt1]. simpl in *.
      assert (items p ≡ₚ c :: items p1) as Hitems.
      { rewrite Hperm. unfold items. simpl. rewrite Hp. solve_Permutation. }
      exists c. split; [|split; [done|split; [done|split; [done|]]]].
      * unfold items. rewrite Hp. set_solver.
      * rewrite !size_items, Hitems. done.
    + apply splice_chosen_None in E as [-> Hproc]. simpl.
      destruct (splice_chosen id (_waitingList p)) as [[c|] l] eqn:E; simpl.
      * apply splice_chosen_Some in E as (l1 & l2 & Hw & -> & Hid & _).
        exists c. unfold items at 1 2. rewrite Hw. simpl.
        split; [set_solver|]. split; [done|]. split; [done|].
        split; [unfold items; simpl; solve_Permutation|].
        unfold size. simpl. rewrite Hw, !length_app. simpl. lia.
      * apply splice_chosen_None in E as [-> Hwait].
        split; [by apply Forall_app|]. by destruct p.
  - intros l1 x l2 Hp Hl1 Hid.
    rewrite Hp, (splice_chosen_first _ _ _ _ Hl1 Hid).
    by destruct (_check _ rt).
  - intros Hproc. rewrite (splice_chosen_absent _ _ Hproc). simpl.
    destruct (splice_chosen id (_waitingList p)) as [c l] eqn:E. simpl.
    split; [done|]. split; [done|].
    intros l1 x l2 Hw Hl1 Hid.
    rewrite Hw, (splice_chosen_first _ _ _ _ Hl1 Hid) in E. by simplify_eq.
Qed.

Lemma run_all_trace xs : ∀ rt,
  trace (foldl (λ r x, _run x r) rt xs) = trace rt ++ (Call_start ∘ task <$> xs).
Proof.
  induction xs as [|x xs IH]; intros rt; simpl; [by rewrite app_nil_r|].
  rewrite IH. simpl. by rewrite <- app_assoc.
Qed.

Lemma Qfloor_unit q : (0 <= q)%Q → (q < 1)%Q → Qfloor q = 0.
Proof.
  intros H0 H1. pose proof (Qfloor_resp_le 0 q H0) as Hlo.
  pose proof (Qfloor_le q) as Hhi.
  assert (inject_Z (Qfloor q) < inject_Z 1)%Q as Hlt by (change (inject_Z 1) with 1%Q; lra).
  rewrite <- Zlt_Qlt in Hlt.
  change (Qfloor 0) with 0 in Hlo. lia.
Qed.

(** X3. [enqueue(task)] returns a fresh pending promise (the next address
    of the store), queues no job, and adds exactly one item, for the task
    and that promise, to the pool. When nobody waits and a whole slot is
    free the task is started at once and ends up at the back of
    [_processingList]; when less than one slot is free nothing is started
    and the task ends up at the back of [_waitingList]. *)
Theorem enqueue_starts_or_waits (u : Ref) (p : t) (rt : Runtime) :
  let r := enqueue u p rt in
  let x := mkItem (ref_id u) u (length (promises rt)) in
  let avail := (_limit p - inject_Z (Z.of_nat (length (_processingList p))))%Q in
  r.1.1 = length (promises rt) ∧
  promises r.2 = promises rt ++ [Pending []] ∧ jobs r.2 = jobs rt ∧
  items r.1.2 ≡ₚ items p ++ [x] ∧ size r.1.2 = S (size p) ∧
  (_waitingList p = [] → (1 <= avail)%Q →
   _processingList r.1.2 = _processingList p ++ [x] ∧ _waitingList r.1.2 = [] ∧
   trace r.2 = trace rt ++ [Call_start u]) ∧
  ((0 <= avail)%Q → (avail < 1)%Q →
   _processingList r.1.2 = _processingList p ∧ _waitingList r.1.2 = _waitingList p ++ [x] ∧
   trace r.2 = trace rt).
Proof.
  intros r x avail. unfold r, enqueue, new_promise. simpl. fold x.
  set (p1 := mk (_limit p) (_waitingList p ++ [x]) (_processingList p)).
  set (rt1 := set_promises _ rt).
  pose proof (check_items p1 rt1) as Hitems.
  pose proof (check_promises p1 rt1) as [Hprom Hjobs].
  pose proof (check_spec p1 rt1) as Hspec.
  destruct (_check p1 rt1) as [p2 rt2]. simpl in *.
  assert (items p2 ≡ₚ items p ++ [x]) as Hperm.
  { rewrite Hitems. unfold items, p1. simpl. solve_Permutation. }
  split; [done|]. split; [done|]. split; [done|]. split; [done|].
  split.
  { rewrite !size_items, Hperm, length_app. simpl. apply Nat.add_1_r. }
  injection Hspec as -> ->. simpl. rewrite run_all_trace. split.
  - intros Hw Hq. unfold avail in Hq.
    assert (admitted p1 = 1%nat) as ->.
    { rewrite admitted_spec by (unfold within_limit, p1; simpl; lra).
      unfold p1. cbn [_limit _waitingList _processingList]. rewrite Hw.
      pose proof (Qfloor_resp_le 1 _ Hq) as Hf. change (Qfloor 1) with 1 in Hf.
      cbn [app length]. lia. }
    rewrite Hw. done.
  - unfold avail. intros H0 H1.
    assert (admitted p1 = 0%nat) as ->.
    { rewrite admitted_spec by (unfold within_limit, p1; simpl; lra).
      unfold p1. cbn [_limit _waitingList _processingList].
      rewrite (Qfloor_unit _ H0 H1). done. }
    rewrite take_0, drop_0, !app_nil_r. done.
Qed.

Lemma newly_filter (proc proc' new : list Item) :
  proc' ⊆ proc → Forall (λ x, x ∉ proc) new →
  filter (λ x, x ∉ proc) (proc' ++ new) = new.
Proof.
  intros Hsub Hnew. rewrite filter_app.
  assert (filter (λ x, x ∉ proc) proc' = []) as ->.
  { induction proc' as [|y l IH]; [done|].
    rewrite filter_cons_False by (intros Hy; apply Hy, Hsub; left).
    apply IH. intros z Hz. apply Hsub. by right. }
  simpl. induction Hnew as [|y l Hy _ IH]; [done|].
  by rewrite filter_cons_True, IH.
Qed.

Lemma check_trace_newly p0 p rt :
  _processingList p ⊆ _processingList p0 →
  Forall (λ x, x ∉ _processingList p0) (_waitingList p) →
  trace (_check p rt).2 =
  trace rt ++ (Call_start ∘ task <$> newly_admitted p0 (_check p rt).1).
Proof.
  intros Hsub Hnew. rewrite check_spec. unfold newly_admitted. simpl.
  rewrite run_all_trace, newly_filter; [done|done|].
  eapply Forall_submseteq_inv; [apply sublist_submseteq, sublist_take|done].
Qed.

Lemma settle_trace d o rt : trace (settle d o rt) = trace rt.
Proof. unfold settle. by destruct (promises rt !! d) as [[rs|]|]. Qed.

Lemma newly_none p0 p :
  _processingList p ⊆ _processingList p0 → newly_admitted p0 p = [].
Proof.
  intros Hsub. unfold newly_admitted.
  rewrite <- (app_nil_r (_processingList p)). by apply newly_filter.
Qed.

Lemma waiting_not_running p rt :
  well_formed p rt → Forall (λ x, x ∉ _processingList p) (_waitingList p).
Proof.
  intros Hwf. apply Forall_forall. intros x. by apply (PoolClaims.well_formed_disjoint p rt).
Qed.

Lemma processingListRemove_trace id p rt :
  well_formed p rt →
  let r := _processingListRemove id p rt in
  trace r.2 = trace rt ++ (Call_start ∘ task <$> newly_admitted p r.1.2).
Proof.
  intros Hwf. simpl. unfold _processingListRemove, _removeItem.
  pose proof (splice_chosen_sublist id (_processingList p)) as Hsub.
  destruct (splice_chosen id (_processingList p)) as [[c|] l] eqn:E; simpl in *.
  - pose proof (check_trace_newly p (mk (_limit p) (_waitingList p) l) rt) as Hc.
    destruct (_check _ rt). simpl in *. apply Hc.
    + intros x Hx. by eapply elem_of_sublist.
    + by eapply waiting_not_running.
  - rewrite newly_none, app_nil_r; [done|]. simpl. intros x Hx. by eapply elem_of_sublist.
Qed.

Lemma step_trace s op :
  well_formed s.1 s.2 →
  trace (step s op).2 =
  trace s.2 ++ (Call_start ∘ task <$> newly_admitted s.1 (step s op).1).
Proof.
  destruct s as [p rt]. simpl. intros Hwf.
  destruct op as [u|id| |x data|x err|]; simpl.
  - unfold enqueue, new_promise. simpl.
    set (y := mkItem (ref_id u) u (length (promises rt))).
    pose proof (enqueue_well_formed u p rt Hwf) as Hwf'.
    pose proof (check_trace_newly p (mk (_limit p) (_waitingList p ++ [y]) (_processingList p))
                  (set_promises (λ ps, ps ++ [Pending []]) rt)) as Hc.
    unfold enqueue, new_promise in Hwf'. simpl in Hwf'. fold y in Hwf'.
    destruct (_check _ _). simpl in *. apply Hc; [done|].
    apply Forall_app. split; [by eapply waiting_not_running|].
    apply Forall_singleton. intros Hy.
    destruct Hwf as (_ & _ & Hall). rewrite Forall_forall in Hall.
    assert (y ∈ items p) as Hin%Hall by (unfold items; set_solver).
    simpl in Hin. lia.
  - unfold remove.
    pose proof (processingListRemove_trace id p rt Hwf) as H1. simpl in H1.
    destruct (_processingListRemove id p rt) as [[c p1] rt1]. simpl in *.
    destruct c; [done|]. simpl. unfold _waitingListRemove.
    by destruct (splice_chosen id (_waitingList p1)) as [c l].
  - destruct (dequeue p) as [[u p']|] eqn:E; simpl.
    + rewrite newly_none, app_nil_r; [done|].
      unfold dequeue in E. destruct (_processingList p) as [|z l] eqn:Ep.
      * destruct (_waitingList p); simplify_eq. simpl. set_solver.
      * simplify_eq. simpl. set_solver.
    + by rewrite newly_none, app_nil_r.
  - unfold run_then.
    pose proof (processingListRemove_trace (item_id x) p rt Hwf) as H1. simpl in H1.
    destruct (_processingListRemove (item_id x) p rt) as [[c p1] rt1]. simpl in *.
    by rewrite settle_trace.
  - rewrite settle_trace. by rewrite newly_none, app_nil_r.
  - apply check_trace_newly; [done|]. by eapply waiting_not_running.
Qed.

Lemma sublist_incl {A} (l k : list A) : l `sublist_of` k → l ⊆ k.
Proof. intros Hsub x Hx. by eapply elem_of_sublist. Qed.

Lemma step_items s op :
  items (step s op).1 ⊆ items s.1 ∨
  ∃ u, op = Enqueue u ∧
       items (step s op).1 ⊆ mkItem (ref_id u) u (length (promises s.2)) :: items s.1.
Proof.
  destruct s as [p rt]. destruct op as [u|id| |y data|y err|]; simpl.
  - right. exists u. split; [done|]. unfold enqueue, new_promise. simpl.
    set (p1 := mk _ _ _). set (rt1 := set_promises _ rt).
    pose proof (check_items p1 rt1) as Hperm. destruct (_check p1 rt1). simpl in *.
    rewrite Hperm. unfold items, p1. simpl.
    intros z [[?|Hz]%elem_of_app|?]%elem_of_app;
      [right; apply elem_of_app; auto| |right; apply elem_of_app; auto].
    apply list_elem_of_singleton in Hz as ->. left.
  - left. unfold remove, _processingListRemove, _removeItem, _waitingListRemove.
    pose proof (sublist_incl _ _ (splice_chosen_sublist id (_processingList p))) as Hsub.
    destruct (splice_chosen id (_processingList p)) as [[c|] l]; simpl in *.
    + pose proof (check_items (mk (_limit p) (_waitingList p) l) rt) as Hperm.
      destruct (_check _ rt). simpl in *. rewrite Hperm. unfold items. simpl.
      intros z [?|?]%elem_of_app; apply elem_of_app; auto.
    + pose proof (sublist_incl _ _ (splice_chosen_sublist id (_waitingList p))) as Hsub'.
      destruct (splice_chosen id (_waitingList p)) as [c l']. unfold items. simpl in *.
      intros z [?|?]%elem_of_app; apply elem_of_app; auto.
  - left. destruct (dequeue p) as [[u p']|] eqn:E; simpl; [|done].
    unfold dequeue in E. unfold items. destruct (_processingList p) as [|z l] eqn:Ep.
    + destruct (_waitingList p) as [|z l]; simplify_eq. simpl. rewrite !app_nil_r.
      intros x Hx. by right.
    + simplify_eq. simpl. intros x [?|?]%elem_of_app; apply elem_of_app; auto.
      right. by right.
  - left. unfold run_then, _processingListRemove, _removeItem.
    pose proof (sublist_incl _ _ (splice_chosen_sublist (item_id y) (_processingList p))) as Hsub.
    destruct (splice_chosen (item_id y) (_processingList p)) as [[c|] l]; simpl in *.
    + pose proof (check_items (mk (_limit p) (_waitingList p) l) rt) as Hperm.
      destruct (_check _ rt). simpl in *. rewrite Hperm. unfold items. simpl.
      intros z [?|?]%elem_of_app; apply elem_of_app; auto.
    + unfold items. simpl. intros z [?|?]%elem_of_app; apply elem_of_app; auto.
  - by left.
  - left. unfold run_finally. by rewrite check_items.
Qed.

(** X4. On a pool with a limit that is not negative, every operation starts
    exactly the tasks of the items it brings into [_processingList], in the
    order in which they stand there, and calls nothing else. Such an item
    was waiting before, or is the one the operation enqueues. *)
Theorem started_exactly_when_admitted (limit : Q) (rt0 : Runtime) (ops : list Op) (op : Op) :
  (0 <= limit)%Q →
  let s := foldl step (new limit, rt0) ops in
  let s' := step s op in
  trace (s'.2) = trace (s.2) ++ (Call_start ∘ task <$> newly_admitted (s.1) (s'.1)) ∧
  (∀ x, x ∈ newly_admitted (s.1) (s'.1) →
        x ∈ _processingList (s'.1) ∧ (x ∉ _processingList (s.1)) ∧
        (x ∈ _waitingList (s.1) ∨ op = Enqueue (task x))).
Proof.
  intros Hlim s s'.
  assert (well_formed s.1 s.2) as Hwf.
  { apply run_well_formed. simpl. by apply new_well_formed. }
  split; [by apply step_trace|].
  intros x [Hnot Hin]%list_elem_of_filter. split; [done|]. split; [done|].
  assert (x ∈ items s'.1) as Hx by (apply elem_of_app; by right).
  destruct (step_items s op) as [Hsub|(u & -> & Hsub)].
  - left. apply Hsub, elem_of_app in Hx as [?|?]; done.
  - apply Hsub, elem_of_cons in Hx as [->|Hx]; [by right|].
    left. apply elem_of_app in Hx as [?|?]; done.
Qed.

End PoolMore.

Module PoolOrder.
Import Pool PoolFacts PoolInvariant PoolMore.

Lemma started_app t t' : started (t ++ t') = started t ++ started t'.
Proof. apply omap_app. Qed.

Lemma started_starts (xs : list Item) : started (Call_start ∘ task <$> xs) = task <$> xs.
Proof. induction xs as [|x xs IH]; [done|]. rewrite !fmap_cons. simpl. by f_equal. Qed.

(** The tasks started so far (since [base]) followed by the waiting ones. *)
Lemma check_order p rt base l :
  started (trace rt) = base ++ l →
  ∃ l', started (trace (_check p rt).2) = base ++ l' ∧
        l' ++ (task <$> _waitingList (_check p rt).1) = l ++ (task <$> _waitingList p).
Proof.
  intros Hl. rewrite check_spec. simpl. rewrite run_all_trace, started_app, started_starts, Hl.
  exists (l ++ (task <$> take (admitted p) (_waitingList p))).
  split; [by rewrite app_assoc|].
  by rewrite <- app_assoc, <- fmap_app, take_drop.
Qed.

Lemma step_order s op base E :
  (∃ l, started (trace s.2) = base ++ l ∧
        l ++ (task <$> _waitingList s.1) `sublist_of` E) →
  ∃ l, started (trace (step s op).2) = base ++ l ∧
       l ++ (task <$> _waitingList (step s op).1) `sublist_of` E ++ enqueued [op].
Proof.
  destruct s as [p rt]. simpl. intros (l & Hl & Hsub).
  assert (∀ p1, _waitingList p1 `sublist_of` _waitingList p →
            l ++ (task <$> _waitingList p1) `sublist_of` E) as Hshrink.
  { intros p1 Hp1. etrans; [|done]. apply sublist_app; [done|]. by apply fmap_sublist. }
  destruct op as [u|id| |x data|x err|]; simpl; rewrite ?app_nil_r.
  - unfold enqueue, new_promise. simpl.
    set (p1 := mk _ _ _). set (rt1 := set_promises _ rt).
    destruct (check_order p1 rt1 base l Hl) as (l' & Hl' & Heq).
    destruct (_check p1 rt1) as [p2 rt2]. simpl in *.
    exists l'. split; [done|]. rewrite Heq, fmap_app, app_assoc.
    by apply sublist_app.
  - unfold remove, _processingListRemove, _removeItem, _waitingListRemove.
    destruct (splice_chosen id (_processingList p)) as [[c|] lp]; simpl.
    + set (p1 := mk _ _ lp).
      destruct (check_order p1 rt base l Hl) as (l' & Hl' & Heq).
      destruct (_check p1 rt) as [p2 rt2]. simpl in *.
      exists l'. split; [done|]. by rewrite Heq.
    + pose proof (splice_chosen_sublist id (_waitingList p)) as Hw.
      destruct (splice_chosen id (_waitingList p)) as [c lw]. simpl in *.
      exists l. split; [done|]. by apply (Hshrink (mk (_limit p) lw lp)).
  - exists l. destruct (dequeue p) as [[u p']|] eqn:E'; simpl; [|done].
    split; [done|]. apply Hshrink. unfold dequeue in E'.
    destruct (_processingList p) as [|z lp]; [destruct (_waitingList p) as [|z lw]|];
      simplify_eq; simpl; [by apply sublist_cons|done].
  - unfold run_then, _processingListRemove, _removeItem.
    destruct (splice_chosen (item_id x) (_processingList p)) as [[c|] lp]; simpl.
    + set (p1 := mk _ _ lp).
      destruct (check_order p1 rt base l Hl) as (l' & Hl' & Heq).
      destruct (_check p1 rt) as [p2 rt2]. simpl in *.
      exists l'. rewrite settle_trace. split; [done|]. by rewrite Heq.
    + exists l. rewrite settle_trace. done.
  - exists l. rewrite settle_trace. done.
  - unfold run_finally. destruct (check_order p rt base l Hl) as (l' & Hl' & Heq).
    exists l'. split; [done|]. by rewrite Heq.
Qed.

Lemma run_order ops : ∀ s base E,
  (∃ l, started (trace s.2) = base ++ l ∧
        l ++ (task <$> _waitingList s.1) `sublist_of` E) →
  ∃ l, started (trace (foldl step s ops).2) = base ++ l ∧
       l ++ (task <$> _waitingList (foldl step s ops).1) `sublist_of` E ++ enqueued ops.
Proof.
  induction ops as [|op ops IH]; intros s base E Hs; cbn [foldl].
  - by rewrite app_nil_r.
  - assert (enqueued (op :: ops) = enqueued [op] ++ enqueued ops) as ->
      by apply (omap_app _ [op] ops).
    rewrite app_assoc. apply IH. by apply step_order.
Qed.

(** X23. Tasks are started in the order in which they were enqueued. For a
    pool taken through any sequence of operations, the tasks started since
    the beginning, followed by the tasks that still wait, are a subsequence
    of the tasks that were enqueued: a task is passed over only when it is
    removed or dequeued while it waits. *)
Theorem started_in_enqueue_order (limit : Q) (rt0 : Runtime) (ops : list Op) :
  let s := foldl step (new limit, rt0) ops in
  ∃ l, started (trace (s.2)) = started (trace rt0) ++ l ∧
       l ++ (task <$> _waitingList (s.1)) `sublist_of` enqueued ops.
Proof.
  simpl. apply (run_order ops (new limit, rt0) (started (trace rt0)) []).
  exists []. by rewrite app_nil_r.
Qed.

End PoolOrder.

(** ** Queue and the shape of a submission *)

Module QueueFacts.

Lemma queue_find_app id q u :
  Queue.find id (q ++ [u]) =
  match Queue.find id q with
  | Some x => Some x
  | None => if bool_decide (ref_id u = id) then Some u else None
  end.
Proof.
  induction q as [|x q IH]; simpl; [done|].
  destruct (bool_decide (ref_id x = id)); [done|apply IH].
Qed.

Lemma queue_find_None id q : Queue.find id q = None ↔ Forall (λ x, ref_id x ≠ id) q.
Proof.
  induction q as [|x q IH]; simpl; [by split; [constructor|]|].
  case_bool_decide as Hx.
  - split; [done|]. by intros [? _]%Forall_cons.
  - rewrite IH. split; [by constructor|by intros [_ ?]%Forall_cons].
Qed.

Lemma queue_remove_absent id q : Queue.find id q = None → Queue.remove id q = (None, q).
Proof.
  induction q as [|x q IH]; simpl; [done|]. case_bool_decide; [done|].
  intros Hq. by rewrite (IH Hq).
Qed.

Lemma queue_remove_find id q : (Queue.remove id q).1 = Queue.find id q.
Proof.
  induction q as [|x q IH]; simpl; [done|]. case_bool_decide; [done|].
  by destruct (Queue.remove id q).
Qed.

Lemma queue_remove_Some id q u q' :
  Queue.remove id q = (Some u, q') →
  ∃ q1 q2, q = q1 ++ u :: q2 ∧ q' = q1 ++ q2 ∧ ref_id u = id ∧
           Forall (λ x, ref_id x ≠ id) q1.
Proof.
  revert q'. induction q as [|x q IH]; intros q'; simpl; [done|].
  case_bool_decide as Hx.
  - intros [= <- <-]. by exists [], q.
  - destruct (Queue.remove id q) as [r q''] eqn:E. intros [= -> <-].
    destruct (IH _ eq_refl) as (q1 & q2 & -> & -> & Hid & Hall).
    exists (x :: q1), q2. repeat split; auto.
Qed.

End QueueFacts.

Module PoolShape.
Import Pool PoolFacts PoolInvariant PoolMore.

Lemma run_all_watches xs : ∀ rt,
  watches (foldl (λ r x, _run x r) rt xs) = watches rt.
Proof. induction xs as [|x xs IH]; intros rt; simpl; [done|]. by rewrite IH. Qed.

(** What [enqueue] does to the promise store and the trace. *)
Lemma enqueue_shape u p rt :
  let r := enqueue u p rt in
  r.1.1 = length (promises rt) ∧ promises r.2 = promises rt ++ [Pending []] ∧
  jobs r.2 = jobs rt ∧ watches r.2 = watches rt ∧ size r.1.2 = S (size p) ∧
  _limit r.1.2 = _limit p ∧
  ∃ xs, trace r.2 = trace rt ++ (Call_start ∘ task <$> xs).
Proof.
  simpl. unfold enqueue, new_promise. simpl.
  set (p1 := mk _ _ _). set (rt1 := set_promises _ rt).
  pose proof (check_items p1 rt1) as Hitems.
  pose proof (check_promises p1 rt1) as [Hprom Hjobs].
  pose proof (check_spec p1 rt1) as Hspec.
  destruct (_check p1 rt1) as [p2 rt2]. simpl in *.
  split; [done|]. split; [done|]. split; [done|].
  assert (size p2 = S (size p)) as Hsize.
  { rewrite !size_items, Hitems. unfold items, p1. simpl.
    rewrite !length_app. simpl. lia. }
  injection Hspec as -> ->. split; [by rewrite run_all_watches|].
  split; [done|]. split; [done|]. eexists. by rewrite run_all_trace.
Qed.

Lemma enqueue_items u p rt :
  items (enqueue u p rt).1.2 ≡ₚ items p ++ [mkItem (ref_id u) u (length (promises rt))].
Proof.
  unfold enqueue, new_promise. simpl.
  set (p1 := mk _ _ _). set (rt1 := set_promises _ rt).
  pose proof (check_items p1 rt1) as Hitems.
  destruct (_check p1 rt1) as [p2 rt2]. simpl in *.
  rewrite Hitems. unfold items, p1. simpl. solve_Permutation.
Qed.

End PoolShape.

Section OrchestratorMore.
Context `{C : Collaborators}.
Import PoolFacts QueueFacts PoolShape.

Lemma tally_starts (f : Effect → bool) (l : list Effect) (xs : list Item) :
  (∀ u, f (Call_start u) = false) →
  tally f (l ++ (Call_start ∘ task <$> xs)) = tally f l.
Proof.
  intros Hf. rewrite Counting.tally_app.
  assert (tally f (Call_start ∘ task <$> xs) = 0%nat) as Hz; [|rewrite Hz; lia].
  induction xs as [|x xs IH]; [done|].
  rewrite fmap_cons. cbn [tally]. rewrite IH. simpl. by rewrite Hf.
Qed.

(** X5. [addFile] with a file whose id is new and whose type is accepted
    returns a new task with that id, appends it to [fileQueue], and emits no
    Error event. While nothing is started ([NOT_STARTED]) the task is
    appended to [waitQueue] and pool and promises stay untouched; while
    uploading it is submitted to the pool instead: [waitQueue] stays, the
    pool grows by one and the new pending promise joins the buffer of
    promises not yet watched. *)
Theorem addFile_accepts (file : File) (fileSetting : FileSetting) (s : PlvVideoUpload) :
  let fd := generateFileData file fileSetting (userData s) in
  let uploader := mkRef (length (heap s)) (fileData_id fd) in
  let r := addFile file fileSetting s in
  Queue.find (fileData_id fd) (fileQueue s) = None →
  isContainFileMimeType file (acceptedMimeType (config s)) = true →
  r.1 = inr uploader ∧
  fileQueue (r.2) = fileQueue s ++ [uploader] ∧
  heap (r.2) = heap s ++ [mkUploadManager initialStatusCode false fd] ∧
  status (r.2) = status s ∧ userData (r.2) = userData s ∧
  tally is_Error (trace (rt (r.2))) = tally is_Error (trace (rt s)) ∧
  match status s with
  | NOT_STARTED =>
      waitQueue (r.2) = waitQueue s ++ [uploader] ∧ uploadPool (r.2) = uploadPool s ∧
      newUploadPromiseList (r.2) = newUploadPromiseList s ∧ rt (r.2) = rt s
  | UPLOADING =>
      waitQueue (r.2) = waitQueue s ∧
      Pool.size (uploadPool (r.2)) = S (Pool.size (uploadPool s)) ∧
      newUploadPromiseList (r.2) = newUploadPromiseList s ++ [length (promises (rt s))] ∧
      promises (rt (r.2)) = promises (rt s) ++ [Pending []]
  end.
Proof.
  intros fd uploader r Hnew Htype. unfold r, addFile. fold fd.
  rewrite Hnew, bool_decide_eq_false_2 by (by intros [? ?]).
  rewrite Htype. simpl. fold uploader.
  destruct (status s) eqn:Est; simpl.
  - by repeat split.
  - unfold submit. simpl.
    pose proof (enqueue_shape uploader (uploadPool s) (rt s))
      as (Hd & Hprom & _ & _ & Hsize & _ & xs & Htrace).
    destruct (Pool.enqueue uploader (uploadPool s) (rt s)) as [[d p] r']. simpl in *.
    rewrite Htrace, tally_starts by done. subst d. by repeat split.
Qed.

Lemma submit_frame u s :
  fileQueue (submit u s) = fileQueue s ∧ waitQueue (submit u s) = waitQueue s ∧
  heap (submit u s) = heap s ∧ status (submit u s) = status s ∧
  userData (submit u s) = userData s ∧ config (submit u s) = config s.
Proof. unfold submit. by destruct (Pool.enqueue _ _ _) as [[? ?] ?]. Qed.

Lemma addFile_userData file fileSetting s :
  userData (addFile file fileSetting s).2 = userData s.
Proof.
  unfold addFile. case_bool_decide; [done|].
  destruct (isContainFileMimeType _ _); simpl; [|done].
  destruct (status s); simpl; [done|]. by rewrite (proj1 (proj2 (proj2 (proj2 (proj2 (submit_frame _ _)))))).
Qed.

Lemma addFile_config file fileSetting s :
  config (addFile file fileSetting s).2 = config s.
Proof.
  unfold addFile. case_bool_decide; [done|].
  destruct (isContainFileMimeType _ _); simpl; [|done].
  destruct (status s); simpl; [done|]. by rewrite (proj2 (proj2 (proj2 (proj2 (proj2 (submit_frame _ _)))))).
Qed.

(** X6. Adding the same file (same setting, unchanged user data) a second
    time is always refused with code 110 when its type is accepted, whatever
    the first call did, and [fileQueue] stays as the first call left it. *)
Theorem addFile_twice (file : File) (fileSetting : FileSetting) (s : PlvVideoUpload) :
  isContainFileMimeType file (acceptedMimeType (config s)) = true →
  let s1 := (addFile file fileSetting s).2 in
  let fd := generateFileData file fileSetting (userData s) in
  (addFile file fileSetting s1).1 = inl (Error "Uploading duplicate file") ∧
  (addFile file fileSetting s1).2 =
    _emitError (ErrObject 110 "文件重复" (fileData_title fd)) s1 ∧
  fileQueue (addFile file fileSetting s1).2 = fileQueue s1.
Proof.
  intros Htype s1 fd.
  assert (is_Some (Queue.find (fileData_id fd) (fileQueue s1))) as Hin.
  { unfold s1, addFile. fold fd. case_bool_decide as Hdup; [done|].
    rewrite Htype. simpl.
    assert (is_Some (Queue.find (fileData_id fd)
              (fileQueue s ++ [mkRef (length (heap s)) (fileData_id fd)]))) as Hfind.
    { rewrite queue_find_app. destruct (Queue.find _ (fileQueue s)); [done|].
      simpl. by rewrite bool_decide_eq_true_2. }
    destruct (status s); simpl; [done|]. by rewrite (proj1 (submit_frame _ _)). }
  assert (userData s1 = userData s) as Hud by apply addFile_userData.
  unfold addFile. rewrite Hud. fold fd. by rewrite bool_decide_eq_true_2.
Qed.

Lemma remove_None id p r :
  (Pool.remove id p r).1.1 = None → Pool.remove id p r = (None, p, r).
Proof.
  intros Hr. apply remove_absent. revert Hr.
  unfold Pool.remove, Pool._processingListRemove, Pool._removeItem, Pool._waitingListRemove.
  destruct (Pool.splice_chosen id (Pool._processingList p)) as [[c|] l] eqn:Ep; simpl.
  - by destruct (Pool._check _ r).
  - destruct (Pool.splice_chosen id (Pool._waitingList p)) as [[c|] l'] eqn:Ew; simpl; [done|].
    intros _. apply splice_chosen_None in Ep as [_ Hp], Ew as [_ Hw].
    by apply Forall_app.
Qed.

Lemma isDeleted_alter (f : UploadManager → UploadManager) a (h : list UploadManager) i :
  (∀ o, isDeleted (f o) = isDeleted o) →
  from_option isDeleted false (alter f a h !! i) = from_option isDeleted false (h !! i).
Proof.
  intros Hf. destruct (decide (a = i)) as [->|Hne].
  - rewrite list_lookup_alter_eq. destruct (h !! i); simpl; [apply Hf|done].
  - by rewrite list_lookup_alter_ne.
Qed.

(** X7. [stopFile(id)] does nothing at all when the pool has no item with
    the id. Otherwise it takes the task out of the pool, calls [_stop] on
    it once (after the admission check that refilled the slot), and appends
    it to the BACK of [waitQueue]; it neither marks the task deleted nor
    touches [fileQueue], the mode or the buffer of promises. *)
Theorem stopFile_moves_to_back (id : string) (s : PlvVideoUpload) :
  let r := Pool.remove id (uploadPool s) (rt s) in
  let s' := stopFile id s in
  match r.1.1 with
  | None => s' = s
  | Some u =>
      waitQueue s' = waitQueue s ++ [u] ∧ uploadPool s' = r.1.2 ∧
      trace (rt s') = trace (r.2) ++ [Call_stop u] ∧
      heap s' = alter (λ o, mkUploadManager (UploadManager_stop (statusCode o))
                              (isDeleted o) (fileData o)) (addr u) (heap s) ∧
      (∀ v, get_isDeleted s' v = get_isDeleted s v) ∧
      fileQueue s' = fileQueue s ∧ status s' = status s ∧
      newUploadPromiseList s' = newUploadPromiseList s
  end.
Proof.
  intros r s'. unfold s', stopFile. fold r.
  destruct (r.1.1) as [u|] eqn:Er.
  - destruct r as [[o p] r']. simpl in *. subst o. simpl.
    repeat split. intros v. unfold get_isDeleted. simpl. by apply isDeleted_alter.
  - unfold r in *. rewrite (remove_None _ _ _ Er). by destruct s.
Qed.

Lemma onPromiseEnd_shape s :
  let l := newUploadPromiseList s in
  let s' := _onPromiseEnd s in
  newUploadPromiseList s' = [] ∧
  watches (rt s') = watches (rt s) ++
    [mkWatch l (length l) (match l with [] => AllFulfilled | _ => AllPending end)] ∧
  length (promises (rt s')) = length (promises (rt s)) ∧
  status s' = status s ∧ waitQueue s' = waitQueue s ∧ fileQueue s' = fileQueue s ∧
  uploadPool s' = uploadPool s ∧ heap s' = heap s ∧ userData s' = userData s.
Proof.
  simpl. unfold _onPromiseEnd. simpl.
  set (l := newUploadPromiseList s). set (w := length (watches (rt s))).
  assert (∀ x ds r, watches (foldl (λ r d, register d x r) r ds) = watches r ∧
                    length (promises (foldl (λ r d, register d x r) r ds)) = length (promises r))
    as Hreg.
  { intros x ds. induction ds as [|d ds IH]; intros r; simpl; [done|].
    destruct (IH (register d x r)) as [-> ->].
    by rewrite Settling.watches_register, Settling.length_register. }
  destruct l as [|d l]; simpl; [done|].
  destruct (Hreg RItem l (register d RItem (foldl (λ r d0, register d0 (RAll w) r)
             (register d (RAll w) (set_watches (λ ws, ws ++ [mkWatch (d :: l) (S (length l)) AllPending]) (rt s))) l)))
    as [-> ->].
  rewrite Settling.watches_register, Settling.length_register.
  destruct (Hreg (RAll w) l (register d (RAll w) (set_watches (λ ws, ws ++ [mkWatch (d :: l) (S (length l)) AllPending]) (rt s))))
    as [-> ->].
  rewrite Settling.watches_register, Settling.length_register. done.
Qed.

(** X8. [resumeFile(id)] does nothing at all when [waitQueue] has no task
    with the id. Otherwise the first such task leaves [waitQueue] and is
    submitted to the pool with a fresh promise. The mode is never changed:
    while [NOT_STARTED] the buffer (with the new promise) is handed to a new
    aggregate at once and emptied; while [UPLOADING] the promise only joins
    the buffer. *)
Theorem resumeFile_submits (id : string) (s : PlvVideoUpload) :
  let s' := resumeFile id s in
  let d := length (promises (rt s)) in
  match Queue.find id (waitQueue s) with
  | None => s' = s
  | Some u =>
      (∃ q1 q2, waitQueue s = q1 ++ u :: q2 ∧ Forall (λ x, ref_id x ≠ id) q1 ∧
                waitQueue s' = q1 ++ q2) ∧
      status s' = status s ∧ fileQueue s' = fileQueue s ∧ heap s' = heap s ∧
      Pool.size (uploadPool s') = S (Pool.size (uploadPool s)) ∧
      length (promises (rt s')) = S d ∧
      match status s with
      | NOT_STARTED =>
          newUploadPromiseList s' = [] ∧
          watches (rt s') = watches (rt s) ++
            [mkWatch (newUploadPromiseList s ++ [d])
                     (length (newUploadPromiseList s ++ [d])) AllPending]
      | UPLOADING =>
          newUploadPromiseList s' = newUploadPromiseList s ++ [d] ∧
          watches (rt s') = watches (rt s)
      end
  end.
Proof.
  intros s' d. unfold s', resumeFile.
  pose proof (queue_remove_find id (waitQueue s)) as Hfind.
  destruct (Queue.find id (waitQueue s)) as [u|] eqn:Ef.
  - destruct (Queue.remove id (waitQueue s)) as [o q] eqn:Er. simpl in Hfind. subst o.
    apply queue_remove_Some in Er as (q1 & q2 & Hq & -> & _ & Hq1).
    set (s1 := set_waitQueue _ s).
    pose proof (enqueue_shape u (uploadPool s1) (rt s1))
      as (Hd & Hprom & _ & Hw & Hsize & _).
    assert (status (submit u s1) = status s ∧ fileQueue (submit u s1) = fileQueue s ∧
            heap (submit u s1) = heap s ∧ waitQueue (submit u s1) = q1 ++ q2 ∧
            Pool.size (uploadPool (submit u s1)) = S (Pool.size (uploadPool s)) ∧
            promises (rt (submit u s1)) = promises (rt s) ++ [Pending []] ∧
            newUploadPromiseList (submit u s1) = newUploadPromiseList s ++ [d] ∧
            watches (rt (submit u s1)) = watches (rt s)) as (Hst & Hfq & Hh & Hwq & Hsz & Hpr & Hnew & Hws).
    { unfold submit. destruct (Pool.enqueue u (uploadPool s1) (rt s1)) as [[d' p] r].
      simpl in *. subst d'. by repeat split. }
    rewrite Hst. destruct (status s) eqn:Est.
    + pose proof (onPromiseEnd_shape (submit u s1))
        as (Hn' & Hw' & Hl' & Hst' & Hwq' & Hfq' & Hp' & Hh' & _).
      simpl in *. rewrite Hst', Hfq', Hh', Hp', Hwq', Hl', Hw', Hn', Hnew, Hws, Hpr.
      split; [by exists q1, q2|]. repeat split; try done.
      * rewrite length_app. simpl. unfold d. lia.
      * by destruct (newUploadPromiseList s).
    + split; [exists q1, q2; by rewrite Hwq|]. repeat split; try done.
      rewrite Hpr, length_app. simpl. unfold d. lia.
  - rewrite queue_remove_absent by done. by destruct s.
Qed.

Lemma filter_ext_in {A} (P Q : A → Prop) `{∀ x, Decision (P x)} `{∀ x, Decision (Q x)} l :
  Forall (λ x, P x ↔ Q x) l → filter P l = filter Q l.
Proof.
  induction 1 as [|x l Hx _ IH]; [done|].
  rewrite !filter_cons, IH.
  destruct (decide (P x)) as [HP|HP], (decide (Q x)) as [HQ|HQ]; try done.
  - by apply Hx in HP.
  - by apply Hx in HQ.
Qed.

Lemma dequeue_tasks p :
  match pool_tasks p with
  | [] => Pool.size p = 0%nat ∧ p = Pool.mk (Pool._limit p) [] []
  | u :: ts => ∃ p', Pool.dequeue p = Some (u, p') ∧ pool_tasks p' = ts ∧
                     Pool.size p = S (Pool.size p') ∧ Pool._limit p' = Pool._limit p
  end.
Proof.
  unfold pool_tasks, Pool.dequeue, Pool.size. destruct p as [limit w proc]. simpl.
  destruct proc as [|x proc]; simpl.
  - destruct w as [|x w]; simpl; [done|]. eexists. by repeat split.
  - eexists. repeat split. simpl. lia.
Qed.

Lemma emits_trace (ts : list Ref) : ∀ r,
  trace (foldl (λ r u, emit (Call_stop u) r) r ts) = trace r ++ (Call_stop <$> ts) ∧
  promises (foldl (λ r u, emit (Call_stop u) r) r ts) = promises r ∧
  jobs (foldl (λ r u, emit (Call_stop u) r) r ts) = jobs r ∧
  watches (foldl (λ r u, emit (Call_stop u) r) r ts) = watches r.
Proof.
  induction ts as [|u ts IH]; intros r; simpl; [by rewrite app_nil_r|].
  destruct (IH (emit (Call_stop u) r)) as (-> & -> & -> & ->). simpl.
  by rewrite <- app_assoc.
Qed.

Lemma stopAll_loop b (ts : list Ref) : ∀ n s,
  pool_tasks (uploadPool s) = ts → (length ts ≤ n)%nat →
  let s' := while n (_stopAll_body b) s in
  uploadPool s' = Pool.mk (Pool._limit (uploadPool s)) [] [] ∧
  rt s' = foldl (λ r u, emit (Call_stop u) r) (rt s) ts ∧
  fileQueue s' = fileQueue s ∧ status s' = status s ∧
  newUploadPromiseList s' = newUploadPromiseList s ∧ userData s' = userData s ∧
  config s' = config s ∧ length (heap s') = length (heap s) ∧
  (∃ l, waitQueue s' = waitQueue s ++ l ∧ l `sublist_of` ts) ∧
  (NoDup (addr <$> ts) →
   waitQueue s' = waitQueue s ++
     filter (λ u, UploadManager_stop <$> get_statusCode s u = Some 1) ts) ∧
  (∀ i, from_option isDeleted false (heap s' !! i) =
        from_option isDeleted false (heap s !! i) ||
        (b && bool_decide (i ∈ addr <$> ts) && bool_decide (i < length (heap s))%nat)).
Proof.
  induction ts as [|u ts IH]; intros n s Hts Hn.
  - pose proof (dequeue_tasks (uploadPool s)) as Hdq. rewrite Hts in Hdq.
    destruct Hdq as [Hsize Hpool].
    assert (_stopAll_body b s = None) as Hbody.
    { unfold _stopAll_body. rewrite bool_decide_eq_false_2; [done|lia]. }
    assert (while n (_stopAll_body b) s = s) as ->.
    { destruct n; simpl; [done|]. by rewrite Hbody. }
    simpl. split; [done|]. repeat split; try done.
    + exists []. by rewrite app_nil_r.
    + by rewrite app_nil_r.
    + intros i. by rewrite andb_false_r, orb_false_r.
  - pose proof (dequeue_tasks (uploadPool s)) as Hdq. rewrite Hts in Hdq.
    destruct Hdq as (p' & Hdq & Hts' & Hsize & Hlim).
    destruct n as [|n]; [simpl in Hn; lia|].
    set (s1 := set_pool (p', rt s) s).
    set (s2 := if b then mark_deleted u s1 else s1).
    set (s3 := _stop u s2).
    set (s4 := if bool_decide (get_statusCode s3 u = Some 1)
               then set_waitQueue (Queue.enqueue u) s3 else s3).
    assert (_stopAll_body b s = Some s4) as Hbody.
    { unfold _stopAll_body. rewrite bool_decide_eq_true_2 by lia. by rewrite Hdq. }
    cbn [while]. rewrite Hbody.
    assert (uploadPool s4 = p' ∧ rt s4 = emit (Call_stop u) (rt s) ∧
            fileQueue s4 = fileQueue s ∧ status s4 = status s ∧
            newUploadPromiseList s4 = newUploadPromiseList s ∧ userData s4 = userData s ∧
            config s4 = config s ∧ heap s4 = heap s3)
      as (Hp4 & Hr4 & Hf4 & Hst4 & Hn4 & Hu4 & Hc4 & Hh4).
    { unfold s4, s3, s2, s1. by destruct b, (bool_decide _). }
    assert (heap s3 = alter (λ o, mkUploadManager (UploadManager_stop (statusCode o))
                                    (isDeleted o || b) (fileData o)) (addr u) (heap s)) as Hh3.
    { unfold s3, s2, s1. destruct b; simpl.
      - rewrite list_alter_alter_eq. apply list_alter_ext; [|done].
        intros o _. simpl. by rewrite orb_true_r.
      - apply list_alter_ext; [|done]. intros o _. simpl. by rewrite orb_false_r. }
    assert (get_statusCode s3 u = UploadManager_stop <$> get_statusCode s u) as Hcode.
    { unfold get_statusCode. rewrite Hh3, list_lookup_alter_eq.
      by destruct (heap s !! addr u). }
    assert (waitQueue s4 = waitQueue s ++
              filter (λ v, UploadManager_stop <$> get_statusCode s v = Some 1) [u]) as Hw4.
    { unfold s4. rewrite Hcode. rewrite filter_cons, filter_nil.
      case_bool_decide as Hb; destruct (decide _) as [Hd|Hd]; try done.
      - unfold s3, s2, s1. by destruct b.
      - unfold s3, s2, s1. rewrite app_nil_r. by destruct b. }
    destruct (IH n s4) as (Hp & Hr & Hf & Hst & Hnew & Hu & Hc & Hh & (l & Hl & Hsub) & Hexact & Hdel).
    { by rewrite Hp4. }
    { simpl in Hn. lia. }
    cbv zeta. rewrite Hp, Hr, Hf, Hst, Hnew, Hu, Hc, Hh, Hp4, Hr4, Hf4, Hst4, Hn4, Hu4, Hc4, Hh4, Hh3, Hlim.
    rewrite length_alter. repeat split; try done.
    + rewrite Hl, Hw4, <- app_assoc. eexists. split; [done|].
      rewrite filter_cons, filter_nil. destruct (decide _); simpl.
      * by apply sublist_skip.
      * by apply sublist_cons.
    + intros [Hu_notin Hnd]%NoDup_cons. rewrite (Hexact Hnd), Hw4, <- app_assoc.
      f_equal. rewrite (filter_cons _ u ts). rewrite filter_cons, filter_nil.
      assert (filter (λ v, UploadManager_stop <$> get_statusCode s4 v = Some 1) ts =
              filter (λ v, UploadManager_stop <$> get_statusCode s v = Some 1) ts) as ->.
      { apply filter_ext_in. apply Forall_forall. intros v Hv.
        assert (addr u ≠ addr v) as Hne.
        { intros Heq. apply Hu_notin. rewrite Heq. apply list_elem_of_fmap. eauto. }
        unfold get_statusCode. rewrite Hh4, Hh3, list_lookup_alter_ne by done. done. }
      by destruct (decide _).
    + intros i. rewrite Hdel, Hh4, Hh3, length_alter, fmap_cons.
      destruct (decide (addr u = i)) as [<-|Hne].
      * rewrite list_lookup_alter_eq.
        rewrite (bool_decide_eq_true_2 (addr u ∈ addr u :: (addr <$> ts))) by left.
        destruct (heap s !! addr u) as [o|] eqn:Eo; simpl.
        -- apply lookup_lt_Some in Eo. rewrite (bool_decide_eq_true_2 _ Eo).
           by destruct (isDeleted o), b, (bool_decide _).
        -- apply lookup_ge_None in Eo.
           rewrite (bool_decide_eq_false_2 (addr u < _)%nat) by lia.
           by rewrite !andb_false_r.
      * rewrite list_lookup_alter_ne by done.
        assert (bool_decide (i ∈ addr u :: (addr <$> ts)) = bool_decide (i ∈ addr <$> ts)) as ->.
        { apply bool_decide_ext. rewrite elem_of_cons. split; [by intros [?|?]|by right]. }
        done.
Qed.

Lemma size_tasks p : Pool.size p = length (pool_tasks p).
Proof. unfold Pool.size, pool_tasks. rewrite length_fmap, length_app. lia. Qed.

(** X10. [stopAll] empties the pool and sets the mode to [NOT_STARTED]. It
    calls [_stop] once on every task of the pool, running ones first, and
    nothing else; it settles no promise, queues no job, keeps the buffer of
    promises and [fileQueue], and marks no task deleted. What it appends to
    [waitQueue] is a subsequence of the pool's tasks in that order; when
    the tasks are distinct objects it is exactly those whose [statusCode]
    is 1 after their [_stop]. *)
Theorem stopAll_empties_pool (s : PlvVideoUpload) :
  let ts := pool_tasks (uploadPool s) in
  let s' := stopAll s in
  Pool.size (uploadPool s') = 0%nat ∧ status s' = NOT_STARTED ∧
  trace (rt s') = trace (rt s) ++ (Call_stop <$> ts) ∧
  promises (rt s') = promises (rt s) ∧ jobs (rt s') = jobs (rt s) ∧
  newUploadPromiseList s' = newUploadPromiseList s ∧
  fileQueue s' = fileQueue s ∧
  (∀ v, get_isDeleted s' v = get_isDeleted s v) ∧
  (∃ l, waitQueue s' = waitQueue s ++ l ∧ l `sublist_of` ts) ∧
  (NoDup (addr <$> ts) →
   waitQueue s' = waitQueue s ++
     filter (λ u, UploadManager_stop <$> get_statusCode s u = Some 1) ts).
Proof.
  intros ts s'. unfold s', stopAll, _stopAll.
  destruct (stopAll_loop false ts (Pool.size (uploadPool s)) s eq_refl)
    as (Hp & Hr & Hf & _ & Hnew & _ & _ & _ & Hsub & Hexact & Hdel).
  { by rewrite size_tasks. }
  destruct (emits_trace ts (rt s)) as (Htrace & Hprom & Hjobs & _).
  simpl. rewrite Hp, Hr, Htrace, Hprom, Hjobs. repeat split; try done.
  intros v. unfold get_isDeleted. simpl. rewrite Hdel. simpl. apply orb_false_r.
Qed.

(** X9. [clearAll] leaves the pool, [waitQueue] and [fileQueue] empty and
    the mode [NOT_STARTED]. It calls [_stop] once on every task of the
    pool and marks each of them deleted; tasks that were only in
    [waitQueue] are dropped without being stopped or marked. It settles no
    promise, queues no job and keeps the buffer of promises. *)
Theorem clearAll_resets (s : PlvVideoUpload) :
  let ts := pool_tasks (uploadPool s) in
  let s' := clearAll s in
  Pool.size (uploadPool s') = 0%nat ∧ waitQueue s' = [] ∧ fileQueue s' = [] ∧
  status s' = NOT_STARTED ∧
  trace (rt s') = trace (rt s) ++ (Call_stop <$> ts) ∧
  promises (rt s') = promises (rt s) ∧ jobs (rt s') = jobs (rt s) ∧
  newUploadPromiseList s' = newUploadPromiseList s ∧
  (∀ u, u ∈ ts → (addr u < length (heap s))%nat → get_isDeleted s' u = true) ∧
  (∀ v, addr v ∉ addr <$> ts → get_isDeleted s' v = get_isDeleted s v).
Proof.
  intros ts s'. unfold s', clearAll, _stopAll.
  destruct (stopAll_loop true ts (Pool.size (uploadPool s)) s eq_refl)
    as (Hp & Hr & _ & _ & Hnew & _ & _ & _ & _ & _ & Hdel).
  { by rewrite size_tasks. }
  destruct (emits_trace ts (rt s)) as (Htrace & Hprom & Hjobs & _).
  simpl. rewrite Hp, Hr, Htrace, Hprom, Hjobs. repeat split; try done.
  - intros u Hu Hlt. unfold get_isDeleted. simpl. rewrite Hdel. simpl.
    rewrite (bool_decide_eq_true_2 (addr u ∈ addr <$> ts)), (bool_decide_eq_true_2 _ Hlt).
    + apply orb_true_r.
    + apply list_elem_of_fmap. eauto.
  - intros v Hv. unfold get_isDeleted. simpl. rewrite Hdel. simpl.
    rewrite (bool_decide_eq_false_2 _ Hv). apply orb_false_r.
Qed.

Lemma submit_shape u s :
  let s' := submit u s in
  newUploadPromiseList s' = newUploadPromiseList s ++ [length (promises (rt s))] ∧
  promises (rt s') = promises (rt s) ++ [Pending []] ∧
  jobs (rt s') = jobs (rt s) ∧ watches (rt s') = watches (rt s) ∧
  task <$> Pool.items (uploadPool s') ≡ₚ (task <$> Pool.items (uploadPool s)) ++ [u] ∧
  Pool._limit (uploadPool s') = Pool._limit (uploadPool s) ∧
  Pool.size (uploadPool s') = S (Pool.size (uploadPool s)) ∧
  ∃ xs, trace (rt s') = trace (rt s) ++ (Call_start ∘ task <$> xs).
Proof.
  simpl. unfold submit.
  pose proof (enqueue_shape u (uploadPool s) (rt s))
    as (Hd & Hprom & Hjobs & Hw & Hsize & Hlim & Htrace).
  pose proof (enqueue_items u (uploadPool s) (rt s)) as Hitems.
  destruct (Pool.enqueue u (uploadPool s) (rt s)) as [[d p] r]. simpl in *. subst d.
  repeat split; try done. by rewrite Hitems, fmap_app.
Qed.

Lemma startAll_loop (q : list Ref) : ∀ n s,
  waitQueue s = q → (length q ≤ n)%nat →
  let submitted := filter (λ u, get_statusCode s u ≠ Some (-1)) q in
  let s' := while n startAll_body s in
  waitQueue s' = [] ∧ heap s' = heap s ∧ fileQueue s' = fileQueue s ∧
  status s' = status s ∧
  newUploadPromiseList s' =
    newUploadPromiseList s ++ seq (length (promises (rt s))) (length submitted) ∧
  promises (rt s') = promises (rt s) ++ replicate (length submitted) (Pending []) ∧
  jobs (rt s') = jobs (rt s) ∧ watches (rt s') = watches (rt s) ∧
  task <$> Pool.items (uploadPool s') ≡ₚ (task <$> Pool.items (uploadPool s)) ++ submitted ∧
  Pool._limit (uploadPool s') = Pool._limit (uploadPool s) ∧
  ∃ xs, trace (rt s') = trace (rt s) ++ (Call_start ∘ task <$> xs).
Proof.
  induction q as [|u q IH]; intros n s Hq Hn.
  - assert (startAll_body s = None) as Hbody.
    { unfold startAll_body. by rewrite Hq. }
    assert (while n startAll_body s = s) as ->.
    { destruct n; simpl; [done|]. by rewrite Hbody. }
    simpl. rewrite !app_nil_r. repeat split; try done. exists []. by rewrite app_nil_r.
  - destruct n as [|n]; [simpl in Hn; lia|].
    set (s1 := set_waitQueue (λ _, q) s).
    set (s2 := if bool_decide (get_statusCode s1 u = Some (-1)) then s1 else submit u s1).
    assert (startAll_body s = Some s2) as Hbody.
    { unfold startAll_body. rewrite Hq. simpl. done. }
    cbn [while]. rewrite Hbody.
    assert (waitQueue s2 = q ∧ heap s2 = heap s ∧ fileQueue s2 = fileQueue s ∧
            status s2 = status s) as (Hw2 & Hh2 & Hf2 & Hst2).
    { unfold s2. case_bool_decide; [done|].
      by destruct (submit_frame u s1) as (-> & -> & -> & -> & _). }
    destruct (IH n s2 Hw2) as (Hw & Hh & Hf & Hst & Hnew & Hprom & Hjobs & Hws & Hitems & Hlim & xs & Htrace).
    { simpl in Hn. lia. }
    cbv zeta. rewrite Hw, Hh, Hf, Hst, Hnew, Hprom, Hjobs, Hws, Hitems, Hlim, Htrace, Hh2, Hf2, Hst2.
    assert (filter (λ v, get_statusCode s2 v ≠ Some (-1)) q =
            filter (λ v, get_statusCode s v ≠ Some (-1)) q) as ->.
    { apply list_filter_iff. intros v. unfold get_statusCode. by rewrite Hh2. }
    rewrite filter_cons. unfold s2. change (get_statusCode s1 u) with (get_statusCode s u).
    case_bool_decide as Hcode; destruct (decide _) as [Hd|Hd]; try done.
    + repeat split; try done. by exists xs.
    + destruct (submit_shape u s1) as (Hn1 & Hp1 & Hj1 & Hw1 & Hi1 & Hl1 & _ & ys & Ht1).
      rewrite Hn1, Hp1, Hj1, Hw1, Hi1, Hl1, Ht1. simpl.
      rewrite length_app. simpl. rewrite Nat.add_1_r, <- !app_assoc. simpl.
      repeat split; try done.
      exists (ys ++ xs). by rewrite fmap_app.
Qed.

(** X11. [startAll] empties [waitQueue], submits to the pool every waiting
    task whose [statusCode] is not -1 (the others are dropped from
    [waitQueue] but stay in [fileQueue]), sets the mode to [UPLOADING], and
    hands the buffer, with the new promises in submission order, to one new
    aggregate, leaving the buffer empty. No task object is changed. *)
Theorem startAll_submits_waiting (s : PlvVideoUpload) :
  let submitted := filter (λ u, get_statusCode s u ≠ Some (-1)) (waitQueue s) in
  let batch :=
    newUploadPromiseList s ++ seq (length (promises (rt s))) (length submitted) in
  let s' := startAll s in
  waitQueue s' = [] ∧ status s' = UPLOADING ∧ newUploadPromiseList s' = [] ∧
  fileQueue s' = fileQueue s ∧ heap s' = heap s ∧
  task <$> Pool.items (uploadPool s') ≡ₚ (task <$> Pool.items (uploadPool s)) ++ submitted ∧
  length (promises (rt s')) = (length (promises (rt s)) + length submitted)%nat ∧
  watches (rt s') = watches (rt s) ++
    [mkWatch batch (length batch) (match batch with [] => AllFulfilled | _ => AllPending end)].
Proof.
  intros submitted batch s'. unfold s', startAll.
  destruct (startAll_loop (waitQueue s) (Queue.size (waitQueue s)) s eq_refl)
    as (Hw & Hh & Hf & Hst & Hnew & Hprom & _ & Hws & Hitems & _); [done|].
  set (s1 := while _ _ s) in *.
  destruct (onPromiseEnd_shape (set_status UPLOADING s1))
    as (Hn' & Hw' & Hl' & Hst' & Hwq' & Hfq' & Hp' & Hh' & _).
  simpl in *. rewrite Hn', Hw', Hl', Hst', Hwq', Hfq', Hp', Hh', Hw, Hh, Hf, Hnew, Hprom, Hws, Hitems.
  rewrite length_app, length_replicate. done.
Qed.

(** X12. [startAll] with nothing waiting and nothing in the buffer (and no
    job pending) watches an empty batch, whose continuation is the next
    job. If the pool is empty, that job sets the mode back to
    [NOT_STARTED] and fires UploadComplete when [fileQueue] is not empty
    (also when it was fired before); if the pool is not empty the mode
    stays [UPLOADING] and nothing is fired. *)
Theorem startAll_with_nothing_to_do (s : PlvVideoUpload) :
  waitQueue s = [] → newUploadPromiseList s = [] → jobs (rt s) = [] →
  ∃ s', next_job (startAll s) = Some s' ∧ jobs (rt s') = [] ∧
        waitQueue s' = [] ∧ fileQueue s' = fileQueue s ∧ uploadPool s' = uploadPool s ∧
        if bool_decide (Pool.size (uploadPool s) = 0%nat) then
          status s' = NOT_STARTED ∧
          trace (rt s') = trace (rt s) ++
            (if bool_decide (Queue.size (fileQueue s) = 0%nat) then []
             else [Trigger_UploadComplete])
        else status s' = UPLOADING ∧ trace (rt s') = trace (rt s).
Proof.
  intros Hw Hnew Hjobs. unfold startAll. rewrite Hw. simpl.
  unfold _onPromiseEnd. simpl. rewrite Hnew. simpl.
  unfold next_job. simpl. rewrite Hjobs. simpl.
  eexists. split; [done|]. unfold onPromiseEnd_all_then. simpl. rewrite Hw. simpl.
  destruct (bool_decide (Pool.size (uploadPool s) = 0%nat)); [|done].
  destruct (bool_decide (Queue.size (fileQueue s) = 0%nat)); simpl; by rewrite ?app_nil_r.
Qed.

(** X13. [updateUserData] merges: a key of the argument gets the
    argument's value, every other key keeps its value. Two updates in a row
    are one update with the later argument taking precedence; repeating an
    update, or updating with values already there, changes nothing. Nothing
    but [userData] is touched. *)
Theorem updateUserData_merges (new : UserData) (s : PlvVideoUpload) :
  let s' := updateUserData new s in
  (∀ k, userData s' !! k =
        match new !! k with Some v => Some v | None => userData s !! k end) ∧
  (∀ newer, updateUserData newer s' = updateUserData (newer ∪ new) s) ∧
  updateUserData new s' = s' ∧
  (new ⊆ userData s → s' = s) ∧
  fileQueue s' = fileQueue s ∧ waitQueue s' = waitQueue s ∧ uploadPool s' = uploadPool s ∧
  heap s' = heap s ∧ status s' = status s ∧ rt s' = rt s.
Proof.
  simpl. unfold updateUserData, set_userData. simpl. unfold UserData in *.
  split; [|split; [|split; [|split]]].
  - intros k. rewrite lookup_union.
    destruct (new !! k) as [v|]; [by rewrite union_Some_l|apply union_with_None_l].
  - intros newer. by rewrite (assoc_L (∪)).
  - by rewrite (assoc_L (∪)), (idemp_L (∪)).
  - intros Hsub. rewrite (map_subseteq_union _ _ Hsub). by destruct s.
  - done.
Qed.

Lemma enqueue_value_shape o s :
  let r := enqueue_value o s in
  r.1 = length (promises (rt s)) ∧ length (promises (rt (r.2))) = S (length (promises (rt s))) ∧
  fileQueue (r.2) = fileQueue s ∧ waitQueue (r.2) = waitQueue s ∧ heap (r.2) = heap s ∧
  status (r.2) = status s ∧ userData (r.2) = userData s ∧
  newUploadPromiseList (r.2) = newUploadPromiseList s ∧
  watches (rt (r.2)) = watches (rt s) ∧
  (∃ xs, trace (rt (r.2)) = trace (rt s) ++ (Call_start ∘ task <$> xs)) ∧
  match o with
  | Some u =>
      Pool.size (uploadPool (r.2)) = S (Pool.size (uploadPool s)) ∧
      task <$> Pool.items (uploadPool (r.2)) ≡ₚ (task <$> Pool.items (uploadPool s)) ++ [u] ∧
      promises (rt (r.2)) = promises (rt s) ++ [Pending []]
  | None =>
      uploadPool (r.2) = uploadPool s ∧
      promises (rt (r.2)) = promises (rt s) ++ [Done (Rejected "TypeError")]
  end.
Proof.
  simpl. unfold enqueue_value. destruct o as [u|]; simpl.
  - pose proof (enqueue_shape u (uploadPool s) (rt s))
      as (Hd & Hprom & Hjobs & Hw & Hsize & Hlim & Htrace).
    pose proof (enqueue_items u (uploadPool s) (rt s)) as Hitems.
    destruct (Pool.enqueue u (uploadPool s) (rt s)) as [[d p] r]. simpl in *. subst d.
    rewrite Hprom, length_app, Hitems, fmap_app. simpl.
    repeat split; try done. lia.
  - rewrite length_app. simpl. repeat split; try done; [lia|].
    exists []. by rewrite app_nil_r.
Qed.

Ltac by_status :=
  exfalso;
  repeat match goal with
         | H : _ |- _ => progress (rewrite ?elem_of_cons, ?elem_of_nil in H)
         end;
  lia.

(** X14. Whatever a pool promise is fulfilled with, the per-promise handler
    never changes [fileQueue], any task object, the mode or the user data,
    and emits an Error event for status 102 only. A falsy value, status 0
    and every status outside 100, 101, 102, 104, 105, 106, 107 change
    nothing at all; outside 106 and 107 the pool, the promise store, the job
    queue and the buffer are untouched. Status 100 only removes the first
    task with [data.id] from [waitQueue]; status 101, 104 and 105 only put
    the task at the front of [waitQueue], unless it is missing or marked
    deleted. *)
Theorem dispatch_frame (v : Value) (s s' : PlvVideoUpload) :
  onPromiseEnd_item_then v s = Some s' →
  (fileQueue s' = fileQueue s ∧ heap s' = heap s ∧ status s' = status s ∧
   userData s' = userData s) ∧
  tally is_Error (trace (rt s')) =
    (tally is_Error (trace (rt s)) +
     match v with
     | Some res => if bool_decide (res_status res = 102%Z) then 1 else 0
     | None => 0
     end)%nat ∧
  match v with
  | None => s' = s
  | Some res =>
      let data := res_json res in
      (res_status res ∉ [100; 101; 102; 104; 105; 106; 107] → s' = s) ∧
      (res_status res ∉ [106; 107] →
       uploadPool s' = uploadPool s ∧ promises (rt s') = promises (rt s) ∧
       jobs (rt s') = jobs (rt s) ∧ newUploadPromiseList s' = newUploadPromiseList s) ∧
      (res_status res = 100 →
       waitQueue s' = (Queue.remove (data_id data) (waitQueue s)).2 ∧ rt s' = rt s) ∧
      (res_status res ∈ [101; 104; 105] →
       rt s' = rt s ∧
       waitQueue s' =
         match data_uploader data with
         | Some u => if get_isDeleted s u then waitQueue s else u :: waitQueue s
         | None => waitQueue s
         end)
  end.
Proof.
  unfold onPromiseEnd_item_then. destruct v as [res|]; [|intros [= <-]; by rewrite Nat.add_0_r].
  case_bool_decide as H0.
  { intros [= <-]. rewrite H0. simpl. rewrite Nat.add_0_r. repeat split; try done.
    rewrite !elem_of_cons, elem_of_nil in H. lia. }
  unfold _handleUploadStatusChange.
  pose proof (enqueue_value_shape (data_uploader (res_json res)) s)
    as (_ & _ & Hf & Hw & Hh & Hst & Hu & _ & _ & (xs & Htrace) & _).
  destruct (enqueue_value (data_uploader (res_json res)) s) as [d s1]. simpl in *.
  assert (∀ s2, s2 = set_newUploadPromiseList (λ l, l ++ [d]) s1 →
            let s3 := match status s2 with NOT_STARTED => _onPromiseEnd s2 | UPLOADING => s2 end in
            fileQueue s3 = fileQueue s ∧ heap s3 = heap s ∧ status s3 = status s ∧
            userData s3 = userData s ∧ waitQueue s3 = waitQueue s ∧
            tally is_Error (trace (rt s3)) = tally is_Error (trace (rt s))) as Hretry.
  { intros s2 ->. simpl.
    destruct (onPromiseEnd_shape (set_newUploadPromiseList (λ l, l ++ [d]) s1))
      as (_ & _ & _ & Hst' & Hwq' & Hfq' & _ & Hh' & Hu').
    pose proof (onPromiseEnd_trace (set_newUploadPromiseList (λ l, l ++ [d]) s1)) as Ht'.
    simpl in *. destruct (status s1) eqn:E; simpl.
    - rewrite Hst', Hwq', Hfq', Hh', Hu', Ht', Htrace, tally_starts by done.
      rewrite Hf, Hh, <- Hst, Hu, Hw. done.
    - rewrite Htrace, tally_starts by done. rewrite Hf, Hh, <- Hst, Hu, Hw. done. }
  specialize (Hretry _ eq_refl). simpl in Hretry.
  destruct Hretry as (R1 & R2 & R3 & R4 & R5 & R6).
  repeat case_match; intros; simplify_eq; simpl;
    rewrite ?Counting.tally_app, ?Nat.add_0_r; simpl.
  all: repeat split; try done; intros; try done; by_status.
Qed.

(** X15. Status 106 or 107 with the task in the data submits the task to
    the pool again, as a new item with a fresh promise, whether or not the
    pool still holds it: the pool grows by one. Queues, task objects and
    mode stay; while [NOT_STARTED] the buffer with the new promise is
    handed to a new aggregate at once, while [UPLOADING] the promise only
    joins the buffer. *)
Theorem retry_resubmits (res : Res) (u : Ref) (s : PlvVideoUpload) :
  res_status res = 106 ∨ res_status res = 107 →
  data_uploader (res_json res) = Some u →
  let d := length (promises (rt s)) in
  ∃ s', step_job (JItemThen (Some res)) s = Some s' ∧
        Pool.size (uploadPool s') = S (Pool.size (uploadPool s)) ∧
        task <$> Pool.items (uploadPool s') ≡ₚ (task <$> Pool.items (uploadPool s)) ++ [u] ∧
        length (promises (rt s')) = S d ∧
        waitQueue s' = waitQueue s ∧ fileQueue s' = fileQueue s ∧ heap s' = heap s ∧
        status s' = status s ∧
        match status s with
        | NOT_STARTED =>
            newUploadPromiseList s' = [] ∧
            watches (rt s') = watches (rt s) ++
              [mkWatch (newUploadPromiseList s ++ [d])
                       (length (newUploadPromiseList s ++ [d])) AllPending]
        | UPLOADING =>
            newUploadPromiseList s' = newUploadPromiseList s ++ [d] ∧
            watches (rt s') = watches (rt s)
        end.
Proof.
  intros Hcode Hu d. simpl. unfold onPromiseEnd_item_then.
  rewrite bool_decide_eq_false_2 by lia.
  assert (_handleUploadStatusChange res s =
          let '(d, s1) := enqueue_value (Some u) s in
          let s2 := set_newUploadPromiseList (λ l, l ++ [d]) s1 in
          Some (match status s2 with NOT_STARTED => _onPromiseEnd s2 | UPLOADING => s2 end))
    as ->.
  { unfold _handleUploadStatusChange. rewrite Hu. by destruct Hcode as [-> | ->]. }
  pose proof (enqueue_value_shape (Some u) s)
    as (Hd & Hlen & Hf & Hw & Hh & Hst & _ & Hnew & Hws & _ & Hsize & Hitems & Hprom).
  destruct (enqueue_value (Some u) s) as [d' s1]. simpl in Hd. subst d'. fold d.
  set (s2 := set_newUploadPromiseList (λ l, l ++ [d]) s1).
  assert (newUploadPromiseList s2 = newUploadPromiseList s ++ [d] ∧
          watches (rt s2) = watches (rt s) ∧ uploadPool s2 = uploadPool s1 ∧
          length (promises (rt s2)) = S d ∧ waitQueue s2 = waitQueue s ∧
          fileQueue s2 = fileQueue s ∧ heap s2 = heap s ∧ status s2 = status s)
    as (N1 & N2 & N3 & N4 & N5 & N6 & N7 & N8).
  { unfold s2. simpl in *. by rewrite Hnew. }
  cbv zeta. eexists. split; [done|]. rewrite N8.
  destruct (status s) eqn:Est.
  - destruct (onPromiseEnd_shape s2) as (Hn' & Hw' & Hl' & Hst' & Hwq' & Hfq' & Hp' & Hh' & _).
    rewrite Hn', Hw', Hl', Hst', Hwq', Hfq', Hp', Hh', N1, N2, N3, N4, N5, N6, N7, N8.
    repeat split; try done. by destruct (newUploadPromiseList s).
  - rewrite N1, N2, N3, N4, N5, N6, N7, N8. by repeat split.
Qed.

End OrchestratorMore.

(** ** The pool inside the orchestrator *)

Section PoolInOrchestrator.
Context `{C : Collaborators}.
Import Pool PoolFacts PoolInvariant.

Lemma keeps_refl s : pool_keeps s s.
Proof. by split. Qed.

Lemma keeps_trans s1 s2 s3 : pool_keeps s1 s2 → pool_keeps s2 s3 → pool_keeps s1 s3.
Proof.
  intros (H1 & L1 & C1) (H2 & L2 & C2). split; [auto|]. split; congruence.
Qed.

Lemma well_formed_grow p r r' :
  (length (promises r) ≤ length (promises r'))%nat → well_formed p r → well_formed p r'.
Proof.
  intros Hlen Hwf. apply (well_formed_shrink p p r r'); [done|apply Hwf|done|done].
Qed.

(** The pool is left alone and no promise disappears. *)
Lemma keeps_rt s s' :
  uploadPool s' = uploadPool s → config s' = config s →
  (length (promises (rt s)) ≤ length (promises (rt s')))%nat → pool_keeps s s'.
Proof.
  intros Hp Hc Hlen. split; [|split; [by rewrite Hp|done]].
  unfold pool_sound. rewrite Hp. intros [Hwf Hsat]. split; [|done].
  by apply (well_formed_grow _ (rt s)).
Qed.

(** The pool makes one step, other than [dequeue]. *)
Lemma keeps_step op s s' :
  is_Dequeue op = false →
  (uploadPool s', rt s') = step (uploadPool s, rt s) op → config s' = config s →
  pool_keeps s s'.
Proof.
  intros Hop Hstep Hc. split; [|split; [|done]].
  - intros [Hwf Hsat].
    pose proof (step_well_formed (uploadPool s, rt s) op Hwf) as H.
    pose proof (PoolMore.step_saturated (uploadPool s, rt s) op Hop Hwf Hsat) as H'.
    rewrite <- Hstep in H, H'. by split.
  - pose proof (PoolClaims.step_limit (uploadPool s, rt s) op) as H.
    by rewrite <- Hstep in H.
Qed.

Lemma keeps_submit u s : pool_keeps s (submit u s).
Proof.
  apply (keeps_step (Enqueue u)); [done| |].
  - unfold submit. simpl. by destruct (enqueue u (uploadPool s) (rt s)) as [[? ?] ?].
  - apply submit_frame.
Qed.

Lemma keeps_addFile file fileSetting s : pool_keeps s (addFile file fileSetting s).2.
Proof.
  unfold addFile. case_bool_decide; [by apply keeps_rt|].
  destruct (isContainFileMimeType _ _); simpl; [|by apply keeps_rt].
  destruct (status s); simpl; [by apply keeps_rt|].
  eapply keeps_trans; [|apply keeps_submit]. by apply keeps_rt.
Qed.

Lemma keeps_removeFile id s : pool_keeps s (removeFile id s).
Proof.
  unfold removeFile.
  pose proof (keeps_step (Remove id) s (set_pool ((remove id (uploadPool s) (rt s)).1.2,
                                                  (remove id (uploadPool s) (rt s)).2) s)) as H.
  simpl in H. destruct (remove id (uploadPool s) (rt s)) as [[o p] r].
  eapply keeps_trans; [by apply H|]. destruct o; by apply keeps_rt.
Qed.

Lemma keeps_stopFile id s : pool_keeps s (stopFile id s).
Proof.
  unfold stopFile.
  pose proof (keeps_step (Remove id) s (set_pool ((remove id (uploadPool s) (rt s)).1.2,
                                                  (remove id (uploadPool s) (rt s)).2) s)) as H.
  simpl in H. destruct (remove id (uploadPool s) (rt s)) as [[o p] r].
  eapply keeps_trans; [by apply H|]. destruct o; by apply keeps_rt.
Qed.

Lemma keeps_while (body : PlvVideoUpload → option PlvVideoUpload) :
  (∀ s s', body s = Some s' → pool_keeps s s') →
  ∀ n s, pool_keeps s (while n body s).
Proof.
  intros Hbody. induction n as [|n IH]; intros s; simpl; [apply keeps_refl|].
  destruct (body s) as [s'|] eqn:E; [|apply keeps_refl].
  eapply keeps_trans; [by apply Hbody|apply IH].
Qed.

(** [_stopAll] takes the tasks out with [dequeue], which makes no admission
    check, but it goes on until the pool is empty. *)
Lemma keeps_stopAll b s : pool_keeps s (_stopAll b s).
Proof.
  unfold _stopAll.
  destruct (stopAll_loop b (pool_tasks (uploadPool s)) (Pool.size (uploadPool s)) s eq_refl)
    as (Hp & Hr & _ & _ & _ & _ & Hc & _); [by rewrite size_tasks|].
  destruct (emits_trace (pool_tasks (uploadPool s)) (rt s)) as (_ & Hprom & _).
  split; [|split; simpl; [by rewrite Hp|done]].
  intros [(Hlim & _) _]. unfold pool_sound. simpl. rewrite Hp, Hr. split; [|by left].
  split; [|split; by constructor].
  unfold within_limit in *. simpl. eapply Qle_trans; [|apply Hlim].
  rewrite <- (Zle_Qle 0). lia.
Qed.

Lemma keeps_onPromiseEnd s : pool_keeps s (_onPromiseEnd s).
Proof.
  destruct (onPromiseEnd_shape s) as (_ & _ & Hl & _ & _ & _ & Hp & _).
  apply keeps_rt; [done| |by rewrite Hl].
  unfold _onPromiseEnd. simpl. by destruct (newUploadPromiseList s).
Qed.

Lemma keeps_startAll s : pool_keeps s (startAll s).
Proof.
  unfold startAll. eapply keeps_trans; [|apply keeps_onPromiseEnd].
  eapply keeps_trans; [|by apply keeps_rt].
  apply keeps_while. clear s. intros s s'. unfold startAll_body.
  case_bool_decide; [|done].
  destruct (Queue.dequeue (waitQueue s)) as [[u q]|]; [|done]. intros [= <-].
  case_bool_decide; [by apply keeps_rt|].
  eapply keeps_trans; [|apply keeps_submit]. by apply keeps_rt.
Qed.

Lemma keeps_resumeFile id s : pool_keeps s (resumeFile id s).
Proof.
  unfold resumeFile. destruct (Queue.remove id (waitQueue s)) as [[u|] q]; [|by apply keeps_rt].
  eapply keeps_trans; [by apply (keeps_rt s (set_waitQueue (λ _, q) s))|].
  eapply keeps_trans; [apply keeps_submit|].
  destruct (status _); [apply keeps_onPromiseEnd|apply keeps_refl].
Qed.

Lemma keeps_updateFileData id v s : pool_keeps s (updateFileData id v s).
Proof.
  unfold updateFileData. destruct (negb _); [apply keeps_refl|].
  destruct (Queue.find id (waitQueue s)); [case_bool_decide|]; by apply keeps_rt.
Qed.

Lemma keeps_enqueue_value o s : pool_keeps s (enqueue_value o s).2.
Proof.
  unfold enqueue_value. destruct o as [u|]; simpl.
  - apply (keeps_step (Enqueue u)); simpl; [done|..];
      by destruct (enqueue u (uploadPool s) (rt s)) as [[? ?] ?].
  - apply keeps_rt; simpl; [done|done|]. rewrite length_app. lia.
Qed.

Lemma keeps_handleUploadStatusChange res s s' :
  _handleUploadStatusChange res s = Some s' → pool_keeps s s'.
Proof.
  unfold _handleUploadStatusChange.
  pose proof (keeps_enqueue_value (data_uploader (res_json res)) s) as He.
  destruct (enqueue_value (data_uploader (res_json res)) s) as [d s1]. simpl in He.
  assert (pool_keeps s
            (match status (set_newUploadPromiseList (λ l, l ++ [d]) s1) with
             | NOT_STARTED => _onPromiseEnd (set_newUploadPromiseList (λ l, l ++ [d]) s1)
             | UPLOADING => set_newUploadPromiseList (λ l, l ++ [d]) s1
             end)) as Hre.
  { eapply keeps_trans; [apply He|].
    eapply keeps_trans; [by apply (keeps_rt s1 (set_newUploadPromiseList (λ l, l ++ [d]) s1))|].
    destruct (status _); [apply keeps_onPromiseEnd|apply keeps_refl]. }
  repeat case_match; intros; simplify_eq; try apply Hre; by apply keeps_rt.
Qed.

Lemma keeps_all_then s : pool_keeps s (onPromiseEnd_all_then s).
Proof.
  unfold onPromiseEnd_all_then. case_bool_decide; [apply keeps_onPromiseEnd|].
  case_bool_decide; [|apply keeps_refl].
  destruct (_ && _); by apply keeps_rt.
Qed.

Lemma keeps_step_job j s s' : step_job j s = Some s' → pool_keeps s s'.
Proof.
  destruct j as [w|w e|w|e|v|e|x data|x err| |j]; simpl.
  - intros [= <-]. apply keeps_rt; simpl; [done|done|].
    by rewrite Settling.length_resolveElement.
  - intros [= <-]. apply keeps_rt; simpl; [done|done|].
    by rewrite Settling.length_reject.
  - intros [= <-]. apply keeps_all_then.
  - intros [= <-]. by apply keeps_rt.
  - unfold onPromiseEnd_item_then. destruct v as [res|]; [|intros [= <-]; apply keeps_refl].
    case_bool_decide; [intros [= <-]; apply keeps_refl|].
    apply keeps_handleUploadStatusChange.
  - intros [= <-]. by apply keeps_rt.
  - intros [= <-]. apply (keeps_step (RunThen x data)); [done| |done].
    symmetry. apply surjective_pairing.
  - intros [= <-]. apply (keeps_step (RunCatch x err)); [done| |done].
    symmetry. apply surjective_pairing.
  - intros [= <-]. apply (keeps_step RunFinally); [done| |done].
    symmetry. apply surjective_pairing.
  - intros [= <-]. by apply keeps_rt.
Qed.

Lemma keeps_next_job s s' : next_job s = Some s' → pool_keeps s s'.
Proof.
  unfold next_job. destruct (jobs (rt s)) as [|j js]; [done|]. intros Hstep.
  eapply keeps_trans; [|by apply (keeps_step_job j)]. by apply keeps_rt.
Qed.

Lemma keeps_react i s : pool_keeps s (react i s).
Proof.
  destruct i; simpl.
  - apply keeps_addFile.
  - apply keeps_removeFile.
  - apply keeps_resumeFile.
  - apply keeps_stopFile.
  - unfold clearAll. eapply keeps_trans; [apply (keeps_stopAll true)|]. by apply keeps_rt.
  - apply keeps_startAll.
  - apply keeps_stopAll.
  - apply keeps_updateFileData.
  - by apply keeps_rt.
  - apply keeps_rt; simpl; [done|done|]. unfold run_settles.
    destruct (List.find _ _); [|done]. by destruct o.
  - apply keeps_rt; simpl; [done|done|]. by rewrite settle_promises_length.
  - by apply keeps_rt.
Qed.

Lemma constructor_limit_range (configured : option Q) :
  (0 < constructor_parallelFileLimit configured ∧
   constructor_parallelFileLimit configured <= 5)%Q.
Proof.
  unfold constructor_parallelFileLimit.
  destruct configured as [q|]; simpl; [|by split].
  destruct (Qeq_bool q 0) eqn:E0; simpl; [by split|].
  apply Qeq_bool_neq in E0.
  destruct (Qle_bool 0 q) eqn:E1; simpl; [|by split].
  apply Qle_bool_iff in E1.
  destruct (Qle_bool q 5) eqn:E2; simpl; [|by split].
  apply Qle_bool_iff in E2. split; [|done]. lra.
Qed.

Lemma reachable_pool s :
  reachable s →
  pool_sound s ∧
  _limit (uploadPool s) = constructor_parallelFileLimit (parallelFileLimit (config s)).
Proof.
  induction 1 as [cfg|i s _ [IHw IHl]|s s' _ [IHw IHl] Hjob].
  - split; [|done]. split; [|by left]. apply new_well_formed.
    pose proof (constructor_limit_range (parallelFileLimit cfg)) as [? _]. lra.
  - destruct (keeps_react i s) as (Hw & Hl & Hc). split; [auto|]. by rewrite Hl, Hc.
  - destruct (keeps_next_job s s' Hjob) as (Hw & Hl & Hc). split; [auto|]. by rewrite Hl, Hc.
Qed.

(** X16. In every state the orchestrator can reach, the limit of the pool
    is still the one the constructor derived from the configuration, which
    is above 0 and at most 5; at most [limit], hence at most 5, tasks are
    running; no item is in both lists of the pool; and the items of the
    pool hold distinct promises of the store. *)
Theorem running_tasks_bounded (s : PlvVideoUpload) :
  reachable s →
  let p := uploadPool s in
  _limit p = constructor_parallelFileLimit (parallelFileLimit (config s)) ∧
  (0 < _limit p ∧ _limit p <= 5)%Q ∧
  (inject_Z (Z.of_nat (length (_processingList p))) <= _limit p)%Q ∧
  (length (_processingList p) ≤ 5)%nat ∧
  (∀ x, x ∈ _waitingList p → x ∉ _processingList p) ∧
  NoDup (deferred <$> items p) ∧
  Forall (λ x, (deferred x < length (promises (rt s)))%nat) (items p).
Proof.
  intros Hs p. destruct (reachable_pool s Hs) as [[Hwf _] Hlim]. fold p in Hwf, Hlim.
  pose proof (constructor_limit_range (parallelFileLimit (config s))) as Hrange.
  rewrite <- Hlim in Hrange. destruct Hwf as (Hin & Hnd & Hall).
  split; [done|]. split; [done|]. split; [done|]. split.
  { unfold within_limit in Hin.
    assert (inject_Z (Z.of_nat (length (_processingList p))) <= inject_Z 5)%Q as Hle
      by (change (inject_Z 5) with 5%Q; lra).
    rewrite <- Zle_Qle in Hle. lia. }
  split; [|done]. intros x. by apply (PoolClaims.well_formed_disjoint p (rt s)).
Qed.

End PoolInOrchestrator.

(** ** What holds in every state the orchestrator can reach *)

Section Invariants.
Context `{C : Collaborators}.
Import Pool PoolFacts PoolInvariant QueueFacts PoolShape.

(** X19. In every state the orchestrator can reach, no task waits in the
    pool while a whole slot is free: [_waitingList] is empty, or the tasks
    that run are more than [limit - 1] (and at most [limit]). [stopAll] and
    [clearAll] take tasks out without an admission check, but they empty the
    pool. *)
Theorem no_slot_left_free (s : PlvVideoUpload) :
  reachable s →
  let p := uploadPool s in
  _waitingList p = [] ∨
  (_limit p - 1 < inject_Z (Z.of_nat (length (_processingList p))) ∧
   inject_Z (Z.of_nat (length (_processingList p))) <= _limit p)%Q.
Proof.
  intros Hs p. destruct (reachable_pool s Hs) as [[(Hlim & _) Hsat] _].
  fold p in Hlim, Hsat. unfold saturated in Hsat. unfold within_limit in Hlim.
  destruct Hsat as [?|?]; [by left|right]. split; [lra|done].
Qed.

Lemma remove_sublist id q : (Queue.remove id q).2 `sublist_of` q.
Proof.
  induction q as [|x q IH]; simpl; [done|]. case_bool_decide; [by apply sublist_cons|].
  destruct (Queue.remove id q). by apply sublist_skip.
Qed.

Lemma fileQueue_resumeFile id s : fileQueue (resumeFile id s) = fileQueue s.
Proof.
  unfold resumeFile. destruct (Queue.remove id (waitQueue s)) as [[u|] q]; [|done].
  set (s1 := set_waitQueue _ s).
  destruct (submit_frame u s1) as (Hf & _ & _ & _).
  destruct (onPromiseEnd_shape (submit u s1)) as (_ & _ & _ & _ & _ & Hf' & _).
  destruct (status _); [by rewrite Hf', Hf|by rewrite Hf].
Qed.

Lemma fileQueue_startAll s : fileQueue (startAll s) = fileQueue s.
Proof.
  unfold startAll.
  destruct (startAll_loop (waitQueue s) (Queue.size (waitQueue s)) s eq_refl)
    as (_ & _ & Hf & _); [done|].
  set (s1 := while _ _ s) in *.
  destruct (onPromiseEnd_shape (set_status UPLOADING s1)) as (_ & _ & _ & _ & _ & Hf' & _).
  by rewrite Hf'.
Qed.

Lemma fileQueue_stopAll b s : fileQueue (_stopAll b s) = fileQueue s.
Proof.
  unfold _stopAll.
  destruct (stopAll_loop b (pool_tasks (uploadPool s)) (Pool.size (uploadPool s)) s eq_refl)
    as (_ & _ & Hf & _); [by rewrite size_tasks|]. done.
Qed.

Lemma fileQueue_handleUploadStatusChange res s s' :
  _handleUploadStatusChange res s = Some s' → fileQueue s' = fileQueue s.
Proof.
  unfold _handleUploadStatusChange.
  pose proof (enqueue_value_shape (data_uploader (res_json res)) s) as (_ & _ & Hf & _).
  destruct (enqueue_value (data_uploader (res_json res)) s) as [d s1]. simpl in Hf.
  set (s2 := set_newUploadPromiseList (λ l, l ++ [d]) s1).
  destruct (onPromiseEnd_shape s2) as (_ & _ & _ & _ & _ & Hf' & _).
  assert (fileQueue (match status s2 with NOT_STARTED => _onPromiseEnd s2 | UPLOADING => s2 end)
          = fileQueue s) as Hre.
  { destruct (status s2); [by rewrite Hf'|done]. }
  repeat case_match; intros; simplify_eq; try done.
Qed.

Lemma fileQueue_next_job s s' : next_job s = Some s' → fileQueue s' = fileQueue s.
Proof.
  unfold next_job. destruct (jobs (rt s)) as [|j js]; [done|].
  set (s0 := set_rt _ s). change (fileQueue s) with (fileQueue s0). clearbody s0.
  destruct j as [w|w e|w|e|v|e|x data|x err| |j]; simpl; try (by intros [= <-]).
  - intros [= <-]. unfold onPromiseEnd_all_then.
    destruct (onPromiseEnd_shape s0) as (_ & _ & _ & _ & _ & Hf' & _).
    repeat case_match; done.
  - unfold onPromiseEnd_item_then. destruct v as [res|]; [|by intros [= <-]].
    case_bool_decide; [by intros [= <-]|]. apply fileQueue_handleUploadStatusChange.
Qed.

(** What an input does to [fileQueue]: it takes tasks out (or none), or it
    appends one whose id was not there. *)
Lemma fileQueue_react i s :
  fileQueue (react i s) `sublist_of` fileQueue s ∨
  ∃ u, fileQueue (react i s) = fileQueue s ++ [u] ∧
       Queue.find (ref_id u) (fileQueue s) = None.
Proof.
  destruct i; cbn [react].
  - unfold addFile. case_bool_decide as Hdup; [by left|].
    destruct (isContainFileMimeType _ _); simpl; [|by left].
    right. eexists. split.
    + destruct (status s); simpl; [done|]. by rewrite (proj1 (submit_frame _ _)).
    + simpl. destruct (Queue.find _ (fileQueue s)) eqn:E; [|done]. by destruct Hdup.
  - left. unfold removeFile. destruct (remove id (uploadPool s) (rt s)) as [[[u|] p] r];
      simpl; apply remove_sublist.
  - left. by rewrite fileQueue_resumeFile.
  - left. unfold stopFile. by destruct (remove id (uploadPool s) (rt s)) as [[[u|] p] r].
  - left. apply sublist_nil_l.
  - left. by rewrite fileQueue_startAll.
  - left. unfold stopAll. by rewrite fileQueue_stopAll.
  - left. unfold updateFileData. destruct (negb _); [done|].
    destruct (Queue.find _ _); [by case_bool_decide|done].
  - by left.
  - by left.
  - by left.
  - by left.
Qed.

(** X20. In every state the orchestrator can reach, no two entries of
    [fileQueue] have the same id: [addFile] refuses an id that is there,
    and nothing else adds to [fileQueue]. *)
Theorem fileQueue_ids_unique (s : PlvVideoUpload) :
  reachable s → NoDup (ref_id <$> fileQueue s).
Proof.
  induction 1 as [cfg|i s _ IH|s s' _ IH Hjob].
  - constructor.
  - destruct (fileQueue_react i s) as [Hsub|(u & -> & Hnew)].
    + eapply sublist_NoDup; [done|]. by apply fmap_sublist.
    + rewrite fmap_app. apply NoDup_app. split; [done|]. split; [|apply NoDup_singleton].
      intros id (x & -> & Hx)%list_elem_of_fmap Heq%list_elem_of_singleton.
      apply queue_find_None in Hnew. rewrite Forall_forall in Hnew. by apply (Hnew x).
  - by rewrite (fileQueue_next_job s s' Hjob).
Qed.

Lemma status_handleUploadStatusChange res s s' :
  _handleUploadStatusChange res s = Some s' → status s' = status s ∧ heap s' = heap s.
Proof.
  unfold _handleUploadStatusChange.
  pose proof (enqueue_value_shape (data_uploader (res_json res)) s)
    as (_ & _ & _ & _ & Hh & Hst & _).
  destruct (enqueue_value (data_uploader (res_json res)) s) as [d s1]. simpl in Hh, Hst.
  set (s2 := set_newUploadPromiseList (λ l, l ++ [d]) s1).
  destruct (onPromiseEnd_shape s2) as (_ & _ & _ & Hst' & _ & _ & _ & Hh' & _).
  assert (status (match status s2 with NOT_STARTED => _onPromiseEnd s2 | UPLOADING => s2 end)
          = status s ∧
          heap (match status s2 with NOT_STARTED => _onPromiseEnd s2 | UPLOADING => s2 end)
          = heap s) as Hre.
  { assert (status s2 = status s ∧ heap s2 = heap s) as [Hst2 Hh2] by done.
    destruct (status s2) eqn:E; [by rewrite Hst', Hh', Hh2, <- Hst2|by rewrite <- Hst2]. }
  repeat case_match; intros; simplify_eq; try done.
Qed.

Lemma status_resumeFile id s :
  status (resumeFile id s) = status s ∧ heap (resumeFile id s) = heap s.
Proof.
  unfold resumeFile. destruct (Queue.remove id (waitQueue s)) as [[u|] q]; [|done].
  set (s1 := set_waitQueue _ s).
  destruct (submit_frame u s1) as (_ & _ & Hh & Hst & _).
  destruct (onPromiseEnd_shape (submit u s1)) as (_ & _ & _ & Hst' & _ & _ & _ & Hh' & _).
  destruct (status (submit u s1)) eqn:E; [by rewrite Hst', Hh', Hh|by rewrite E, Hh].
Qed.

Lemma status_addFile file fileSetting s : status (addFile file fileSetting s).2 = status s.
Proof.
  unfold addFile. case_bool_decide; [done|].
  destruct (isContainFileMimeType _ _); simpl; [|done].
  destruct (status s) eqn:E; simpl; [done|].
  by rewrite (proj1 (proj2 (proj2 (proj2 (submit_frame _ _))))).
Qed.

(** X21. The mode changes in four places only. Among the inputs, [startAll]
    sets it to [UPLOADING], [stopAll] and [clearAll] set it to
    [NOT_STARTED], and every other call and every settlement leaves it as it
    is. Among the promise jobs, only the continuation of a watch changes it,
    and only to [NOT_STARTED]. *)
Theorem mode_changes_only_there (s : PlvVideoUpload) :
  (∀ i, status (react i s) =
        match i with
        | StartAll => UPLOADING
        | StopAll | ClearAll => NOT_STARTED
        | _ => status s
        end) ∧
  (∀ s', next_job s = Some s' →
         status s' = status s ∨
         (status s' = NOT_STARTED ∧ ∃ w js, jobs (rt s) = JAllThen w :: js)).
Proof.
  split.
  - intros i. destruct i; cbn [react]; try done.
    + apply status_addFile.
    + unfold removeFile. by destruct (remove id (uploadPool s) (rt s)) as [[[u|] p] r].
    + apply status_resumeFile.
    + unfold stopFile. by destruct (remove id (uploadPool s) (rt s)) as [[[u|] p] r].
    + unfold startAll.
      by destruct (onPromiseEnd_shape (set_status UPLOADING
                     (while (Queue.size (waitQueue s)) startAll_body s)))
        as (_ & _ & _ & -> & _).
    + unfold updateFileData. destruct (negb _); [done|].
      destruct (Queue.find _ _); [by case_bool_decide|done].
  - intros s'. unfold next_job. destruct (jobs (rt s)) as [|j js] eqn:Ej; [done|].
    set (s0 := set_rt _ s). change (status s) with (status s0).
    assert (∃ w js', j :: js = JAllThen w :: js' ∨ ∀ w', j ≠ JAllThen w') as Hj.
    { destruct j; try (by exists 0%nat, []; right). exists w, js. by left. }
    clearbody s0.
    destruct j as [w|w e|w|e|v|e|x data|x err| |j]; simpl; try (by intros [= <-]; left).
    + intros [= <-]. unfold onPromiseEnd_all_then.
      destruct (onPromiseEnd_shape s0) as (_ & _ & _ & Hst' & _).
      case_bool_decide; [by left|]. case_bool_decide; [|by left].
      right. split; [by destruct (_ && _)|]. by exists w, js.
    + unfold onPromiseEnd_item_then. destruct v as [res|]; [|by intros [= <-]; left].
      case_bool_decide; [by intros [= <-]; left|].
      intros [-> _]%status_handleUploadStatusChange. by left.
Qed.

Lemma heap_stopAll_false s : ∀ v, get_isDeleted (_stopAll false s) v = get_isDeleted s v.
Proof.
  intros v. unfold _stopAll.
  destruct (stopAll_loop false (pool_tasks (uploadPool s)) (Pool.size (uploadPool s)) s eq_refl)
    as (_ & _ & _ & _ & _ & _ & _ & _ & _ & _ & Hdel); [by rewrite size_tasks|].
  unfold get_isDeleted. simpl. rewrite Hdel. simpl. apply orb_false_r.
Qed.

Lemma heap_stopAll_true s v :
  get_isDeleted s v = true → get_isDeleted (_stopAll true s) v = true.
Proof.
  unfold _stopAll.
  destruct (stopAll_loop true (pool_tasks (uploadPool s)) (Pool.size (uploadPool s)) s eq_refl)
    as (_ & _ & _ & _ & _ & _ & _ & _ & _ & _ & Hdel); [by rewrite size_tasks|].
  unfold get_isDeleted. simpl. rewrite Hdel. by intros ->.
Qed.

Lemma heap_next_job s s' : next_job s = Some s' → heap s' = heap s.
Proof.
  unfold next_job. destruct (jobs (rt s)) as [|j js]; [done|].
  set (s0 := set_rt _ s). change (heap s) with (heap s0). clearbody s0.
  destruct j as [w|w e|w|e|v|e|x data|x err| |j]; simpl; try (by intros [= <-]).
  - intros [= <-]. unfold onPromiseEnd_all_then.
    destruct (onPromiseEnd_shape s0) as (_ & _ & _ & _ & _ & _ & _ & Hh' & _).
    repeat case_match; done.
  - unfold onPromiseEnd_item_then. destruct v as [res|]; [|by intros [= <-]].
    case_bool_decide; [by intros [= <-]|].
    by intros [_ ->]%status_handleUploadStatusChange.
Qed.

(** X22. A task that is marked deleted stays marked: no call, no settlement
    and no promise job clears [isDeleted]. Only [removeFile] and [clearAll]
    set it, and no promise job touches a task object at all. *)
Theorem isDeleted_is_never_cleared (s : PlvVideoUpload) (v : Ref) :
  (∀ i, get_isDeleted s v = true → get_isDeleted (react i s) v = true) ∧
  (∀ i, get_isDeleted (react i s) v = true →
        get_isDeleted s v = true ∨ (∃ id, i = RemoveFile id) ∨ i = ClearAll) ∧
  (∀ s', next_job s = Some s' → heap s' = heap s).
Proof.
  assert (∀ i, (∀ id, i ≠ RemoveFile id) → i ≠ ClearAll →
               get_isDeleted (react i s) v = get_isDeleted s v) as Hsame.
  { intros i Hrm Hcl. destruct i; cbn [react]; try done.
    - unfold addFile. case_bool_decide; [done|].
      destruct (isContainFileMimeType _ _); simpl; [|done].
      unfold get_isDeleted.
      assert (∀ o, from_option isDeleted false ((heap s ++ [mkUploadManager o false
                (generateFileData file fileSetting (userData s))]) !! addr v) =
              from_option isDeleted false (heap s !! addr v)) as Happ.
      { intros o. destruct (decide (addr v < length (heap s))%nat) as [Hlt|Hge].
        - by rewrite lookup_app_l.
        - rewrite (lookup_ge_None_2 (heap s)) by lia.
          destruct (decide (addr v = length (heap s))) as [->|Hne].
          + by rewrite list_lookup_middle.
          + rewrite lookup_ge_None_2; [done|]. rewrite length_app. simpl. lia. }
      destruct (status s); simpl; [apply Happ|].
      rewrite (proj1 (proj2 (proj2 (submit_frame _ _)))). apply Happ.
    - by destruct (Hrm id).
    - unfold get_isDeleted. by rewrite (proj2 (status_resumeFile id s)).
    - unfold stopFile. destruct (remove id (uploadPool s) (rt s)) as [[[u|] p] r]; [|done].
      unfold get_isDeleted. simpl. by apply isDeleted_alter.
    - unfold get_isDeleted.
      destruct (startAll_loop (waitQueue s) (Queue.size (waitQueue s)) s eq_refl)
        as (_ & Hh & _); [done|].
      unfold startAll. set (s1 := while _ _ s) in *.
      destruct (onPromiseEnd_shape (set_status UPLOADING s1))
        as (_ & _ & _ & _ & _ & _ & _ & Hh' & _).
      rewrite Hh'. simpl. by rewrite Hh.
    - apply heap_stopAll_false.
    - unfold updateFileData. destruct (negb _); [done|].
      destruct (Queue.find _ _); [case_bool_decide|]; try done.
      unfold get_isDeleted. simpl. by apply isDeleted_alter.
    - unfold get_isDeleted. simpl. by apply isDeleted_alter. }
  split; [|split].
  - intros i Hv. destruct i; try (rewrite Hsame; done).
    + cbn [react]. unfold removeFile.
      destruct (remove id (uploadPool s) (rt s)) as [[[u|] p] r]; [|done].
      unfold get_isDeleted in *. simpl. rewrite list_alter_alter_eq.
      destruct (decide (addr u = addr v)) as [->|Hne].
      * rewrite list_lookup_alter_eq. by destruct (heap s !! addr v).
      * by rewrite list_lookup_alter_ne.
    + cbn [react]. unfold clearAll, get_isDeleted. simpl. by apply heap_stopAll_true.
  - intros i Hv. destruct i; try (left; rewrite <- Hv; symmetry; apply Hsame; done).
    + right. left. by eexists.
    + by right; right.
  - apply heap_next_job.
Qed.

End Invariants.

(** ** The string helpers of [node.ts] *)

Module NodeFacts.
Import Node.

Lemma replace_tags_skip n : ∀ s, replace_tags n s = replace_tags 0 (drop n s).
Proof.
  induction n as [|n IH]; intros s; [done|].
  destruct s as [|c s]; [done|]. simpl. apply IH.
Qed.

Lemma lazy_close_bound s n : lazy_close s = Some n → (1 ≤ n ≤ length s)%nat.
Proof.
  revert n. induction s as [|c s IH]; intros n; simpl; [done|].
  case_bool_decide; [intros [= <-]; lia|].
  destruct (isLineTerminator c); [done|].
  destruct (lazy_close s) as [m|]; [|done]. intros [= <-].
  specialize (IH m eq_refl). lia.
Qed.

(** The scan, one decision at a time. *)
Lemma replace_tags_step c s :
  replace_tags 0 (c :: s) =
  match match_tag (c :: s) with
  | Some n => replace_tags 0 (drop n (c :: s))
  | None => c :: replace_tags 0 s
  end.
Proof.
  cbn [replace_tags]. destruct (match_tag (c :: s)) as [n|] eqn:E; [|done].
  rewrite replace_tags_skip. destruct n as [|n]; [|done].
  unfold match_tag in E. destruct s as [|d s]; [done|].
  destruct (_ && _); [|done]. by destruct (lazy_close s).
Qed.

Lemma terminator_not_less c : isLineTerminator c = true → c ≠ LESS_THAN.
Proof.
  unfold isLineTerminator. intros Hc%bool_decide_eq_true ->.
  rewrite !elem_of_cons, elem_of_nil in Hc. unfold LESS_THAN in Hc. lia.
Qed.

Lemma less_not_terminator : isLineTerminator LESS_THAN = false.
Proof. done. Qed.

Lemma match_tag_other c s : c ≠ LESS_THAN → match_tag (c :: s) = None.
Proof.
  intros Hc. unfold match_tag. destruct s as [|d s]; [done|].
  by rewrite bool_decide_eq_false_2.
Qed.

(** No [>] closes the line behind [c]: the expression matches neither at
    [c] nor, if [c] is no line terminator, anywhere on the rest of the
    line. *)
Lemma match_tag_open c s : lazy_close (c :: s) = None → match_tag (c :: s) = None.
Proof.
  intros Hc. unfold match_tag. destruct s as [|d s]; [done|].
  destruct (bool_decide (c = LESS_THAN) && negb (isLineTerminator d)) eqn:E; [|done].
  apply andb_true_iff in E as [->%bool_decide_eq_true Hd%negb_true_iff].
  cbn [lazy_close] in Hc. rewrite less_not_terminator, Hd in Hc.
  rewrite bool_decide_eq_false_2 in Hc by done.
  case_bool_decide; [done|]. by destruct (lazy_close s).
Qed.

(** Where no [>] closes the line, the scan keeps everything up to the end
    of the line, so no [>] closes the line of the result either. *)
Lemma lazy_close_replace s :
  lazy_close s = None → lazy_close (replace_tags 0 s) = None.
Proof.
  induction s as [|c s IH]; [done|]. intros Hc.
  rewrite replace_tags_step, (match_tag_open _ _ Hc).
  cbn [lazy_close] in *. case_bool_decide; [done|].
  destruct (isLineTerminator c); [done|].
  destruct (lazy_close s); [done|]. by rewrite IH.
Qed.

(** A place where the expression does not match still does not match once
    the rest is scanned. *)
Lemma match_tag_replace c s :
  match_tag (c :: s) = None → match_tag (c :: replace_tags 0 s) = None.
Proof.
  intros Hm. destruct (decide (c = LESS_THAN)) as [->|Hc]; [|by apply match_tag_other].
  destruct s as [|d s]; [done|].
  destruct (isLineTerminator d) eqn:Hd.
  - rewrite replace_tags_step, (match_tag_other d s) by by apply terminator_not_less.
    unfold match_tag. by rewrite Hd, andb_false_r.
  - assert (lazy_close s = None) as Hs.
    { unfold match_tag in Hm. rewrite Hd, bool_decide_eq_true_2 in Hm by done.
      simpl in Hm. by destruct (lazy_close s). }
    assert (lazy_close (d :: s) = None ∨ d = GREATER_THAN) as [Hds|Hgt].
    { cbn [lazy_close]. case_bool_decide; [by right|left]. by rewrite Hd, Hs. }
    2: subst d.
    + rewrite replace_tags_step, (match_tag_open _ _ Hds).
      unfold match_tag. rewrite Hd, bool_decide_eq_true_2 by done. simpl.
      by rewrite (lazy_close_replace _ Hs).
    + rewrite replace_tags_step, (match_tag_other GREATER_THAN s) by done.
      unfold match_tag. rewrite bool_decide_eq_true_2 by done. simpl.
      by rewrite (lazy_close_replace _ Hs).
Qed.

Lemma match_tag_bound s n : match_tag s = Some n → (2 ≤ n ≤ length s)%nat.
Proof.
  unfold match_tag. destruct s as [|c [|d s]]; [done..|].
  destruct (_ && _); [|done]. destruct (lazy_close s) as [m|] eqn:E; [|done].
  intros [= <-]. apply lazy_close_bound in E. simpl. lia.
Qed.

Lemma replace_tags_no_match n : ∀ s pre suf,
  (length s ≤ n)%nat → replace_tags 0 s = pre ++ suf → match_tag suf = None.
Proof.
  induction n as [|n IH]; intros s pre suf Hlen.
  - destruct s; [|simpl in Hlen; lia]. simpl. intros Heq. symmetry in Heq.
    by apply app_eq_nil in Heq as [_ ->].
  - destruct s as [|c s].
    { simpl. intros Heq. symmetry in Heq. by apply app_eq_nil in Heq as [_ ->]. }
    rewrite replace_tags_step. destruct (match_tag (c :: s)) as [k|] eqn:Hm.
    + apply match_tag_bound in Hm. apply IH. rewrite length_drop. simpl in *. lia.
    + destruct pre as [|c' pre]; simpl.
      * intros <-. by apply match_tag_replace.
      * intros [= <- Heq]. apply (IH s pre); [simpl in Hlen; lia|done].
Qed.

Lemma lazy_close_closed m post :
  Forall (λ c, isLineTerminator c = false) m →
  is_Some (lazy_close (m ++ GREATER_THAN :: post)).
Proof.
  induction 1 as [|c m Hc _ IH]; cbn [app lazy_close].
  - by rewrite bool_decide_eq_true_2.
  - case_bool_decide; [done|]. rewrite Hc. destruct IH as [k ->]. done.
Qed.

Lemma has_tag_match s :
  has_tag s → ∃ pre suf, s = pre ++ suf ∧ is_Some (match_tag suf).
Proof.
  intros (pre & mid & post & -> & Hmid & Hall).
  destruct mid as [|d mid]; [done|]. apply Forall_cons in Hall as [Hd Hall].
  exists pre, (LESS_THAN :: d :: mid ++ GREATER_THAN :: post). split; [done|].
  unfold match_tag. rewrite Hd, bool_decide_eq_true_2 by done. simpl.
  destruct (lazy_close_closed mid post Hall) as [k ->]. done.
Qed.

Lemma replace_tags_sublist s : ∀ n, replace_tags n s `sublist_of` s.
Proof.
  induction s as [|c s IH]; intros n; [done|]. cbn [replace_tags].
  destruct n as [|n]; [|by apply sublist_cons].
  destruct (match_tag (c :: s)); [by apply sublist_cons|by apply sublist_skip].
Qed.

Lemma replace_tags_plain s : LESS_THAN ∉ s → replace_tags 0 s = s.
Proof.
  induction s as [|c s IH]; [done|]. intros [Hc Hs]%not_elem_of_cons.
  rewrite replace_tags_step, match_tag_other by done. by rewrite IH.
Qed.

Lemma trimStart_sublist s : trimStart s `sublist_of` s.
Proof.
  induction s as [|c s IH]; [done|]. simpl.
  destruct (_ || _); [by apply sublist_cons|done].
Qed.

Lemma sublist_reverse {A} (l k : list A) :
  l `sublist_of` k → reverse l `sublist_of` reverse k.
Proof.
  induction 1 as [|x l k _ IH|x l k _ IH]; [done| |].
  - rewrite !reverse_cons. by apply sublist_app.
  - rewrite reverse_cons. by apply sublist_inserts_r.
Qed.

Lemma trim_sublist s : trim s `sublist_of` s.
Proof.
  unfold trim. etrans; [|apply trimStart_sublist].
  rewrite <- (reverse_involutive (trimStart s)) at 2.
  apply sublist_reverse, trimStart_sublist.
Qed.

(** X17. What [cleanupFileName] returns holds no tag: no [<] followed by at
    least one code unit, none of them a line terminator, and [>]. It only
    leaves code units out (the result is a subsequence of the argument),
    and an argument without [<] is only trimmed. *)
Theorem cleanupFileName_leaves_no_tag (x : JsString) :
  ¬ has_tag (cleanupFileName x) ∧
  cleanupFileName x `sublist_of` x ∧
  (LESS_THAN ∉ x → cleanupFileName x = trim x).
Proof.
  unfold cleanupFileName. split; [|split].
  - intros (pre & suf & Heq & [k Hk])%has_tag_match.
    by rewrite (replace_tags_no_match _ _ pre suf (Nat.le_refl _) Heq) in Hk.
  - etrans; [apply replace_tags_sublist|apply trim_sublist].
  - intros Hx. apply replace_tags_plain. intros Hin. apply Hx.
    by eapply elem_of_sublist, trim_sublist.
Qed.

Lemma lastIndexOf_absent c s : c ∉ s → lastIndexOf c s = -1.
Proof.
  induction s as [|x s IH]; [done|]. intros [Hx Hs]%not_elem_of_cons.
  simpl. rewrite (IH Hs). simpl. by rewrite bool_decide_eq_false_2.
Qed.

Lemma lastIndexOf_last c pre ext :
  c ∉ ext → lastIndexOf c (pre ++ c :: ext) = Z.of_nat (length pre).
Proof.
  intros Hext. induction pre as [|x pre IH]; simpl.
  - rewrite (lastIndexOf_absent _ _ Hext). simpl. by rewrite bool_decide_eq_true_2.
  - rewrite IH. destruct (0 <=? Z.of_nat (length pre)) eqn:E; [lia|].
    apply Z.leb_gt in E. lia.
Qed.

(** X18. The name [upload] gives the file on the OSS ends with the file
    name's suffix from its last full stop on; for a file name without a
    full stop it ends with the whole file name. *)
Theorem filenameOss_extension (dir vid filename : JsString) :
  (∀ pre ext, filename = pre ++ FULL_STOP :: ext → FULL_STOP ∉ ext →
              filenameOss dir vid filename = dir ++ vid ++ FULL_STOP :: ext) ∧
  (FULL_STOP ∉ filename → filenameOss dir vid filename = dir ++ vid ++ filename).
Proof.
  unfold filenameOss, substring. split.
  - intros pre ext -> Hext. rewrite (lastIndexOf_last _ _ _ Hext).
    rewrite length_app. cbn [length].
    replace (Z.to_nat _) with (length pre) by lia.
    by rewrite drop_app_length.
  - intros Habs. rewrite (lastIndexOf_absent _ _ Habs).
    replace (Z.to_nat _) with 0%nat by lia. done.
Qed.

End NodeFacts.

(** ** The further properties on concrete runs *)

Module MoreRuns.
Import Sample MoreSample.

(** X2 at a pool of limit 1 that is given two tasks: the second one waits
    and the only slot is taken. *)
Lemma pool_never_idles_witness :
  let p := (foldl Pool.step (Pool.new 1, Runtime_init) [Pool.Enqueue A; Pool.Enqueue B]).1 in
  Pool._waitingList p = [] ∨
  (1 - 1 < inject_Z (Z.of_nat (length (Pool._processingList p))) ∧
   inject_Z (Z.of_nat (length (Pool._processingList p))) <= 1)%Q.
Proof.
  apply (PoolMore.pool_never_idles 1 Runtime_init [Pool.Enqueue A; Pool.Enqueue B]).
  - discriminate.
  - by repeat constructor.
Defined.

(** X4 at the same pool when the run of A succeeds: B, and only B, is
    started. *)
Lemma started_exactly_when_admitted_witness :
  let s := foldl Pool.step (Pool.new 1, Runtime_init) [Pool.Enqueue A; Pool.Enqueue B] in
  let s' := Pool.step s (Pool.RunThen (mkItem "A" A 0) None) in
  trace (s'.2) = trace (s.2) ++ [Call_start B].
Proof.
  intros s s'.
  destruct (PoolMore.started_exactly_when_admitted 1 Runtime_init
              [Pool.Enqueue A; Pool.Enqueue B] (Pool.RunThen (mkItem "A" A 0) None))
    as [H _]; [discriminate|]. exact H.
Defined.

(** X5 on the first file of a fresh orchestrator. *)
Lemma addFile_accepts_witness :
  let r := addFile (video "A") () (plv None) in
  r.1 = inr A ∧ fileQueue (r.2) = [A] ∧ waitQueue (r.2) = [A] ∧
  Pool.size (uploadPool (r.2)) = 0%nat.
Proof.
  cbv zeta.
  destruct (addFile_accepts (video "A") () (plv None) eq_refl eq_refl)
    as (H1 & H2 & _ & _ & _ & _ & H3 & H4 & _).
  split; [exact H1|]. split; [exact H2|]. split; [exact H3|]. by rewrite H4.
Defined.

(** X6 on the same file. *)
Lemma addFile_twice_witness :
  let s1 := (addFile (video "A") () (plv None)).2 in
  (addFile (video "A") () s1).1 = inl (Error "Uploading duplicate file") ∧
  fileQueue (addFile (video "A") () s1).2 = [A].
Proof.
  cbv zeta.
  destruct (addFile_twice (video "A") () (plv None) eq_refl) as (H1 & _ & H3).
  split; [exact H1|]. by rewrite H3.
Defined.

(** X12 once A and B are both done: [startAll] notifies a second time. *)
Lemma startAll_with_nothing_to_do_witness :
  fired (rt state_all_done) = 1%nat ∧
  ∃ s', next_job (startAll state_all_done) = Some s' ∧ fired (rt s') = 2%nat ∧
        status s' = NOT_STARTED.
Proof.
  split; [reflexivity|].
  destruct (startAll_with_nothing_to_do state_all_done eq_refl eq_refl eq_refl)
    as (s' & Hnext & _ & _ & _ & _ & Hst & Htrace).
  exists s'. split; [exact Hnext|]. split; [|exact Hst].
  unfold fired. by rewrite Htrace.
Defined.

(** X14 when a promise is fulfilled with status 100 for A, which waits. *)
Lemma dispatch_frame_witness :
  let s := (addFile (video "A") () (plv None)).2 in
  ∃ s', onPromiseEnd_item_then (Some (res 100 A)) s = Some s' ∧
        fileQueue s' = [A] ∧ waitQueue s' = [] ∧ trace (rt s') = [].
Proof.
  intros s. eexists. split; [reflexivity|].
  destruct (dispatch_frame (Some (res 100 A)) s _ eq_refl)
    as ((H1 & _) & _ & _ & _ & H3 & _).
  destruct (H3 eq_refl) as [H4 H5].
  split; [by rewrite H1|]. split; [by rewrite H4|]. by rewrite H5.
Defined.

(** X15 when A reports status 106 while nothing was started. *)
Lemma retry_resubmits_witness :
  let s := (addFile (video "A") () (plv None)).2 in
  ∃ s', step_job (JItemThen (Some (res 106 A))) s = Some s' ∧
        Pool.size (uploadPool s') = 1%nat ∧ waitQueue s' = [A] ∧
        newUploadPromiseList s' = [] ∧ status s' = NOT_STARTED.
Proof.
  intros s.
  destruct (retry_resubmits (res 106 A) A s (or_introl eq_refl) eq_refl)
    as (s' & Hstep & Hsize & _ & _ & Hw & _ & _ & Hst & Hnew & _).
  exists s'. split; [exact Hstep|]. split; [exact Hsize|]. split; [exact Hw|].
  split; [exact Hnew|exact Hst].
Defined.

(** X16 on two files started on a pool of limit 1. *)
Lemma running_tasks_bounded_witness :
  Pool._limit (uploadPool state_started) = 1%Q ∧
  (length (Pool._processingList (uploadPool state_started)) ≤ 5)%nat.
Proof.
  destruct (running_tasks_bounded state_started) as (H1 & _ & _ & H2 & _).
  { repeat apply reachable_react. apply reachable_constructor. }
  split; [exact H1|exact H2].
Defined.

(** X19 on the same state: A runs and B waits for the only slot. *)
Lemma no_slot_left_free_witness :
  let p := uploadPool state_started in
  Pool._waitingList p = [] ∨
  (Pool._limit p - 1 < inject_Z (Z.of_nat (length (Pool._processingList p))) ∧
   inject_Z (Z.of_nat (length (Pool._processingList p))) <= Pool._limit p)%Q.
Proof.
  apply (no_slot_left_free state_started).
  repeat apply reachable_react. apply reachable_constructor.
Defined.

(** X20 on the same state. *)
Lemma fileQueue_ids_unique_witness : NoDup (ref_id <$> fileQueue state_started).
Proof.
  apply (fileQueue_ids_unique state_started).
  repeat apply reachable_react. apply reachable_constructor.
Defined.

(** Why X2 leaves [dequeue] out: it hands out the running task and makes no
    admission check, so B goes on waiting beside a free slot. *)
Example dequeue_leaves_slot_free :
  let p := (foldl Pool.step (Pool.new 1, Runtime_init)
              [Pool.Enqueue A; Pool.Enqueue B; Pool.Dequeue]).1 in
  Pool._processingList p = [] ∧ Pool._waitingList p = [mkItem "B" B 1].
Proof. done. Qed.

(** The result of [cleanupFileName] is not trimmed again: leaving out the
    tags of ["<a> b <c>"] keeps the blanks around [b]. *)
Example cleanupFileName_keeps_inner_blanks :
  Node.cleanupFileName [60; 97; 62; 32; 98; 32; 60; 99; 62]%N = [32; 98; 32]%N.
Proof. done. Qed.

End MoreRuns.
